(** * Submarine swaps and SPV verification: a shallow embedding

    This development embeds the fee calculator, the swap index, the
    claim watcher and the forward-swap checks of
    [electrum/submarine_swaps.py] and the merkle verifier of
    [lib/verifier.py], and states their properties.

    Conventions.  Python [int] is [Z].  A Python function that may
    return [None] returns an [option]; one that may raise returns a
    [result].  [Decimal] values are rationals ([Q]).  [FeeCalc]
    computes with them exactly; [FeeDecimal] rounds the result of every
    operation to the 28 digits of the [decimal] context, as Python
    does, and the two are related in [FeeDecimalFacts].  The
    objects held by several dictionaries at once ([SwapData]) live in
    a store indexed by locations, and the dictionaries hold locations. *)

From Stdlib Require Import ZArith QArith Qround Qpower Lqa.
From stdpp Require Import gmap strings list fin_maps.

Local Open Scope Z_scope.

(** ** Exceptions and results *)

Inductive exn : Type :=
| CalcInvertSanityCheck   (* Exception("calc-invert-sanity-check failed...") *)
| TypeError               (* arithmetic on None *)
| ArithmeticError         (* decimal.DivisionByZero / InvalidOperation *)
| BelowDustLimit
| AssertionError
| InnerNodeOfSpvProofIsValidTx
| MalformedBitcoinScript
| ValueError
| SwapCheckFailed (msg : string).  (* Exception("fswap check failed: ...") *)

Inductive result (A : Type) : Type :=
| Ok (a : A)
| Raise (e : exn).
Arguments Ok {A} a.
Arguments Raise {A} e.

#[global] Instance result_ret : MRet result := fun A a => Ok a.
#[global] Instance result_bind : MBind result :=
  fun A B f m => match m with Ok a => f a | Raise e => Raise e end.

Definition is_raise {A} (r : result A) : bool :=
  match r with Raise _ => true | Ok _ => false end.

(** ** The fee calculator ([SwapManager._get_recv_amount] and friends) *)

Module FeeCalc.

(** The attributes of [SwapManager] the calculator reads, with the two
    values it obtains from collaborators: [claim_fee] is
    [config.estimate_fee(136, ...)] and [dust] is [dust_threshold()]. *)
Record config : Type := {
  percentage : Q;
  normal_fee : Z;
  lockup_fee : Z;
  min_amount : Z;
  max_amount : Z;
  claim_fee : Z;
  dust : Z
}.

Section Calc.
Variable c : config.

Definition check_invoice_amount (x : Z) : bool :=
  (min_amount c <=? x) && (x <=? max_amount c).

(** [_get_recv_amount]: the running value [x] is a [Decimal] holding an
    integer at every point where it is compared or returned, so it is
    kept in [Z]; only the fee quotients are rationals. *)
Definition _get_recv_amount (send_amount : option Z) (is_reverse : bool)
  : result (option Z) :=
  match send_amount with
  | None => Ok None
  | Some x =>
    if is_reverse then
      if negb (check_invoice_amount x) then Ok None
      else
        let percentage_fee := Qceiling (percentage c * inject_Z x / 100) in
        let base_fee := lockup_fee c in
        let x := x - (percentage_fee + base_fee) in
        if x <? dust c then Ok None else Ok (Some x)
    else
      let x := x - normal_fee c in
      if Qeq_bool (100 + percentage c) 0 then Raise ArithmeticError
      else
        let percentage_fee :=
          Qceiling (inject_Z x * percentage c / (100 + percentage c)) in
        let x := x - percentage_fee in
        if negb (check_invoice_amount x) then Ok None else Ok (Some x)
  end.

(** [_get_send_amount]; [if not recv_amount] holds for [None] and for 0. *)
Definition _get_send_amount (recv_amount : option Z) (is_reverse : bool)
  : result (option Z) :=
  match recv_amount with
  | None => Ok None
  | Some x =>
    if x =? 0 then Ok None
    else if is_reverse then
      let base_fee := lockup_fee c in
      let x := x + base_fee in
      if Qeq_bool ((100 - percentage c) / 100) 0 then Raise ArithmeticError
      else
        let x := Qceiling (inject_Z x / ((100 - percentage c) / 100)) in
        if negb (check_invoice_amount x) then Ok None else Ok (Some x)
    else
      if negb (check_invoice_amount x) then Ok None
      else
        let percentage_fee := Qceiling (percentage c * inject_Z x / 100) in
        Ok (Some (x + (percentage_fee + normal_fee c)))
  end.

(** [get_recv_amount]: the inverse is recomputed and compared with the
    argument; [send_amount - None] is a [TypeError]. *)
Definition get_recv_amount (send_amount : option Z) (is_reverse : bool)
  : result (option Z) :=
  recv_amount ← _get_recv_amount send_amount is_reverse;
  _ ← match recv_amount with
      | Some _ =>
        inverted_send_amount ← _get_send_amount recv_amount is_reverse;
        match send_amount, inverted_send_amount with
        | Some s, Some i =>
          if Z.abs (s - i) >? 1 then Raise CalcInvertSanityCheck else Ok tt
        | _, _ => Raise TypeError
        end
      | None => Ok tt
      end;
  match recv_amount with
  | Some r => if is_reverse then Ok (Some (r - claim_fee c)) else Ok (Some r)
  | None => Ok None
  end.

(** [get_send_amount]: here the comparison is an equality. *)
Definition get_send_amount (recv_amount : option Z) (is_reverse : bool)
  : result (option Z) :=
  let recv_amount :=
    match recv_amount with
    | Some r => if is_reverse then Some (r + claim_fee c) else Some r
    | None => None
    end in
  send_amount ← _get_send_amount recv_amount is_reverse;
  _ ← match send_amount with
      | Some _ =>
        inverted_recv_amount ← _get_recv_amount send_amount is_reverse;
        if decide (recv_amount = inverted_recv_amount) then Ok tt
        else Raise CalcInvertSanityCheck
      | None => Ok tt
      end;
  Ok send_amount.

End Calc.

(** Default limits of [init_min_max_values], a fee of one half percent. *)
Definition sample : config := {|
  percentage := 1 # 2;
  normal_fee := 1500;
  lockup_fee := 2000;
  min_amount := 10000;
  max_amount := 10000000;
  claim_fee := 136;
  dust := 546
|}.

(** A schedule whose proportional fee is so high that the reverse
    calculation cannot be inverted within one unit. *)
Definition steep : config := {|
  percentage := 75;
  normal_fee := 0;
  lockup_fee := 0;
  min_amount := 1;
  max_amount := 1000;
  claim_fee := 0;
  dust := 1
|}.

End FeeCalc.

(** ** The merkle verifier ([lib/verifier.py], class [SPV]) *)

Abbreviation bytes := (list Byte.byte).

Module SPV.

(** A block header as far as the verifier reads it. *)
Record header : Type := {
  merkle_root : string;
  timestamp : Z
}.

(** What the verifier tells its collaborators. *)
Inductive effect : Type :=
| GetMerkleForTransaction (tx_hash : string) (tx_height : Z)
| FetchMissingHeadersAround (tx_height : Z)
| AddVerifiedTx (tx_hash : string) (tx_height : Z) (ts : Z) (pos : Z)
| SaveVerifiedTx.

(** The attributes of an [SPV] object; [blockchain] identifies the
    chain object it last saw, [effects] collects the calls made on the
    network and the wallet, oldest first. *)
Record state : Type := {
  blockchain : Z;
  merkle_roots : gmap string string;
  requested_merkle : gset string;
  effects : list effect
}.

(** [SPV.__init__] *)
Definition init (chain : Z) : state :=
  {| blockchain := chain; merkle_roots := ∅; requested_merkle := ∅;
     effects := [] |}.

(** A merkle response: [params[0]], [result['merkle']],
    [result['block_height']], [result['pos']] and whether it carries
    an [error]. *)
Record response : Type := {
  error : bool;
  tx_hash : string;
  merkle : list string;
  block_height : Z;
  pos : Z
}.

(** The exit taken by [verify_merkle] (it returns [None] on all of them). *)
Inductive outcome : Type :=
| Orphan
| ErrorResponse
| InnerNodeLooksLikeTx
| MissingHeader
| RootMismatch
| Verified
| Uncaught (e : exn).

Section Verifier.

(** Functions of [bitcoin], [util] and [transaction] that the verifier
    imports: the double hash, the two codecs between a hexadecimal
    identifier and its bytes, the hexadecimal rendering, and whether
    [Transaction(raw).deserialize()] returns without raising. *)
Variable Hash : bytes -> bytes.
Variable hash_decode : string -> bytes.
Variable hash_encode : bytes -> string.
Variable bh2u : bytes -> string.
Variable deserializes : string -> bool.

Definition _raise_if_valid_tx (raw_tx : string) : result unit :=
  if deserializes raw_tx then Raise InnerNodeOfSpvProofIsValidTx else Ok tt.

(** One iteration of the loop of [hash_merkle_root], before the check. *)
Definition merkle_step (pos : Z) (i : nat) (item : string) (h : bytes) : bytes :=
  if Z.land (Z.shiftr pos (Z.of_nat i)) 1 =? 0
  then Hash (h ++ hash_decode item)
  else Hash (hash_decode item ++ h).

(** The loop [for i in range(len(merkle_s))], from index [i] on.  The
    first component lists the arguments [_raise_if_valid_tx] was
    called with, in order. *)
Fixpoint merkle_loop (items : list string) (i : nat) (pos : Z) (h : bytes)
  : list string * result bytes :=
  match items with
  | [] => ([], Ok h)
  | item :: rest =>
    let h := merkle_step pos i item h in
    match _raise_if_valid_tx (bh2u h) with
    | Raise e => ([bh2u h], Raise e)
    | Ok _ =>
      let '(checked, r) := merkle_loop rest (S i) pos h in
      (bh2u h :: checked, r)
    end
  end.

Definition hash_merkle_root (merkle_s : list string) (target_hash : string)
    (pos : Z) : list string * result string :=
  let '(checked, r) := merkle_loop merkle_s 0 pos (hash_decode target_hash) in
  (checked, h ← r; Ok (hash_encode h)).

(** The fold in the words of the specification: bit [i] of the
    position says whether sibling [i] goes in front of the running
    hash or behind it.  No check is made. *)
Fixpoint fold_siblings (items : list string) (i : nat) (pos : Z) (h : bytes)
  : bytes :=
  match items with
  | [] => h
  | item :: rest =>
    fold_siblings rest (S i) pos
      (if Z.testbit pos (Z.of_nat i)
       then Hash (hash_decode item ++ h)
       else Hash (h ++ hash_decode item))
  end.

(** The hashes after each fold step, in order. *)
Fixpoint inner_nodes (items : list string) (i : nat) (pos : Z) (h : bytes)
  : list bytes :=
  match items with
  | [] => []
  | item :: rest =>
    let h := if Z.testbit pos (Z.of_nat i)
             then Hash (hash_decode item ++ h)
             else Hash (h ++ hash_decode item) in
    h :: inner_nodes rest (S i) pos h
  end.

(** The surroundings of one call of [verify_merkle]. *)
Record verify_env : Type := {
  verifier_alive : bool;              (* self.wallet.verifier is not None *)
  read_header : Z -> option header;   (* self.network.blockchain().read_header *)
  wallet_up_to_date : bool
}.

Definition is_up_to_date (st : state) : bool :=
  bool_decide (requested_merkle st = ∅).

Definition verify_merkle (env : verify_env) (st : state) (resp : response)
  : state * outcome :=
  if negb (verifier_alive env) then (st, Orphan)
  else if error resp then (st, ErrorResponse)
  else
    match snd (hash_merkle_root (merkle resp) (tx_hash resp) (pos resp)) with
    | Raise InnerNodeOfSpvProofIsValidTx => (st, InnerNodeLooksLikeTx)
    | Raise e => (st, Uncaught e)
    | Ok root =>
      match read_header env (block_height resp) with
      | None => (st, MissingHeader)
      | Some hd =>
        if negb (bool_decide (merkle_root hd = root)) then (st, RootMismatch)
        else
          let roots := <[tx_hash resp := root]> (merkle_roots st) in
          let requested := requested_merkle st ∖ {[tx_hash resp]} in
          let eff := effects st ++
            [AddVerifiedTx (tx_hash resp) (block_height resp)
               (timestamp hd) (pos resp)] in
          let st1 := {| blockchain := blockchain st; merkle_roots := roots;
                        requested_merkle := requested; effects := eff |} in
          if is_up_to_date st1 && wallet_up_to_date env
          then ({| blockchain := blockchain st; merkle_roots := roots;
                   requested_merkle := requested;
                   effects := eff ++ [SaveVerifiedTx] |}, Verified)
          else (st1, Verified)
      end
    end.

(** [remove_spv_proof_for_tx] *)
Definition remove_spv_proof_for_tx (st : state) (tx : string) : state :=
  {| blockchain := blockchain st;
     merkle_roots := delete tx (merkle_roots st);
     requested_merkle := requested_merkle st ∖ {[tx]};
     effects := effects st |}.

(** The surroundings of one call of [run]. *)
Record run_env : Type := {
  is_connected : bool;
  network_blockchain : option Z;        (* self.network.blockchain() *)
  local_height : Z;
  unverified : list (string * Z);       (* wallet.get_unverified_txs().items() *)
  chain_header : Z -> option header;    (* blockchain.read_header *)
  is_before_last_checkpoint : Z -> bool;
  undone : list string                  (* wallet.undo_verifications(...) *)
}.

(** The body of the loop of [run] for one unverified transaction. *)
Definition request_step (env : run_env) (st : state) (tx : string * Z) : state :=
  let '(tx_hash, tx_height) := tx in
  if (tx_height <=? 0) || (local_height env <? tx_height) then st
  else
    match chain_header env tx_height with
    | None =>
      if is_before_last_checkpoint env tx_height
      then {| blockchain := blockchain st; merkle_roots := merkle_roots st;
              requested_merkle := requested_merkle st;
              effects := effects st ++ [FetchMissingHeadersAround tx_height] |}
      else st
    | Some _ =>
      if bool_decide (tx_hash ∉ requested_merkle st)
         && bool_decide (merkle_roots st !! tx_hash = None)
      then {| blockchain := blockchain st; merkle_roots := merkle_roots st;
              requested_merkle := {[tx_hash]} ∪ requested_merkle st;
              effects := effects st ++ [GetMerkleForTransaction tx_hash tx_height] |}
      else st
    end.

(** [undo_verifications] *)
Definition undo_verifications (env : run_env) (st : state) : state :=
  foldl remove_spv_proof_for_tx st (undone env).

Definition run (env : run_env) (st : state) : state :=
  if negb (is_connected env) then st
  else
    match network_blockchain env with
    | None => st
    | Some chain =>
      let st := foldl (request_step env) st (unverified env) in
      if negb (bool_decide (chain = blockchain st))
      then undo_verifications env
             {| blockchain := chain; merkle_roots := merkle_roots st;
                requested_merkle := requested_merkle st;
                effects := effects st |}
      else st
    end.

End Verifier.

(** The invariant of the verification state. *)
Definition at_most_one (st : state) : Prop :=
  forall tx, ~ (tx ∈ requested_merkle st /\ is_Some (merkle_roots st !! tx)).

End SPV.


(** ** Redeem scripts and their templates *)

Module Script.

(** Modelled from the spec: the values of [bitcoin.opcodes], which is
    not among the sources; these are the opcode numbers of the script
    language the templates are written in. *)
Definition OP_PUSHDATA1 : Z := 76.
Definition OP_PUSHDATA2 : Z := 77.
Definition OP_PUSHDATA4 : Z := 78.
Definition OP_IF : Z := 99.
Definition OP_ELSE : Z := 103.
Definition OP_ENDIF : Z := 104.
Definition OP_DROP : Z := 117.
Definition OP_SIZE : Z := 130.
Definition OP_EQUAL : Z := 135.
Definition OP_EQUALVERIFY : Z := 136.
Definition OP_HASH160 : Z := 169.
Definition OP_CHECKSIG : Z := 172.
Definition OP_CHECKLOCKTIMEVERIFY : Z := 177.

(** A parsed script element: the opcode and, for a push, the bytes pushed. *)
Definition token : Type := (Z * option bytes)%type.

(** A template slot: a fixed opcode, or a push whose length may have
    to satisfy a predicate ([OPPushDataGeneric(pushlen)]). *)
Inductive template_item : Type :=
| Opcode (op : Z)
| OPPushDataGeneric (pushlen : option (Z -> bool)).

(** Modelled from the spec: [OPPushDataPubkey] of [transaction], which
    is not among the sources; a push of a public key, compressed or not. *)
Definition OPPushDataPubkey : template_item :=
  OPPushDataGeneric (Some (fun x => (x =? 33) || (x =? 65))).

Definition WITNESS_TEMPLATE_SWAP : list template_item := [
  Opcode OP_HASH160;
  OPPushDataGeneric (Some (fun x => x =? 20));
  Opcode OP_EQUAL;
  Opcode OP_IF;
  OPPushDataPubkey;
  Opcode OP_ELSE;
  OPPushDataGeneric None;
  Opcode OP_CHECKLOCKTIMEVERIFY;
  Opcode OP_DROP;
  OPPushDataPubkey;
  Opcode OP_ENDIF;
  Opcode OP_CHECKSIG
].

Definition WITNESS_TEMPLATE_REVERSE_SWAP : list template_item := [
  Opcode OP_SIZE;
  OPPushDataGeneric None;
  Opcode OP_EQUAL;
  Opcode OP_IF;
  Opcode OP_HASH160;
  OPPushDataGeneric (Some (fun x => x =? 20));
  Opcode OP_EQUALVERIFY;
  OPPushDataPubkey;
  Opcode OP_ELSE;
  Opcode OP_DROP;
  OPPushDataGeneric None;
  Opcode OP_CHECKLOCKTIMEVERIFY;
  Opcode OP_DROP;
  OPPushDataPubkey;
  Opcode OP_ENDIF;
  Opcode OP_CHECKSIG
].

Definition byte_val (b : Byte.byte) : Z := Z.of_N (Byte.to_N b).

(** [int.from_bytes(b, byteorder='little')] *)
Fixpoint int_from_bytes_little (b : bytes) : Z :=
  match b with
  | [] => 0
  | x :: rest => byte_val x + 256 * int_from_bytes_little rest
  end.

(** [b[:n]] and [b[n:]] when [b] has at least [n] bytes. *)
Definition split_at (n : Z) (b : bytes) : option (bytes * bytes) :=
  if (0 <=? n) && (n <=? Z.of_nat (length b))
  then Some (take (Z.to_nat n) b, drop (Z.to_nat n) b)
  else None.

(** Modelled from the spec: [script_GetOp] of [transaction], which is
    not among the sources: "parse the script into an ordered sequence
    of (opcode-or-pushed-bytes) tokens".  An opcode up to
    [OP_PUSHDATA4] pushes data: below [OP_PUSHDATA1] it is itself the
    number of bytes that follow, the three [OP_PUSHDATA] opcodes are
    followed by a length of one, two or four bytes.  A push running
    past the end of the script is malformed.  [fuel] bounds the number
    of tokens; every token consumes a byte, so the length of the
    script is enough. *)
Fixpoint script_GetOp_from (fuel : nat) (b : bytes) : result (list token) :=
  match fuel, b with
  | _, [] => Ok []
  | O, _ :: _ => Raise MalformedBitcoinScript
  | S fuel, x :: rest =>
    let opcode := byte_val x in
    if OP_PUSHDATA4 <? opcode then
      toks ← script_GetOp_from fuel rest; Ok ((opcode, None) :: toks)
    else
      let width := if opcode =? OP_PUSHDATA1 then 1
                   else if opcode =? OP_PUSHDATA2 then 2
                   else if opcode =? OP_PUSHDATA4 then 4
                   else 0 in
      match split_at width rest with
      | None => Raise MalformedBitcoinScript
      | Some (len_bytes, rest) =>
        let nSize := if width =? 0 then opcode
                     else int_from_bytes_little len_bytes in
        match split_at nSize rest with
        | None => Raise MalformedBitcoinScript
        | Some (vch, rest) =>
          toks ← script_GetOp_from fuel rest; Ok ((opcode, Some vch) :: toks)
        end
      end
  end.

Definition script_GetOp (b : bytes) : result (list token) :=
  script_GetOp_from (length b) b.

(** Whether a token fills a template slot: a fixed opcode must be
    equal; a push slot takes any pushed value whose length satisfies
    the predicate of the slot, if it has one. *)
Definition match_item (t : template_item) (tok : token) : bool :=
  match t, tok with
  | Opcode op, (opcode, _) => opcode =? op
  | OPPushDataGeneric pushlen, (opcode, Some vch) =>
    (opcode <=? OP_PUSHDATA4) &&
    match pushlen with
    | Some p => p (Z.of_nat (length vch))
    | None => true
    end
  | OPPushDataGeneric _, (_, None) => false
  end.

Fixpoint match_tokens (toks : list token) (template : list template_item)
  : bool :=
  match toks, template with
  | [], [] => true
  | tok :: toks, t :: template => match_item t tok && match_tokens toks template
  | _, _ => false
  end.

(** Modelled from the spec: [match_script_against_template] of
    [transaction], which is not among the sources: "test structural
    equality against the template, where wildcard slots accept any
    pushed value satisfying an optional length/content predicate".  A
    script that does not parse does not match. *)
Definition match_script_against_template (script : bytes)
    (template : list template_item) : bool :=
  match script_GetOp script with
  | Ok toks => match_tokens toks template
  | Raise _ => false
  end.

(** [parsed_script[i][1]]; an index out of range is an [IndexError]. *)
Definition pushed (toks : list token) (i : nat) : option bytes :=
  tok ← toks !! i; snd tok.

(** A reverse-swap script with the given operands. *)
Definition push (data : bytes) : bytes :=
  match Byte.of_N (N.of_nat (length data)) with
  | Some n => n :: data
  | None => []
  end.

Definition byte_of (op : Z) : Byte.byte :=
  match Byte.of_N (Z.to_N op) with Some b => b | None => Byte.x00 end.

Definition reverse_script (size hash claim_pubkey timeout refund_pubkey : bytes)
  : bytes :=
  [byte_of OP_SIZE] ++ push size ++
  [byte_of OP_EQUAL; byte_of OP_IF; byte_of OP_HASH160] ++ push hash ++
  [byte_of OP_EQUALVERIFY] ++ push claim_pubkey ++
  [byte_of OP_ELSE; byte_of OP_DROP] ++ push timeout ++
  [byte_of OP_CHECKLOCKTIMEVERIFY; byte_of OP_DROP] ++ push refund_pubkey ++
  [byte_of OP_ENDIF; byte_of OP_CHECKSIG].

(** Operands for examples: a 20-byte digest, two 33-byte keys, a
    three-byte height. *)
Definition digest20 : bytes := replicate 20 Byte.x11.
Definition key33 (b : Byte.byte) : bytes := Byte.x02 :: replicate 32 b.
Definition height3 : bytes := [Byte.xa0; Byte.x86; Byte.x01].

(** A script whose guarded branch demands a preimage of 33 bytes. *)
Definition script_size_33 : bytes :=
  reverse_script [Byte.x21] digest20 (key33 Byte.xaa) height3 (key33 Byte.xbb).

(** The script a conforming server sends: the length is 32. *)
Definition script_size_32 : bytes :=
  reverse_script [Byte.x20] digest20 (key33 Byte.xaa) height3 (key33 Byte.xbb).

End Script.

(** ** The swap manager ([electrum/submarine_swaps.py], class [SwapManager]) *)

#[global] Instance byte_eq_decision : EqDecision Byte.byte := Byte.byte_eq_dec.

Module Swaps.
Import Script.

(** A [SwapData] object is known by its location in the store. *)
Abbreviation loc := positive.

(** [TxOutpoint(txid, out_idx)]; the transaction id is kept in the
    hexadecimal form [txid.hex()] in which [funding_txid] records it. *)
Definition outpoint : Type := (string * Z)%type.

Record SwapData : Type := {
  is_reverse : bool;
  locktime : Z;
  onchain_amount : Z;
  lightning_amount : Z;
  redeem_script : bytes;
  preimage : bytes;
  prepay_hash : option bytes;
  privkey : bytes;
  lockup_address : string;
  receive_address : string;
  funding_txid : option string;
  spending_txid : option string;
  is_redeemed : bool;
  _funding_prevout : option outpoint
}.

Definition set_funding (s : SwapData) (txid : option string)
    (prevout : option outpoint) : SwapData :=
  {| is_reverse := is_reverse s; locktime := locktime s;
     onchain_amount := onchain_amount s; lightning_amount := lightning_amount s;
     redeem_script := redeem_script s; preimage := preimage s;
     prepay_hash := prepay_hash s; privkey := privkey s;
     lockup_address := lockup_address s; receive_address := receive_address s;
     funding_txid := txid; spending_txid := spending_txid s;
     is_redeemed := is_redeemed s; _funding_prevout := prevout |}.

Definition set_spending_txid (s : SwapData) (txid : option string) : SwapData :=
  {| is_reverse := is_reverse s; locktime := locktime s;
     onchain_amount := onchain_amount s; lightning_amount := lightning_amount s;
     redeem_script := redeem_script s; preimage := preimage s;
     prepay_hash := prepay_hash s; privkey := privkey s;
     lockup_address := lockup_address s; receive_address := receive_address s;
     funding_txid := funding_txid s; spending_txid := txid;
     is_redeemed := is_redeemed s; _funding_prevout := _funding_prevout s |}.

Definition set_is_redeemed (s : SwapData) (b : bool) : SwapData :=
  {| is_reverse := is_reverse s; locktime := locktime s;
     onchain_amount := onchain_amount s; lightning_amount := lightning_amount s;
     redeem_script := redeem_script s; preimage := preimage s;
     prepay_hash := prepay_hash s; privkey := privkey s;
     lockup_address := lockup_address s; receive_address := receive_address s;
     funding_txid := funding_txid s; spending_txid := spending_txid s;
     is_redeemed := b; _funding_prevout := _funding_prevout s |}.

(** An output at the lockup address, as [get_addr_outputs] reports it
    (a [PartialTxInput]). *)
Record TxInput : Type := {
  prevout : outpoint;
  value_sats : Z;
  spent_height : option Z;
  spent_txid : option string;
  block_height : Z
}.

(** The transaction built by [create_claim_tx] and signed by [sign_tx].
    The second witness item is the preimage, or [None] for the integer 0. *)
Record PartialTransaction : Type := {
  tx_inputs : list TxInput;
  tx_witness_script : bytes;
  tx_outputs : list (string * Z);
  tx_version : Z;
  tx_locktime : Z;
  tx_rbf : bool;
  tx_witness : option (bytes * option bytes * bytes)
}.

(** The funding transaction of a forward swap. *)
Record FundingTx : Type := {
  f_outputs : list (string * Z);
  f_rbf : bool;
  f_signed : bool
}.

(** Calls on the collaborators of the manager. *)
Inductive event : Type :=
| EvClaimTxSigned (tx : PartialTransaction)   (* create_claim_tx and sign_tx ran *)
| EvAddTransaction (tx : PartialTransaction)  (* wallet.adb.add_transaction *)
| EvBroadcastKnown (txid : option string)     (* broadcast of adb.get_transaction(txid) *)
| EvCreatePaymentInfo (amount_msat : Z)       (* lnworker.create_payment_info *)
| EvCreateSwapRequest                         (* POST /createswap *)
| EvBroadcastFunding (tx : FundingTx).        (* broadcast of the funding tx *)

(** The attributes of a [SwapManager] that the modelled methods touch:
    the store of swap objects, the three dictionaries, the callbacks
    registered with the watcher, and the calls made so far. *)
Record manager : Type := {
  heap : gmap loc SwapData;
  swaps : gmap string loc;
  _swaps_by_funding_outpoint : gmap outpoint loc;
  _swaps_by_lockup_address : gmap string loc;
  callbacks : gmap string loc;
  events : list event
}.

Definition empty_manager : manager :=
  {| heap := ∅; swaps := ∅; _swaps_by_funding_outpoint := ∅;
     _swaps_by_lockup_address := ∅; callbacks := ∅; events := [] |}.

Definition set_heap (m : manager) (h : gmap loc SwapData) : manager :=
  {| heap := h; swaps := swaps m;
     _swaps_by_funding_outpoint := _swaps_by_funding_outpoint m;
     _swaps_by_lockup_address := _swaps_by_lockup_address m;
     callbacks := callbacks m; events := events m |}.

Definition set_callbacks (m : manager) (c : gmap string loc) : manager :=
  {| heap := heap m; swaps := swaps m;
     _swaps_by_funding_outpoint := _swaps_by_funding_outpoint m;
     _swaps_by_lockup_address := _swaps_by_lockup_address m;
     callbacks := c; events := events m |}.

Definition emit (m : manager) (evs : list event) : manager :=
  {| heap := heap m; swaps := swaps m;
     _swaps_by_funding_outpoint := _swaps_by_funding_outpoint m;
     _swaps_by_lockup_address := _swaps_by_lockup_address m;
     callbacks := callbacks m; events := events m ++ evs |}.

(** The chain and the configuration as one call of [_claim_swap] sees them. *)
Record chain_view : Type := {
  up_to_date : bool;                       (* lnwatcher.adb.is_up_to_date() *)
  local_height : Z;                        (* network.get_local_height() *)
  addr_outputs : string -> list TxInput;   (* get_addr_outputs(addr).values() *)
  allow_instant_swaps : bool;
  claim_fee : Z;                           (* config.estimate_fee(136, ...) *)
  dust_threshold : Z
}.

(** How an iteration of the loop of [_claim_swap] ends. *)
Inductive flow : Type :=
| Continue
| Return
| Raised (e : exn).

(** What the surroundings supply during one call of [normal_swap]:
    the fresh key pair, the preimage of the invoice, the fields of the
    server's answer, the height, the wallet. *)
Record forward_env : Type := {
  new_privkey : bytes;
  new_pubkey : bytes;
  invoice_preimage : bytes;
  resp_onchain_amount : Z;                 (* data["expectedAmount"] *)
  resp_locktime : Z;                       (* data["timeoutBlockHeight"] *)
  resp_lockup_address : string;            (* data["address"] *)
  resp_redeem_script : bytes;              (* data["redeemScript"] *)
  height : Z;
  create_transaction : list (string * Z) -> result FundingTx;
  receiving_address : string
}.

Section Manager.

(** Functions and constants imported from modules that are not among
    the sources. *)
Variable sha256 : bytes -> bytes.
Variable hex : bytes -> string.
Variable hash_160 : bytes -> bytes.
Variable script_to_p2wsh : bytes -> string.
Variable sign_txin : PartialTransaction -> bytes -> bytes.
Variable txid_of : PartialTransaction -> string.
Variable funding_txid_of : FundingTx -> string.
Variable ln_dummy_address : string.
Variable REDEEM_AFTER_DOUBLE_SPENT_DELAY : Z.
Variable TX_HEIGHT_LOCAL : Z.

(** [SwapData.payment_hash]; the preimage of a swap is never assigned
    again, so the cached value is the computed one. *)
Definition payment_hash (s : SwapData) : bytes := sha256 (preimage s).

(** [_add_or_reindex_swap] *)
Definition _add_or_reindex_swap (m : manager) (l : loc) : manager :=
  match heap m !! l with
  | None => m
  | Some swap =>
    let key := hex (payment_hash swap) in
    {| heap := heap m;
       swaps := match swaps m !! key with
                | Some _ => swaps m
                | None => <[key := l]> (swaps m)
                end;
       _swaps_by_funding_outpoint :=
         match _funding_prevout swap with
         | Some op => <[op := l]> (_swaps_by_funding_outpoint m)
         | None => _swaps_by_funding_outpoint m
         end;
       _swaps_by_lockup_address :=
         <[lockup_address swap := l]> (_swaps_by_lockup_address m);
       callbacks := callbacks m;
       events := events m |}
  end.

(** [add_lnwatcher_callback] *)
Definition add_lnwatcher_callback (m : manager) (l : loc) : manager :=
  match heap m !! l with
  | None => m
  | Some swap => set_callbacks m (<[lockup_address swap := l]> (callbacks m))
  end.

(** [create_claim_tx] *)
Definition create_claim_tx (txin : TxInput) (witness_script : bytes)
    (address : string) (amount_sat : Z) (locktime : Z) : PartialTransaction :=
  {| tx_inputs := [txin]; tx_witness_script := witness_script;
     tx_outputs := [(address, amount_sat)]; tx_version := 2;
     tx_locktime := locktime; tx_rbf := true; tx_witness := None |}.

(** [sign_tx] *)
Definition sign_tx (tx : PartialTransaction) (swap : SwapData)
  : result PartialTransaction :=
  let preimage := if is_reverse swap then Some (preimage swap) else None in
  let witness_script := redeem_script swap in
  match tx_inputs tx with
  | [txin] =>
    if bool_decide (Some (fst (prevout txin)) = funding_txid swap) then
      let tx1 := {| tx_inputs := tx_inputs tx;
                    tx_witness_script := witness_script;
                    tx_outputs := tx_outputs tx; tx_version := tx_version tx;
                    tx_locktime := tx_locktime tx; tx_rbf := tx_rbf tx;
                    tx_witness := tx_witness tx |} in
      let sig := sign_txin tx1 (privkey swap) in
      Ok {| tx_inputs := tx_inputs tx; tx_witness_script := witness_script;
            tx_outputs := tx_outputs tx; tx_version := tx_version tx;
            tx_locktime := tx_locktime tx; tx_rbf := tx_rbf tx;
            tx_witness := Some (sig, preimage, witness_script) |}
    else Raise AssertionError
  | _ => Raise AssertionError
  end.

(** [_create_and_sign_claim_tx] *)
Definition _create_and_sign_claim_tx (env : chain_view) (txin : TxInput)
    (swap : SwapData) : result PartialTransaction :=
  let amount_sat := value_sats txin - claim_fee env in
  if amount_sat <? dust_threshold env then Raise BelowDustLimit
  else
    let locktime := if is_reverse swap then 0 else locktime swap in
    let tx := create_claim_tx txin (redeem_script swap) (receive_address swap)
                amount_sat locktime in
    sign_tx tx swap.

(** The body of the loop of [_claim_swap] for one output. *)
Definition claim_txin (env : chain_view) (l : loc) (m : manager)
    (txin : TxInput) : manager * flow :=
  match heap m !! l with
  | None => (m, Return)
  | Some swap =>
    if is_reverse swap && (value_sats txin <? onchain_amount swap)
    then (m, Continue)
    else
      let swap := set_funding swap (Some (fst (prevout txin)))
                    (Some (prevout txin)) in
      let m := _add_or_reindex_swap (set_heap m (<[l := swap]> (heap m))) l in
      match spent_height txin with
      | Some spent_height =>
        let swap := set_spending_txid swap (spent_txid txin) in
        let m := set_heap m (<[l := swap]> (heap m)) in
        if spent_height >? 0 then
          if local_height env - spent_height >? REDEEM_AFTER_DOUBLE_SPENT_DELAY
          then
            let m := set_callbacks m (delete (lockup_address swap) (callbacks m)) in
            (set_heap m (<[l := set_is_redeemed swap true]> (heap m)), Continue)
          else (m, Continue)
        else if spent_height =? TX_HEIGHT_LOCAL then
          if (block_height txin >? 0) || allow_instant_swaps env
          then (emit m [EvBroadcastKnown (spent_txid txin)], Continue)
          else (m, Continue)
        else (m, Continue)
      | None =>
        let delta := local_height env - locktime swap in
        if negb (is_reverse swap) && (delta <? 0) then (m, Return)
        else
          match _create_and_sign_claim_tx env txin swap with
          | Raise BelowDustLimit => (m, Continue)
          | Raise e => (m, Raised e)
          | Ok tx =>
            let m := emit m [EvClaimTxSigned tx; EvAddTransaction tx] in
            let swap := set_spending_txid swap (Some (txid_of tx)) in
            (set_heap m (<[l := swap]> (heap m)), Continue)
          end
      end
  end.

(** The loop [for txin in txos.values()]. *)
Fixpoint claim_loop (env : chain_view) (l : loc) (m : manager)
    (txos : list TxInput) : manager * flow :=
  match txos with
  | [] => (m, Continue)
  | txin :: rest =>
    match claim_txin env l m txin with
    | (m, Continue) => claim_loop env l m rest
    | stop => stop
    end
  end.

(** [_claim_swap]; the second component is the exception that left it,
    if any. *)
Definition _claim_swap (env : chain_view) (l : loc) (m : manager)
  : manager * option exn :=
  if negb (up_to_date env) then (m, None)
  else
    match heap m !! l with
    | None => (m, None)
    | Some swap =>
      let txos := addr_outputs env (lockup_address swap) in
      match claim_loop env l m txos with
      | (m, Raised e) => (m, Some e)
      | (m, _) => (m, None)
      end
    end.

(** The watcher calling [_claim_swap] once for each view of the chain. *)
Definition watch (l : loc) (m : manager) (views : list chain_view) : manager :=
  foldl (fun m env => fst (_claim_swap env l m)) m views.

(** The checks of [normal_swap] on the answer of the server, in order. *)
Definition normal_swap_checks (env : forward_env)
    (expected_onchain_amount_sat : Z) : result unit :=
  let redeem_script := resp_redeem_script env in
  parsed_script ← script_GetOp redeem_script;
  if negb (match_script_against_template redeem_script WITNESS_TEMPLATE_SWAP)
  then Raise (SwapCheckFailed "scriptcode does not match template")
  else if negb (bool_decide (script_to_p2wsh redeem_script = resp_lockup_address env))
  then Raise (SwapCheckFailed "inconsistent scriptcode and address")
  else if negb (bool_decide (Some (hash_160 (invoice_preimage env))
                             = pushed parsed_script 1))
  then Raise (SwapCheckFailed "our preimage not in script")
  else if negb (bool_decide (Some (new_pubkey env) = pushed parsed_script 9))
  then Raise (SwapCheckFailed "our pubkey not in script")
  else
    match pushed parsed_script 6 with
    | None => Raise TypeError
    | Some lt =>
      if negb (resp_locktime env =? int_from_bytes_little lt)
      then Raise (SwapCheckFailed "inconsistent locktime and script")
      else if resp_onchain_amount env >? expected_onchain_amount_sat
      then Raise (SwapCheckFailed "onchain_amount is more than what we estimated")
      else if resp_locktime env - height env >=? 144
      then Raise (SwapCheckFailed "locktime too far in future")
      else Ok tt
    end.

(** [list.remove]: the first equal element goes; none is a [ValueError]. *)
Fixpoint list_remove (x : string * Z) (l : list (string * Z))
  : result (list (string * Z)) :=
  match l with
  | [] => Raise ValueError
  | y :: rest =>
    if bool_decide (x = y) then Ok rest
    else rest' ← list_remove x rest; Ok (y :: rest')
  end.

(** The funding transaction of [normal_swap]: made by the wallet, or
    the given one with the dummy output replaced. *)
Definition make_funding_tx (env : forward_env) (expected_onchain_amount_sat : Z)
    (tx : option FundingTx) : result FundingTx :=
  let funding_output :=
    (resp_lockup_address env, resp_onchain_amount env) in
  match tx with
  | None => create_transaction env [funding_output]
  | Some tx =>
    let dummy_output := (ln_dummy_address, expected_onchain_amount_sat) in
    outs ← list_remove dummy_output (f_outputs tx);
    Ok {| f_outputs := outs ++ [funding_output]; f_rbf := true;
          f_signed := true |}
  end.

(** [normal_swap]: the state afterwards and the returned transaction
    id, or the exception raised. *)
Definition normal_swap (env : forward_env) (lightning_amount_sat : Z)
    (expected_onchain_amount_sat : Z) (tx : option FundingTx) (m : manager)
  : manager * result string :=
  let amount_msat := lightning_amount_sat * 1000 in
  let m := emit m [EvCreatePaymentInfo amount_msat; EvCreateSwapRequest] in
  match normal_swap_checks env expected_onchain_amount_sat with
  | Raise e => (m, Raise e)
  | Ok _ =>
    match make_funding_tx env expected_onchain_amount_sat tx with
    | Raise e => (m, Raise e)
    | Ok tx =>
      let swap := {|
        is_reverse := false;
        locktime := resp_locktime env;
        onchain_amount := expected_onchain_amount_sat;
        lightning_amount := lightning_amount_sat;
        redeem_script := resp_redeem_script env;
        preimage := invoice_preimage env;
        prepay_hash := None;
        privkey := new_privkey env;
        lockup_address := resp_lockup_address env;
        receive_address := receiving_address env;
        funding_txid := None;
        spending_txid := None;
        is_redeemed := false;
        _funding_prevout := None |} in
      let l := fresh (dom (heap m)) in
      let m := set_heap m (<[l := swap]> (heap m)) in
      let m := _add_or_reindex_swap m l in
      let m := add_lnwatcher_callback m l in
      let m := emit m [EvBroadcastFunding tx] in
      (m, Ok (funding_txid_of tx))
    end
  end.

(** The checks of [reverse_swap] on the redeem script of the answer. *)
Definition reverse_swap_script_checks (redeem_script : bytes)
    (lockup_address : string) (preimage pubkey : bytes) (locktime : Z)
  : result unit :=
  parsed_script ← script_GetOp redeem_script;
  if negb (match_script_against_template redeem_script
             WITNESS_TEMPLATE_REVERSE_SWAP)
  then Raise (SwapCheckFailed "scriptcode does not match template")
  else if negb (bool_decide (script_to_p2wsh redeem_script = lockup_address))
  then Raise (SwapCheckFailed "inconsistent scriptcode and address")
  else if negb (bool_decide (Some (hash_160 preimage) = pushed parsed_script 5))
  then Raise (SwapCheckFailed "our preimage not in script")
  else if negb (bool_decide (Some pubkey = pushed parsed_script 7))
  then Raise (SwapCheckFailed "our pubkey not in script")
  else
    match pushed parsed_script 10 with
    | None => Raise TypeError
    | Some lt =>
      if negb (locktime =? int_from_bytes_little lt)
      then Raise (SwapCheckFailed "inconsistent locktime and script")
      else Ok tt
    end.

End Manager.

(** The part of a state that setting up a swap would change: the
    store, the dictionaries and the registered callbacks. *)
Definition same_records (m m' : manager) : Prop :=
  heap m' = heap m /\ swaps m' = swaps m /\
  _swaps_by_funding_outpoint m' = _swaps_by_funding_outpoint m /\
  _swaps_by_lockup_address m' = _swaps_by_lockup_address m /\
  callbacks m' = callbacks m.

Definition is_broadcast (ev : event) : bool :=
  match ev with
  | EvBroadcastKnown _ | EvBroadcastFunding _ => true
  | _ => false
  end.

(** The transaction an event builds or stores, if it does. *)
Definition claim_of (ev : event) : option PartialTransaction :=
  match ev with
  | EvClaimTxSigned tx | EvAddTransaction tx => Some tx
  | _ => None
  end.

(** What the watcher never changes in a record: the direction, the
    agreed on-chain amount, the timeout and the destination. *)
Definition same_terms (swap swap' : SwapData) : Prop :=
  is_reverse swap' = is_reverse swap /\
  onchain_amount swap' = onchain_amount swap /\
  locktime swap' = locktime swap /\
  receive_address swap' = receive_address swap.

(** An event that builds or stores a claim does so from outputs of at
    least the given amount. *)
Definition well_funded (amount : Z) (ev : event) : Prop :=
  forall tx, claim_of ev = Some tx ->
             Forall (fun txin => amount <= value_sats txin) (tx_inputs tx).

End Swaps.

(** ** Concrete instances used in examples *)

Module Examples.
Import Script Swaps.

Local Open Scope string_scope.

(** Stand-ins for the imported functions: identifiers are their own
    bytes, the "hash" marks its argument with a leading [#]. *)
Definition toy_Hash (b : bytes) : bytes := Byte.x23 :: b.
Definition toy_decode (s : string) : bytes := String.list_byte_of_string s.
Definition toy_encode (b : bytes) : string := String.string_of_list_byte b.
Definition looks_like_tx (s : string) : bool := String.eqb s "#ab".
Definition never_tx (s : string) : bool := false.

(** A proof whose first inner node reads as a transaction. *)
Definition forged : SPV.response :=
  {| SPV.error := false; SPV.tx_hash := "a"; SPV.merkle := ["b"; "c"];
     SPV.block_height := 7; SPV.pos := 0 |}.

(** A header store whose root at height 7 is the completed fold of [forged]. *)
Definition matching_headers : SPV.verify_env :=
  {| SPV.verifier_alive := true;
     SPV.read_header := fun h =>
       if (h =? 7)%Z then Some {| SPV.merkle_root := "##abc"; SPV.timestamp := 0 |}
       else None;
     SPV.wallet_up_to_date := true |}.

Definition busy : SPV.state :=
  {| SPV.blockchain := 0; SPV.merkle_roots := ∅;
     SPV.requested_merkle := {["a"]}; SPV.effects := [] |}.

Definition one_unverified : SPV.run_env :=
  {| SPV.is_connected := true; SPV.network_blockchain := Some 0;
     SPV.local_height := 10; SPV.unverified := [("a", 7)];
     SPV.chain_header := fun _ =>
       Some {| SPV.merkle_root := "##abc"; SPV.timestamp := 0 |};
     SPV.is_before_last_checkpoint := fun _ => false;
     SPV.undone := [] |}.

(** Stand-ins for the functions the swap manager imports. *)
Definition toy_sha256 (b : bytes) : bytes := Byte.x23 :: b.
Definition toy_hash_160 (b : bytes) : bytes := digest20.
Definition toy_p2wsh (script : bytes) : string := "addr".
Definition toy_sign (tx : PartialTransaction) (key : bytes) : bytes := key.
Definition toy_txid (tx : PartialTransaction) : string := "claim".
Definition toy_funding_txid (tx : FundingTx) : string := "funding".

(** A reverse swap for 50000 sat, as [reverse_swap] stores it. *)
Definition rswap : SwapData :=
  {| is_reverse := true; locktime := 100000; onchain_amount := 50000;
     lightning_amount := 51000; redeem_script := script_size_32;
     preimage := replicate 32 Byte.x01; prepay_hash := None;
     privkey := replicate 32 Byte.x07; lockup_address := "addr";
     receive_address := "mine"; funding_txid := None; spending_txid := None;
     is_redeemed := false; _funding_prevout := None |}.

(** The same record reloaded from storage after its funding was seen:
    [funding_txid] is stored, [_funding_prevout] is not. *)
Definition rswap_reloaded : SwapData := set_funding rswap (Some "f00d") None.

Definition holding (s : SwapData) : manager :=
  set_heap empty_manager {[1%positive := s]}.

Definition utxo (value : Z) : TxInput :=
  {| prevout := ("f00d", 0); value_sats := value; spent_height := None;
     spent_txid := None; block_height := 90000 |}.

Definition view (outs : list TxInput) : chain_view :=
  {| up_to_date := true; local_height := 90001;
     addr_outputs := fun _ => outs; allow_instant_swaps := false;
     claim_fee := 136; dust_threshold := 546 |}.

(** A forward-swap script for the toy functions. *)
Definition forward_script : bytes :=
  [byte_of OP_HASH160] ++ push digest20 ++
  [byte_of OP_EQUAL; byte_of OP_IF] ++ push (key33 Byte.xbb) ++
  [byte_of OP_ELSE] ++ push height3 ++
  [byte_of OP_CHECKLOCKTIMEVERIFY; byte_of OP_DROP] ++ push (key33 Byte.xaa) ++
  [byte_of OP_ENDIF; byte_of OP_CHECKSIG].

(** A quote asking for [amount] with the script above, whose timeout
    is block 100000, seen at the given height. *)
Definition quote (amount : Z) (current_height : Z) : forward_env :=
  {| new_privkey := replicate 32 Byte.x07; new_pubkey := key33 Byte.xaa;
     invoice_preimage := replicate 32 Byte.x01;
     resp_onchain_amount := amount; resp_locktime := 100000;
     resp_lockup_address := "addr"; resp_redeem_script := forward_script;
     height := current_height;
     create_transaction := fun outs =>
       Ok {| f_outputs := outs; f_rbf := true; f_signed := true |};
     receiving_address := "mine" |}.

(** The reverse swap once the watcher has seen its funding output. *)
Definition rswap_funded : SwapData :=
  set_funding rswap (Some "f00d") (Some ("f00d", 0%Z)).

(** The index after the record was added while unfunded, then, with
    only [funding_txid] assigned, added again. *)
Definition reindexed_by_txid_only : manager :=
  let m1 := _add_or_reindex_swap toy_sha256 toy_encode (holding rswap) 1 in
  let m2 := set_heap m1 (<[1%positive := rswap_reloaded]> (heap m1)) in
  _add_or_reindex_swap toy_sha256 toy_encode m2 1.

End Examples.

(** ** More of the fee calculator: [max_amount_forward_swap] *)

Module FeeCalcExt.
Import FeeCalc.

(** [x or 0] for an optional integer: [None] and 0 both give 0. *)
Definition or_zero (x : option Z) : Z :=
  match x with
  | Some v => v
  | None => 0
  end.

(** [max_amount_forward_swap]; [num_sats_can_receive] stands for
    [int(self.lnworker.num_sats_can_receive())].  The result is [None]
    when no forward swap is possible. *)
Definition max_amount_forward_swap (c : config) (num_sats_can_receive : Z)
  : result (option Z) :=
  let max_swap_amt_ln := max_amount c in
  let max_recv_amt_ln := num_sats_can_receive in
  let max_amt_ln := Z.min max_swap_amt_ln max_recv_amt_ln in
  a ← get_send_amount c (Some max_amt_ln) false;
  let max_amt_oc := or_zero a in
  b ← get_send_amount c (Some (min_amount c)) false;
  let min_amt_oc := or_zero b in
  Ok (if max_amt_oc >=? min_amt_oc then Some max_amt_oc else None).

(** A schedule with small limits: one percent, no fixed fees. *)
Definition small : config := {|
  percentage := 1;
  normal_fee := 0;
  lockup_fee := 0;
  min_amount := 1;
  max_amount := 100000;
  claim_fee := 0;
  dust := 546
|}.

End FeeCalcExt.

(** ** More of the swap manager: look-ups and the reverse swap *)

#[global] Instance byte_countable : Countable Byte.byte :=
  inj_countable Byte.to_N Byte.of_N Byte.of_to_N.

Module SwapsExt.
Import Script Swaps.

(** What [get_swap_by_funding_tx] returns: [False] for a transaction
    that does not have exactly one output, else the result of the
    dictionary look-up. *)
Inductive funding_lookup : Type :=
| ReturnsFalse
| Returns (swap : option SwapData).

(** The object a dictionary of the manager holds under a key. *)
Definition deref {K} `{Countable K} (m : manager) (d : gmap K loc) (k : K)
  : option SwapData :=
  l ← d !! k; heap m !! l.

(** A decoded invoice as [reverse_swap] reads it: [get_amount_sat()],
    which may be [None] or a fraction of a satoshi, and [paymenthash]. *)
Record lnaddr : Type := {
  amount_sat : option Q;
  paymenthash : bytes
}.

(** [int(x)] for a [Decimal]: the fraction is dropped towards zero. *)
Definition int_of_decimal (x : Q) : Z :=
  if Qle_bool 0 x then Qfloor x else Qceiling x.

(** What the surroundings supply during one call of [reverse_swap]:
    the fresh key pair and preimage, the fields of the server's
    answer, the outcome of [lnworker._check_invoice] on the two
    invoices, the height and the wallet's address. *)
Record reverse_env : Type := {
  rv_privkey : bytes;
  rv_pubkey : bytes;
  rv_preimage : bytes;
  rv_invoice : result lnaddr;
  rv_fee_invoice : option (result lnaddr);   (* data.get('minerFeeInvoice') *)
  rv_lockup_address : string;
  rv_redeem_script : bytes;
  rv_locktime : Z;
  rv_onchain_amount : Z;
  rv_height : Z;
  rv_receiving_address : string
}.

(** Payments handed to [lnworker.pay_invoice]. *)
Inductive payment : Type :=
| PayFeeInvoice
| PayInvoice.

(** The manager with the attributes [reverse_swap] and [get_swap] use
    besides: [prepayments] and the payments started. *)
Record rstate : Type := {
  mgr : manager;
  prepayments : gmap bytes bytes;
  payments : list payment
}.

Section Ext.
Variable sha256 : bytes -> bytes.
Variable hex : bytes -> string.
Variable hash_160 : bytes -> bytes.
Variable script_to_p2wsh : bytes -> string.
Variable funding_txid_of : FundingTx -> string.

(** [get_swap]: by payment hash, else by the hash of a prepayment.  An
    empty byte string found in [prepayments] counts as absent. *)
Definition get_swap (st : rstate) (payment_hash : bytes) : option SwapData :=
  match deref (mgr st) (swaps (mgr st)) (hex payment_hash) with
  | Some swap => Some swap
  | None =>
    match prepayments st !! payment_hash with
    | Some payment_hash =>
      if bool_decide (payment_hash = []) then None
      else deref (mgr st) (swaps (mgr st)) (hex payment_hash)
    | None => None
    end
  end.

(** [get_swap_by_claim_txin] *)
Definition get_swap_by_claim_txin (m : manager) (txin : TxInput)
  : option SwapData :=
  deref m (_swaps_by_funding_outpoint m) (prevout txin).

(** [get_swap_by_claim_tx]; [None] stands for the [IndexError] of
    [tx.inputs()[0]] on a transaction without inputs. *)
Definition get_swap_by_claim_tx (m : manager) (tx : PartialTransaction)
  : option (option SwapData) :=
  match tx_inputs tx with
  | txin :: _ => Some (get_swap_by_claim_txin m txin)
  | [] => None
  end.

(** [get_swap_by_funding_tx] *)
Definition get_swap_by_funding_tx (m : manager) (tx : FundingTx)
  : funding_lookup :=
  if negb (length (f_outputs tx) =? 1)%nat then ReturnsFalse
  else
    let prevout := (funding_txid_of tx, 0) in
    Returns (deref m (_swaps_by_funding_outpoint m) prevout).

(** [is_lockup_address_for_a_swap] *)
Definition is_lockup_address_for_a_swap (m : manager) (addr : string) : bool :=
  match deref m (_swaps_by_lockup_address m) addr with
  | Some _ => true
  | None => false
  end.

(** The amount of a decoded invoice, where [None] cannot be used in
    arithmetic. *)
Definition amount_of (a : lnaddr) : result Q :=
  match amount_sat a with
  | Some q => Ok q
  | None => Raise TypeError
  end.

(** The checks of [reverse_swap] on the answer of the server, in
    order; the result is the hash of the prepayment, if there is one. *)
Definition reverse_swap_checks (env : reverse_env)
    (lightning_amount_sat expected_onchain_amount_sat : Z)
  : result (option bytes) :=
  let preimage_hash := sha256 (rv_preimage env) in
  _ ← reverse_swap_script_checks hash_160 script_to_p2wsh
        (rv_redeem_script env) (rv_lockup_address env) (rv_preimage env)
        (rv_pubkey env) (rv_locktime env);
  if rv_onchain_amount env <? expected_onchain_amount_sat
  then Raise (SwapCheckFailed "onchain_amount is less than what we expected")
  else if rv_locktime env - rv_height env <=? 60
  then Raise (SwapCheckFailed "locktime too close")
  else
    lnaddr ← rv_invoice env;
    amt ← amount_of lnaddr;
    let invoice_amount := inject_Z (int_of_decimal amt) in
    if negb (bool_decide (paymenthash lnaddr = preimage_hash))
    then Raise (SwapCheckFailed "inconsistent RHASH and invoice")
    else
      '(invoice_amount, prepay_hash) ←
        match rv_fee_invoice env with
        | Some fee =>
          fee_lnaddr ← fee;
          fee_amt ← amount_of fee_lnaddr;
          Ok (Qplus invoice_amount fee_amt, Some (paymenthash fee_lnaddr))
        | None => Ok (invoice_amount, None)
        end;
      if negb (int_of_decimal invoice_amount =? lightning_amount_sat)
      then Raise (SwapCheckFailed "invoice_amount not what we requested")
      else Ok prepay_hash.

(** [reverse_swap] up to the point where it waits for the payment and
    the funding: the state in which it starts waiting, with the new
    record, or the exception raised. *)
Definition reverse_swap_setup (env : reverse_env)
    (lightning_amount_sat expected_onchain_amount_sat : Z) (st : rstate)
  : rstate * result loc :=
  let preimage_hash := sha256 (rv_preimage env) in
  let m := emit (mgr st) [EvCreateSwapRequest] in
  let st := {| mgr := m; prepayments := prepayments st;
               payments := payments st |} in
  match reverse_swap_checks env lightning_amount_sat
          expected_onchain_amount_sat with
  | Raise e => (st, Raise e)
  | Ok prepay_hash =>
    let swap := {|
      is_reverse := true;
      locktime := rv_locktime env;
      onchain_amount := rv_onchain_amount env;
      lightning_amount := lightning_amount_sat;
      redeem_script := rv_redeem_script env;
      preimage := rv_preimage env;
      prepay_hash := prepay_hash;
      privkey := rv_privkey env;
      lockup_address := rv_lockup_address env;
      receive_address := rv_receiving_address env;
      funding_txid := None;
      spending_txid := None;
      is_redeemed := false;
      _funding_prevout := None |} in
    let l := fresh (dom (heap m)) in
    let m := set_heap m (<[l := swap]> (heap m)) in
    let m := _add_or_reindex_swap sha256 hex m l in
    let m := add_lnwatcher_callback m l in
    match prepay_hash with
    | Some h =>
      ({| mgr := m; prepayments := <[h := preimage_hash]> (prepayments st);
          payments := payments st ++ [PayFeeInvoice; PayInvoice] |}, Ok l)
    | None =>
      ({| mgr := m; prepayments := prepayments st;
          payments := payments st ++ [PayInvoice] |}, Ok l)
    end
  end.

(** What [reverse_swap] returns once its wait is over, read in the
    state of that moment: whether the record has a spending
    transaction. *)
Definition reverse_swap_success (m : manager) (l : loc) : bool :=
  match heap m !! l with
  | Some swap => bool_decide (spending_txid swap <> None)
  | None => false
  end.

End Ext.

(** The fields of a record that neither the watcher nor the index
    assigns: everything but the funding and spending transactions and
    the redemption flag. *)
Definition same_swap (a b : SwapData) : Prop :=
  is_reverse b = is_reverse a /\
  locktime b = locktime a /\
  onchain_amount b = onchain_amount a /\
  lightning_amount b = lightning_amount a /\
  redeem_script b = redeem_script a /\
  preimage b = preimage a /\
  prepay_hash b = prepay_hash a /\
  privkey b = privkey a /\
  lockup_address b = lockup_address a /\
  receive_address b = receive_address a.

(** The dictionaries agree with the store: every entry leads to a
    record, the primary key of a record is the hexadecimal hash of its
    preimage, and a record is filed under its own lockup address. *)
Record indexed (sha256 : bytes -> bytes) (hex : bytes -> string)
    (m : manager) : Prop := {
  indexed_swaps :
    forall k l, swaps m !! k = Some l ->
      exists s, heap m !! l = Some s /\ k = hex (sha256 (preimage s));
  indexed_funding :
    forall op l, _swaps_by_funding_outpoint m !! op = Some l ->
      is_Some (heap m !! l);
  indexed_lockup :
    forall a l, _swaps_by_lockup_address m !! a = Some l ->
      exists s, heap m !! l = Some s /\ a = lockup_address s;
  indexed_callbacks :
    forall a l, callbacks m !! a = Some l ->
      exists s, heap m !! l = Some s /\ a = lockup_address s
}.

(** The flags and links of a record only ever get set. *)
Definition settled (a b : SwapData) : Prop :=
  (is_redeemed a = true -> is_redeemed b = true) /\
  (is_Some (funding_txid a) -> is_Some (funding_txid b)) /\
  (is_Some (_funding_prevout a) -> is_Some (_funding_prevout b)).

(** Nothing is forgotten from [m] to [m']: every record is still
    there with the same terms and with what was set still set, every
    primary entry still leads to the same record, and every key of a
    secondary index is still a key. *)
Definition grows (m m' : manager) : Prop :=
  (forall l s, heap m !! l = Some s ->
     exists s', heap m' !! l = Some s' /\ same_swap s s' /\ settled s s') /\
  (forall k l, swaps m !! k = Some l -> swaps m' !! k = Some l) /\
  (forall op l, _swaps_by_funding_outpoint m !! op = Some l ->
     is_Some (_swaps_by_funding_outpoint m' !! op)) /\
  (forall a l, _swaps_by_lockup_address m !! a = Some l ->
     is_Some (_swaps_by_lockup_address m' !! a)).

(** How the record at [l] and the dictionaries stand after one
    iteration of the watcher's loop that did not skip the output. *)
Definition stepped (sha256 : bytes -> bytes) (hex : bytes -> string)
    (l : loc) (cur : SwapData) (txin : TxInput) (m m' : manager) : Prop :=
  exists s',
    same_swap cur s' /\ settled cur s' /\
    funding_txid s' = Some (fst (prevout txin)) /\
    _funding_prevout s' = Some (prevout txin) /\
    heap m' = <[l := s']> (heap m) /\
    swaps m' = match swaps m !! hex (payment_hash sha256 cur) with
               | Some _ => swaps m
               | None => <[hex (payment_hash sha256 cur) := l]> (swaps m)
               end /\
    _swaps_by_funding_outpoint m'
    = <[prevout txin := l]> (_swaps_by_funding_outpoint m) /\
    _swaps_by_lockup_address m'
    = <[lockup_address cur := l]> (_swaps_by_lockup_address m) /\
    (callbacks m' = callbacks m \/
     callbacks m' = delete (lockup_address cur) (callbacks m)).

(** The state after a new record without funding was stored at a
    fresh location, indexed, and given a callback. *)
Definition filed (sha256 : bytes -> bytes) (hex : bytes -> string)
    (swap : SwapData) (m m' : manager) : Prop :=
  let l := fresh (dom (heap m)) in
  heap m !! l = None /\
  heap m' = <[l := swap]> (heap m) /\
  swaps m' = match swaps m !! hex (payment_hash sha256 swap) with
             | Some _ => swaps m
             | None => <[hex (payment_hash sha256 swap) := l]> (swaps m)
             end /\
  _swaps_by_funding_outpoint m' = _swaps_by_funding_outpoint m /\
  _swaps_by_lockup_address m'
  = <[lockup_address swap := l]> (_swaps_by_lockup_address m) /\
  callbacks m' = <[lockup_address swap := l]> (callbacks m).

(** The record [reverse_swap] stores for an accepted answer. *)
Definition reverse_record (env : reverse_env) (lightning_amount_sat : Z)
    (prepay : option bytes) : SwapData :=
  {| is_reverse := true;
     locktime := rv_locktime env;
     onchain_amount := rv_onchain_amount env;
     lightning_amount := lightning_amount_sat;
     redeem_script := rv_redeem_script env;
     preimage := rv_preimage env;
     prepay_hash := prepay;
     privkey := rv_privkey env;
     lockup_address := rv_lockup_address env;
     receive_address := rv_receiving_address env;
     funding_txid := None;
     spending_txid := None;
     is_redeemed := false;
     _funding_prevout := None |}.

(** The record [normal_swap] stores for an accepted answer. *)
Definition forward_record (env : forward_env)
    (lightning_amount_sat expected_onchain_amount_sat : Z) : SwapData :=
  {| is_reverse := false;
     locktime := resp_locktime env;
     onchain_amount := expected_onchain_amount_sat;
     lightning_amount := lightning_amount_sat;
     redeem_script := resp_redeem_script env;
     preimage := invoice_preimage env;
     prepay_hash := None;
     privkey := new_privkey env;
     lockup_address := resp_lockup_address env;
     receive_address := receiving_address env;
     funding_txid := None;
     spending_txid := None;
     is_redeemed := false;
     _funding_prevout := None |}.

(** The whole amount the invoices of an answer ask for, as
    [reverse_swap] adds it up: the integer part of the main invoice,
    plus the miner-fee invoice if there is one, as an integer. *)
Definition invoiced (env : reverse_env) : option Z :=
  match rv_invoice env with
  | Ok inv =>
    match amount_sat inv, rv_fee_invoice env with
    | Some amt, None => Some (int_of_decimal amt)
    | Some amt, Some (Ok finv) =>
      match amount_sat finv with
      | Some famt =>
        Some (int_of_decimal (inject_Z (int_of_decimal amt) + famt))
      | None => None
      end
    | _, _ => None
    end
  | Raise _ => None
  end.

(** A claim or refund transaction for [swap] with fee estimate [fee]:
    one input, one output to the swap's receive address worth the
    input less the fee, replaceable, version 2; a claim of a reverse
    swap has no locktime, spends an output of at least the agreed
    amount and reveals the preimage; a refund of a forward swap is
    locked until the swap's timeout and carries no preimage. *)
Definition claim_shape (swap : SwapData) (fee : Z) (tx : PartialTransaction)
  : Prop :=
  exists txin sig,
    tx_inputs tx = [txin] /\
    tx_outputs tx = [(receive_address swap, value_sats txin - fee)] /\
    tx_version tx = 2 /\ tx_rbf tx = true /\
    tx_witness_script tx = redeem_script swap /\
    (if is_reverse swap
     then tx_locktime tx = 0 /\
          onchain_amount swap <= value_sats txin /\
          tx_witness tx = Some (sig, Some (preimage swap), redeem_script swap)
     else tx_locktime tx = locktime swap /\
          tx_witness tx = Some (sig, None, redeem_script swap)).

End SwapsExt.

(** ** The swap dialog: from the slider to the request *)

Module SwapHelper.
Import FeeCalc Swaps SwapsExt.

(** Python's truth value of an optional integer: [None] and 0 are false. *)
Definition truthy (x : option Z) : bool :=
  match x with
  | Some v => negb (v =? 0)
  | None => false
  end.

(** [check_valid] *)
Definition check_valid (send_amount receive_amount : option Z) : bool :=
  truthy send_amount && truthy receive_amount.

(** What [swap_slider_moved] stores and shows: the direction, the
    amount to send and the amount to receive.  For a forward swap
    [valid] is left to [fwd_swap_updatetx]; it is [false] here. *)
Record shown : Type := {
  isReverse : bool;
  _send_amount : Z;
  _receive_amount : option Z;
  valid : bool
}.

(** [swap_slider_moved] with the service available, at an integer
    position of the slider. *)
Definition swap_slider_moved (c : config) (position : Z) : result shown :=
  if position <? 0 then
    let send_amount := Z.abs position in
    receive_amount ← get_recv_amount c (Some send_amount) true;
    Ok {| isReverse := true; _send_amount := send_amount;
          _receive_amount := receive_amount;
          valid := check_valid (Some send_amount) receive_amount |}
  else
    receive_amount ← get_recv_amount c (Some position) false;
    Ok {| isReverse := false; _send_amount := position;
          _receive_amount := receive_amount; valid := false |}.

Section Helper.
Variable sha256 : bytes -> bytes.
Variable hex : bytes -> string.
Variable hash_160 : bytes -> bytes.
Variable script_to_p2wsh : bytes -> string.

(** [do_reverse_swap] up to the point where [reverse_swap] waits:
    [None] when it returns at once because an amount is missing. *)
Definition do_reverse_swap (c : config) (env : reverse_env)
    (lightning_amount onchain_amount : option Z) (st : rstate)
  : option (rstate * result loc) :=
  match lightning_amount, onchain_amount with
  | Some lightning_amount, Some onchain_amount =>
    Some (reverse_swap_setup sha256 hex hash_160 script_to_p2wsh env
            lightning_amount (onchain_amount + FeeCalc.claim_fee c) st)
  | _, _ => None
  end.

(** [_do_execute_swap] for a reverse swap. *)
Definition execute_reverse_swap (c : config) (env : reverse_env)
    (s : shown) (st : rstate) : option (rstate * result loc) :=
  let lightning_amount := Some (_send_amount s) in
  let onchain_amount := _receive_amount s in
  do_reverse_swap c env lightning_amount onchain_amount st.

End Helper.

End SwapHelper.

(** ** More concrete instances *)

Module MoreExamples.
Import Script Swaps SwapsExt Examples.

Local Open Scope string_scope.

(** The answer of a server to a request for a reverse swap of 51000
    sat, offering [amount] on chain until block 100000, seen at the
    given height, with or without an invoice for the miner fee. *)
Definition offer (amount : Z) (current_height : Z) (with_fee_invoice : bool)
  : reverse_env :=
  {| rv_privkey := replicate 32 Byte.x07;
     rv_pubkey := key33 Byte.xaa;
     rv_preimage := replicate 32 Byte.x01;
     rv_invoice :=
       Ok {| amount_sat := Some (if with_fee_invoice then 50900 else 51000)%Q;
             paymenthash := toy_sha256 (replicate 32 Byte.x01) |};
     rv_fee_invoice :=
       if with_fee_invoice
       then Some (Ok {| amount_sat := Some 100%Q;
                        paymenthash := replicate 32 Byte.x0f |})
       else None;
     rv_lockup_address := "addr";
     rv_redeem_script := script_size_32;
     rv_locktime := 100000;
     rv_onchain_amount := amount;
     rv_height := current_height;
     rv_receiving_address := "mine" |}.

(** Output 0 of the transaction [toy_funding_txid] names, unspent. *)
Definition funded (value : Z) : TxInput :=
  {| prevout := ("funding", 0); value_sats := value; spent_height := None;
     spent_txid := None; block_height := 90000 |}.

(** A manager that has no swaps, no prepayments, and has paid nothing. *)
Definition idle : rstate :=
  {| mgr := empty_manager; prepayments := ∅; payments := [] |}.

(** A view of the chain at the given height with the given outputs
    on every address. *)
Definition view_at (h : Z) (outs : list TxInput) : chain_view :=
  {| up_to_date := true; local_height := h;
     addr_outputs := fun _ => outs; allow_instant_swaps := false;
     claim_fee := 136; dust_threshold := 546 |}.

(** A forward swap for 50000 sat timing out at block 100000. *)
Definition fswap : SwapData :=
  {| is_reverse := false; locktime := 100000; onchain_amount := 50000;
     lightning_amount := 49000; redeem_script := forward_script;
     preimage := replicate 32 Byte.x01; prepay_hash := None;
     privkey := replicate 32 Byte.x07; lockup_address := "addr";
     receive_address := "mine"; funding_txid := None; spending_txid := None;
     is_redeemed := false; _funding_prevout := None |}.

(** The network on chain 1, where the wallet reports ["a"] as
    undone, seen by a verifier that was on chain 0. *)
Definition reorganised : SPV.run_env :=
  {| SPV.is_connected := true; SPV.network_blockchain := Some 1;
     SPV.local_height := 10; SPV.unverified := [("a", 7)];
     SPV.chain_header := fun _ =>
       Some {| SPV.merkle_root := "##abc"; SPV.timestamp := 0 |};
     SPV.is_before_last_checkpoint := fun _ => false;
     SPV.undone := ["a"] |}.

(** The stored dictionary with the one swap [rswap]. *)
Definition stored_items : list (string * loc) :=
  [(toy_encode (toy_sha256 (preimage rswap)), 1%positive)].

Definition stored_objects : gmap loc SwapData := {[1%positive := rswap]}.

(** What the dialog holds with the slider at -51000 under [sample]. *)
Definition moved : SwapHelper.shown :=
  {| SwapHelper.isReverse := true; SwapHelper._send_amount := 51000;
     SwapHelper._receive_amount := Some 48609; SwapHelper.valid := true |}.

(** The manager after it accepted [offer 50000 99900 false] for the
    amounts of [moved]. *)
Definition accepted : rstate :=
  fst (reverse_swap_setup toy_sha256 toy_encode toy_hash_160 toy_p2wsh
         (offer 50000 99900 false) 51000 (48609 + 136) idle).

End MoreExamples.

(** ** Reading the verifier's requests *)

Module SPVExt.
Import SPV.

(** The transaction and height a call of
    [network.get_merkle_for_transaction] asks a proof for. *)
Definition request_of (ev : effect) : option (string * Z) :=
  match ev with
  | GetMerkleForTransaction tx_hash tx_height => Some (tx_hash, tx_height)
  | _ => None
  end.

(** The transactions asked for by a sequence of calls. *)
Definition requests (evs : list effect) : list string :=
  omap (fun ev => fst <$> request_of ev) evs.

(** A transaction [run] may ask a proof for: its height is positive,
    not above the local height, and the header of that height is at
    hand. *)
Definition eligible (env : run_env) (tx_height : Z) : Prop :=
  0 < tx_height <= local_height env /\ is_Some (chain_header env tx_height).

(** A transaction whose proof is pending or verified. *)
Definition known (st : state) (tx : string) : Prop :=
  tx ∈ requested_merkle st \/ is_Some (merkle_roots st !! tx).

End SPVExt.

(** ** Loading the stored swaps ([SwapManager.__init__], [start_network]) *)

Module Startup.
Import Swaps SwapsExt.

Section Load.
Variable sha256 : bytes -> bytes.
Variable hex : bytes -> string.

(** [bytes.fromhex] *)
Variable unhex : string -> bytes.

(** The manager before the loops of [__init__]: [swaps] is the stored
    dictionary, given by its items in order, the objects it holds are
    in [objects], the two indexes are empty. *)
Definition loaded (objects : gmap loc SwapData) (items : list (string * loc))
  : manager :=
  {| heap := objects; swaps := list_to_map items;
     _swaps_by_funding_outpoint := ∅; _swaps_by_lockup_address := ∅;
     callbacks := ∅; events := [] |}.

(** The first loop of [__init__], [for payment_hash, swap in
    self.swaps.items(): self._add_or_reindex_swap(swap)].  The stored
    dictionary is a [dict] ([StorageDict] of [json_db]): a swap whose
    payment hash is not a key makes [_add_or_reindex_swap] insert into
    the dictionary that is being iterated, which ends the loop with a
    [RuntimeError]: [None]. *)
Fixpoint index_stored (m : manager) (items : list (string * loc))
  : option manager :=
  match items with
  | [] => Some m
  | (_, l) :: rest =>
    match heap m !! l with
    | Some swap =>
      match swaps m !! hex (payment_hash sha256 swap) with
      | Some _ => index_stored (_add_or_reindex_swap sha256 hex m l) rest
      | None => None
      end
    | None => index_stored m rest
    end
  end.

(** The second loop of [__init__], which fills [prepayments]. *)
Definition stored_prepayments (m : manager) (items : list (string * loc))
  : gmap bytes bytes :=
  foldl (fun p item =>
           match heap m !! snd item with
           | Some swap =>
             if is_reverse swap then
               match prepay_hash swap with
               | Some h => <[h := unhex (fst item)]> p
               | None => p
               end
             else p
           | None => p
           end) ∅ items.

(** [SwapManager.__init__] as far as the swaps go. *)
Definition init_manager (objects : gmap loc SwapData)
    (items : list (string * loc)) : option rstate :=
  m ← index_stored (loaded objects items) items;
  Some {| mgr := m; prepayments := stored_prepayments m items;
          payments := [] |}.

(** [start_network], called with a network and a watcher; [started]
    says whether [self.network] is set already, [items] are the items
    of [self.swaps]. *)
Definition start_network (started : bool) (m : manager)
    (items : list (string * loc)) : result manager :=
  if started then Raise AssertionError
  else
    Ok (foldl (fun m item =>
                 match heap m !! snd item with
                 | Some swap =>
                   if is_redeemed swap then m
                   else add_lnwatcher_callback m (snd item)
                 | None => m
                 end) m items).

End Load.

(** The items of a stored dictionary: no key twice, every value an
    object, stored under the hexadecimal hash of its preimage, and, as
    after reading from storage, without a funding outpoint. *)
Record well_stored (sha256 : bytes -> bytes) (hex : bytes -> string)
    (objects : gmap loc SwapData) (items : list (string * loc)) : Prop := {
  stored_keys : NoDup (fst <$> items);
  stored_objects :
    forall k l, (k, l) ∈ items ->
      exists s, objects !! l = Some s /\ k = hex (sha256 (preimage s)) /\
                _funding_prevout s = None
}.

End Startup.

(** ** [decimal]: arithmetic in the default context *)

Module Decimal.

(** [getcontext().prec]; the rounding mode is [ROUND_HALF_EVEN].  The
    exponent limits of the context ([Emin], [Emax], about a million
    digits) are not modelled. *)
Definition prec : Z := 28.

(** The number of decimal digits of a positive integer. *)
Fixpoint digits_from (fuel : nat) (n : Z) : Z :=
  match fuel with
  | O => 1
  | S fuel => if n <? 10 then 1 else 1 + digits_from fuel (n / 10)
  end.

Definition digits (n : Z) : Z := digits_from (Z.to_nat (Z.log2 n)) n.

(** The exponent of the leading digit of a positive rational [x]: the
    [m] with 10^m <= x < 10^(m+1). *)
Definition magnitude (x : Q) : Z :=
  let k := digits (Qnum x) - digits (Zpos (Qden x)) in
  if Qle_bool (10 ^ k) x then k else k - 1.

(** The nearest integer, a tie going to the even one. *)
Definition round_half_even (q : Q) : Z :=
  let f := Qfloor q in
  match (q - inject_Z f ?= 1 # 2)%Q with
  | Lt => f
  | Gt => f + 1
  | Eq => if Z.even f then f else f + 1
  end.

(** A positive value rounded to [prec] significant digits: a
    coefficient of [prec] digits times a power of ten. *)
Definition round_pos (x : Q) : Q :=
  let e := magnitude x - (prec - 1) in
  (inject_Z (round_half_even (x / 10 ^ e)) * 10 ^ e)%Q.

(** Rounding is done on the absolute value; the sign is kept. *)
Definition round (q : Q) : Q :=
  match (q ?= 0)%Q with
  | Eq => 0%Q
  | Gt => round_pos q
  | Lt => (- round_pos (- q))%Q
  end.

(** The operators of [Decimal]: the exact result, rounded.  The
    constructor [Decimal(n)], the comparisons, [math.floor] and
    [math.ceil] are exact. *)
Definition add (a b : Q) : Q := round (a + b).
Definition sub (a b : Q) : Q := round (a - b).
Definition mul (a b : Q) : Q := round (a * b).
Definition div (a b : Q) : Q := round (a / b).

End Decimal.

(** ** The fee calculator with the rounding of [decimal] *)

Module FeeDecimal.
Import FeeCalc.

Section Calc.
Variable c : config.

(** [check_invoice_amount] on a [Decimal] or an [int]. *)
Definition check_invoice_amount (x : Q) : bool :=
  Qle_bool (inject_Z (min_amount c)) x && Qle_bool x (inject_Z (max_amount c)).

(** [_get_recv_amount]: [x] and [percentage] are [Decimal]s, the fees
    are [int]s; [x / 0] raises [DivisionByZero] or [InvalidOperation],
    both of them [ArithmeticError]s. *)
Definition _get_recv_amount (send_amount : option Z) (is_reverse : bool)
  : result (option Z) :=
  match send_amount with
  | None => Ok None
  | Some send_amount =>
    let x := inject_Z send_amount in
    let percentage := percentage c in
    if is_reverse then
      if negb (check_invoice_amount x) then Ok None
      else
        let percentage_fee :=
          Qceiling (Decimal.div (Decimal.mul percentage x) 100) in
        let base_fee := lockup_fee c in
        let x := Decimal.sub x (inject_Z (percentage_fee + base_fee)) in
        let x := Qfloor x in
        if x <? dust c then Ok None else Ok (Some x)
    else
      let x := Decimal.sub x (inject_Z (normal_fee c)) in
      let divisor := Decimal.add 100 percentage in
      if Qeq_bool divisor 0 then Raise ArithmeticError
      else
        let percentage_fee :=
          Qceiling (Decimal.div (Decimal.mul x percentage) divisor) in
        let x := Decimal.sub x (inject_Z percentage_fee) in
        if negb (check_invoice_amount x) then Ok None
        else Ok (Some (SwapsExt.int_of_decimal x))
  end.

(** [_get_send_amount]; [if not recv_amount] holds for [None] and for 0. *)
Definition _get_send_amount (recv_amount : option Z) (is_reverse : bool)
  : result (option Z) :=
  match recv_amount with
  | None => Ok None
  | Some recv_amount =>
    if recv_amount =? 0 then Ok None
    else
      let x := inject_Z recv_amount in
      let percentage := percentage c in
      if is_reverse then
        let base_fee := lockup_fee c in
        let x := Decimal.add x (inject_Z base_fee) in
        let divisor := Decimal.div (Decimal.sub 100 percentage) 100 in
        if Qeq_bool divisor 0 then Raise ArithmeticError
        else
          let x := Qceiling (Decimal.div x divisor) in
          if negb (check_invoice_amount (inject_Z x)) then Ok None
          else Ok (Some x)
      else
        if negb (check_invoice_amount x) then Ok None
        else
          let percentage_fee :=
            Qceiling (Decimal.div (Decimal.mul percentage x) 100) in
          let x :=
            Decimal.add x (inject_Z (percentage_fee + normal_fee c)) in
          Ok (Some (SwapsExt.int_of_decimal x))
  end.

(** [get_recv_amount] and [get_send_amount], as in [FeeCalc]. *)
Definition get_recv_amount (send_amount : option Z) (is_reverse : bool)
  : result (option Z) :=
  recv_amount ← _get_recv_amount send_amount is_reverse;
  _ ← match recv_amount with
      | Some _ =>
        inverted_send_amount ← _get_send_amount recv_amount is_reverse;
        match send_amount, inverted_send_amount with
        | Some s, Some i =>
          if Z.abs (s - i) >? 1 then Raise CalcInvertSanityCheck else Ok tt
        | _, _ => Raise TypeError
        end
      | None => Ok tt
      end;
  match recv_amount with
  | Some r => if is_reverse then Ok (Some (r - claim_fee c)) else Ok (Some r)
  | None => Ok None
  end.

Definition get_send_amount (recv_amount : option Z) (is_reverse : bool)
  : result (option Z) :=
  let recv_amount :=
    match recv_amount with
    | Some r => if is_reverse then Some (r + claim_fee c) else Some r
    | None => None
    end in
  send_amount ← _get_send_amount recv_amount is_reverse;
  _ ← match send_amount with
      | Some _ =>
        inverted_recv_amount ← _get_recv_amount send_amount is_reverse;
        if decide (recv_amount = inverted_recv_amount) then Ok tt
        else Raise CalcInvertSanityCheck
      | None => Ok tt
      end;
  Ok send_amount.

(** [max_amount_forward_swap]; [num_sats_can_receive] stands for
    [int(self.lnworker.num_sats_can_receive())].  The result is [None]
    when no forward swap is possible. *)
Definition max_amount_forward_swap (num_sats_can_receive : Z)
  : result (option Z) :=
  let max_swap_amt_ln := max_amount c in
  let max_recv_amt_ln := num_sats_can_receive in
  let max_amt_ln := Z.min max_swap_amt_ln max_recv_amt_ln in
  a ← get_send_amount (Some max_amt_ln) false;
  let max_amt_oc := FeeCalcExt.or_zero a in
  b ← get_send_amount (Some (min_amount c)) false;
  let min_amt_oc := FeeCalcExt.or_zero b in
  Ok (if max_amt_oc >=? min_amt_oc then Some max_amt_oc else None).

End Calc.

(** The schedules and amounts for which the rounding is shown to leave
    the results as in exact arithmetic: a percentage of at most two
    decimal places strictly between -100 and 100, and fees and limits
    below 10^16 in absolute value. *)
Definition hundredths (p : Q) : Z := Qfloor (p * 100).

Definition moderate (x : Z) : bool := Z.abs x <? 10 ^ 16.

Definition plain (c : config) : bool :=
  Qeq_bool (inject_Z (hundredths (percentage c)) / 100) (percentage c)
  && (Z.abs (hundredths (percentage c)) <? 10000)
  && moderate (normal_fee c) && moderate (lockup_fee c)
  && moderate (claim_fee c)
  && moderate (min_amount c) && moderate (max_amount c).

(** Limits wide enough for amounts of more than 28 digits, no fees. *)
Definition wide : config := {|
  percentage := 0;
  normal_fee := 0;
  lockup_fee := 0;
  min_amount := 0;
  max_amount := 10 ^ 40;
  claim_fee := 0;
  dust := 546
|}.

End FeeDecimal.
(** ** Properties of the fee calculator *)

Module FeeCalcFacts.
Import FeeCalc.

Ltac unbind := unfold mbind, result_bind, mret, result_ret in *.

(** What a returned receive amount tells about the intermediate values. *)
Lemma get_recv_amount_inv c send_amount is_reverse r :
  get_recv_amount c send_amount is_reverse = Ok (Some r) ->
  exists s r0 i,
    send_amount = Some s /\
    _get_recv_amount c (Some s) is_reverse = Ok (Some r0) /\
    _get_send_amount c (Some r0) is_reverse = Ok (Some i) /\
    Z.abs (s - i) <= 1 /\
    r = (if is_reverse then r0 - claim_fee c else r0).
Proof.
  unfold get_recv_amount; unbind.
  destruct (_get_recv_amount c send_amount is_reverse) as [[r0|]|e] eqn:Hr;
    try discriminate.
  destruct (_get_send_amount c (Some r0) is_reverse) as [[i|]|e] eqn:Hs;
    destruct send_amount as [s|]; try discriminate.
  destruct (Z.abs (s - i) >? 1) eqn:Hgt; try discriminate.
  intros H. exists s, r0, i. repeat split; auto.
  - lia.
  - destruct is_reverse; congruence.
Qed.

(** What a returned send amount tells about the intermediate values. *)
Lemma get_send_amount_inv c recv_amount is_reverse s :
  get_send_amount c recv_amount is_reverse = Ok (Some s) ->
  exists r,
    recv_amount = Some r /\
    let r' := if is_reverse then r + claim_fee c else r in
    _get_send_amount c (Some r') is_reverse = Ok (Some s) /\
    _get_recv_amount c (Some s) is_reverse = Ok (Some r').
Proof.
  unfold get_send_amount; unbind.
  destruct recv_amount as [r|]; [|simpl; discriminate].
  set (ra := if is_reverse then Some (r + claim_fee c) else Some r).
  assert (Hra : ra = Some (if is_reverse then r + claim_fee c else r))
    by (subst ra; destruct is_reverse; reflexivity).
  rewrite Hra. clear Hra ra.
  set (r' := if is_reverse then r + claim_fee c else r).
  destruct (_get_send_amount c (Some r') is_reverse) as [[s0|]|e] eqn:Hs;
    try discriminate.
  destruct (_get_recv_amount c (Some s0) is_reverse) as [ir|e] eqn:Hr;
    try discriminate.
  destruct (decide (Some r' = ir)) as [<-|]; try discriminate.
  intros [= <-]. exists r. split; [reflexivity|]. simpl. split; assumption.
Qed.





(** *** When the inverse is within one unit *)

Lemma ceil_le (x : Q) (z : Z) : (x <= inject_Z z)%Q -> Qceiling x <= z.
Proof.
  intros H. apply Qceiling_resp_le in H. rewrite Qceiling_Z in H. exact H.
Qed.

Lemma ceil_gt (x : Q) (z : Z) : (inject_Z z < x)%Q -> z < Qceiling x.
Proof.
  intros H. rewrite Zlt_Qlt.
  eapply Qlt_le_trans; [exact H | apply Qle_ceiling].
Qed.

Lemma ceil_div_bounds (x d : Q) :
  (0 < d)%Q ->
  (x <= inject_Z (Qceiling (x / d)) * d)%Q /\
  ((inject_Z (Qceiling (x / d)) - 1) * d < x)%Q.
Proof.
  intros Hd.
  pose proof (Qle_ceiling (x / d)) as Hle.
  pose proof (Qceiling_lt (x / d)) as Hlt.
  assert (Hq : (x / d * d == x)%Q)
    by (field; intros E; rewrite E in Hd; discriminate).
  unfold Z.sub in Hlt. rewrite inject_Z_plus in Hlt.
  change (inject_Z (-1)) with (-(1))%Q in Hlt.
  split.
  - rewrite <- Hq at 1.
    apply Qmult_le_compat_r; [exact Hle | apply Qlt_le_weak, Hd].
  - rewrite <- Hq at 2. apply Qmult_lt_compat_r; [exact Hd | exact Hlt].
Qed.







(** The sanity exception is reachable: at 75 percent the reverse
    calculation loses three units. *)
Example steep_reverse_raises :
  get_recv_amount steep (Some 7) true = Raise CalcInvertSanityCheck.
Proof. vm_compute. reflexivity. Qed.

(** A send amount inside the limits need not yield a value: the forward
    calculation answers [None] when the net amount leaves the limits. *)
Example forward_at_minimum_is_none :
  get_recv_amount sample (Some 10000) false = Ok None.
Proof. vm_compute. reflexivity. Qed.

End FeeCalcFacts.


(** ** Properties of the script parser *)

Module ScriptFacts.
Import Script.

Lemma split_at_length n b pre rest :
  split_at n b = Some (pre, rest) -> (length rest <= length b)%nat.
Proof.
  unfold split_at.
  destruct ((0 <=? n) && (n <=? Z.of_nat (length b))); [|discriminate].
  intros [= _ <-]. rewrite length_drop. lia.
Qed.

(** The parser does not depend on its fuel once there is as much of it
    as there are bytes: [script_GetOp] never stops for lack of fuel. *)
Lemma script_GetOp_from_enough fuel : forall fuel' b,
  (length b <= fuel)%nat -> (length b <= fuel')%nat ->
  script_GetOp_from fuel b = script_GetOp_from fuel' b.
Proof.
  induction fuel as [|fuel IH]; intros fuel' b Hf Hf'.
  - destruct b; [|simpl in Hf; lia]. destruct fuel'; reflexivity.
  - destruct b as [|x rest]; [destruct fuel'; reflexivity|].
    destruct fuel' as [|fuel']; [simpl in Hf'; lia|].
    simpl in Hf, Hf'. cbn [script_GetOp_from].
    destruct (OP_PUSHDATA4 <? byte_val x).
    + rewrite (IH fuel' rest) by lia. reflexivity.
    + destruct (split_at _ rest) as [[len_bytes rest1]|] eqn:H1; [|reflexivity].
      apply split_at_length in H1.
      destruct (split_at _ rest1) as [[vch rest2]|] eqn:H2; [|reflexivity].
      apply split_at_length in H2.
      rewrite (IH fuel' rest2) by lia. reflexivity.
Qed.

Lemma script_GetOp_fuel fuel b :
  (length b <= fuel)%nat -> script_GetOp_from fuel b = script_GetOp b.
Proof.
  intros H. unfold script_GetOp. apply script_GetOp_from_enough; lia.
Qed.

(** The scripts of a conforming server match their templates. *)
Example conforming_scripts_match :
  match_script_against_template script_size_32 WITNESS_TEMPLATE_REVERSE_SWAP
    = true /\
  match_script_against_template Examples.forward_script WITNESS_TEMPLATE_SWAP
    = true /\
  match_script_against_template script_size_32 WITNESS_TEMPLATE_SWAP = false.
Proof. repeat split; vm_compute; reflexivity. Qed.

End ScriptFacts.
(** ** Properties of the merkle verifier *)

Module SPVFacts.
Import SPV.

Lemma land_shiftr_bit (pos : Z) (i : nat) :
  (Z.land (Z.shiftr pos (Z.of_nat i)) 1 =? 0) = negb (Z.testbit pos (Z.of_nat i)).
Proof.
  change 1 with (Z.ones 1). rewrite Z.land_ones by lia.
  change (2 ^ 1) with 2. rewrite <- Z.bit0_mod.
  rewrite Z.shiftr_spec by lia. rewrite Z.add_0_l.
  destruct (Z.testbit pos (Z.of_nat i)); reflexivity.
Qed.

Section Facts.
Variable Hash : bytes -> bytes.
Variable hash_decode : string -> bytes.
Variable hash_encode : bytes -> string.
Variable bh2u : bytes -> string.
Variable deserializes : string -> bool.

Local Abbreviation step := (merkle_step Hash hash_decode).
Local Abbreviation loop := (merkle_loop Hash hash_decode bh2u deserializes).
Local Abbreviation root :=
  (hash_merkle_root Hash hash_decode hash_encode bh2u deserializes).
Local Abbreviation fold := (fold_siblings Hash hash_decode).
Local Abbreviation nodes := (inner_nodes Hash hash_decode).

(** Bit [i] set: the sibling goes in front; clear: behind. *)
Lemma merkle_step_bit pos i item h :
  step pos i item h =
  if Z.testbit pos (Z.of_nat i)
  then Hash (hash_decode item ++ h)
  else Hash (h ++ hash_decode item).
Proof.
  unfold merkle_step. rewrite land_shiftr_bit.
  destruct (Z.testbit pos (Z.of_nat i)); reflexivity.
Qed.

(** If some fold step yields a hash that deserializes, the loop raises. *)
Lemma loop_raises items : forall i pos h,
  Exists (fun n => deserializes (bh2u n) = true) (nodes items i pos h) ->
  snd (loop items i pos h) = Raise InnerNodeOfSpvProofIsValidTx.
Proof.
  induction items as [|item rest IH]; intros i pos h Hex; simpl in *.
  - inversion Hex.
  - rewrite merkle_step_bit. unfold _raise_if_valid_tx.
    set (h' := if Z.testbit pos (Z.of_nat i)
               then Hash (hash_decode item ++ h)
               else Hash (h ++ hash_decode item)) in *.
    destruct (deserializes (bh2u h')) eqn:Hd; [reflexivity|].
    apply Exists_cons in Hex as [Hh|Hrest]; [congruence|].
    specialize (IH (S i) pos h' Hrest).
    destruct (loop rest (S i) pos h'); simpl in *. exact IH.
Qed.

(** If no fold step yields a hash that deserializes, the loop returns
    the fold, having checked every inner node. *)
Lemma loop_returns items : forall i pos h,
  Forall (fun n => deserializes (bh2u n) = false) (nodes items i pos h) ->
  loop items i pos h = (map bh2u (nodes items i pos h), Ok (fold items i pos h)).
Proof.
  induction items as [|item rest IH]; intros i pos h Hall; simpl in *.
  - reflexivity.
  - rewrite merkle_step_bit. unfold _raise_if_valid_tx.
    set (h' := if Z.testbit pos (Z.of_nat i)
               then Hash (hash_decode item ++ h)
               else Hash (h ++ hash_decode item)) in *.
    apply Forall_cons in Hall as [Hh Hrest].
    rewrite Hh, (IH _ _ _ Hrest). reflexivity.
Qed.

(** Whatever the loop returns is the fold. *)
Lemma loop_ok_fold items : forall i pos h r,
  snd (loop items i pos h) = Ok r -> r = fold items i pos h.
Proof.
  induction items as [|item rest IH]; intros i pos h r; simpl.
  - congruence.
  - rewrite merkle_step_bit. unfold _raise_if_valid_tx.
    set (h' := if Z.testbit pos (Z.of_nat i)
               then Hash (hash_decode item ++ h)
               else Hash (h ++ hash_decode item)) in *.
    destruct (deserializes (bh2u h')); [discriminate|].
    specialize (IH (S i) pos h' r).
    destruct (loop rest (S i) pos h'); simpl in *. exact IH.
Qed.

Lemma root_raises merkle_s target pos :
  Exists (fun n => deserializes (bh2u n) = true)
         (nodes merkle_s 0%nat pos (hash_decode target)) ->
  snd (root merkle_s target pos) = Raise InnerNodeOfSpvProofIsValidTx.
Proof.
  intros Hex. apply loop_raises in Hex. unfold hash_merkle_root.
  destruct (loop merkle_s 0%nat pos (hash_decode target)); simpl in *.
  rewrite Hex. reflexivity.
Qed.

Lemma root_returns merkle_s target pos :
  Forall (fun n => deserializes (bh2u n) = false)
         (nodes merkle_s 0%nat pos (hash_decode target)) ->
  root merkle_s target pos =
  (map bh2u (nodes merkle_s 0%nat pos (hash_decode target)),
   Ok (hash_encode (fold merkle_s 0%nat pos (hash_decode target)))).
Proof.
  intros Hall. unfold hash_merkle_root. rewrite (loop_returns _ _ _ _ Hall).
  reflexivity.
Qed.

Lemma root_ok_fold merkle_s target pos r :
  snd (root merkle_s target pos) = Ok r ->
  r = hash_encode (fold merkle_s 0%nat pos (hash_decode target)).
Proof.
  unfold hash_merkle_root.
  destruct (loop merkle_s 0%nat pos (hash_decode target)) as [checked [h|e]] eqn:E;
    simpl; [|discriminate].
  intros [= <-]. f_equal. apply loop_ok_fold. rewrite E. reflexivity.
Qed.

(** C2. If the hash after any fold step deserializes as a transaction,
    [hash_merkle_root] raises [InnerNodeOfSpvProofIsValidTx], whatever
    the siblings and the position; [verify_merkle] then leaves by the
    handler of that exception with its state untouched, whatever the
    header store holds, also a header whose root equals the completed
    fold. *)
Theorem inner_node_aborts_before_root_check :
  forall (merkle_s : list string) (target : string) (pos : Z),
    Exists (fun n => deserializes (bh2u n) = true)
           (inner_nodes Hash hash_decode merkle_s 0%nat pos
              (hash_decode target)) ->
    snd (hash_merkle_root Hash hash_decode hash_encode bh2u deserializes
           merkle_s target pos)
    = Raise InnerNodeOfSpvProofIsValidTx /\
    forall (env : verify_env) (st : state) (resp : response),
      verifier_alive env = true ->
      error resp = false ->
      merkle resp = merkle_s ->
      tx_hash resp = target ->
      SPV.pos resp = pos ->
      verify_merkle Hash hash_decode hash_encode bh2u deserializes env st resp
      = (st, InnerNodeLooksLikeTx).
Proof.
  intros merkle_s target pos Hex.
  pose proof (root_raises _ _ _ Hex) as Hr. split; [exact Hr|].
  intros env st resp Halive Herr Hm Ht Hp. unfold verify_merkle.
  rewrite Halive, Herr, Hm, Ht, Hp. simpl. rewrite Hr. reflexivity.
Qed.

(** C5. Each step of [hash_merkle_root] puts sibling [i] in front of
    the running hash when bit [i] of the position is set and behind it
    when the bit is clear; a returned root is the fold so described;
    and for the siblings [h0; h23] at position 1 the root is the hash
    of (the hash of [h0] followed by the target) followed by [h23]. *)
Theorem fold_order_follows_position_bits :
  (forall pos i item h,
      merkle_step Hash hash_decode pos i item h =
      if Z.testbit pos (Z.of_nat i)
      then Hash (hash_decode item ++ h)
      else Hash (h ++ hash_decode item)) /\
  (forall merkle_s target pos r,
      snd (hash_merkle_root Hash hash_decode hash_encode bh2u deserializes
             merkle_s target pos) = Ok r ->
      r = hash_encode
            (fold_siblings Hash hash_decode merkle_s 0%nat pos
               (hash_decode target))) /\
  (forall merkle_s target pos,
      Forall (fun n => deserializes (bh2u n) = false)
             (inner_nodes Hash hash_decode merkle_s 0%nat pos
                (hash_decode target)) ->
      snd (hash_merkle_root Hash hash_decode hash_encode bh2u deserializes
             merkle_s target pos)
      = Ok (hash_encode
              (fold_siblings Hash hash_decode merkle_s 0%nat pos
                 (hash_decode target)))) /\
  (forall h0 h23 target,
      let n1 := Hash (hash_decode h0 ++ hash_decode target) in
      let n2 := Hash (n1 ++ hash_decode h23) in
      deserializes (bh2u n1) = false ->
      deserializes (bh2u n2) = false ->
      snd (hash_merkle_root Hash hash_decode hash_encode bh2u deserializes
             [h0; h23] target 1)
      = Ok (hash_encode n2)).
Proof.
  split; [|split; [|split]].
  - apply merkle_step_bit.
  - apply root_ok_fold.
  - intros merkle_s target pos Hall. rewrite (root_returns _ _ _ Hall).
    reflexivity.
  - intros h0 h23 target n1 n2 H1 H2.
    rewrite root_returns; [reflexivity|].
    repeat constructor; assumption.
Qed.

(** C10. With no siblings the loop body never runs: the valid
    transaction check is called on nothing, no exception is raised
    whatever [deserializes] answers, and the result is the target
    hash decoded and encoded again, which is the target itself for an
    identifier the codec reproduces. *)
Theorem empty_path_returns_target :
  forall (target : string) (pos : Z),
    hash_merkle_root Hash hash_decode hash_encode bh2u deserializes
      [] target pos
    = ([], Ok (hash_encode (hash_decode target))) /\
    (hash_encode (hash_decode target) = target ->
     hash_merkle_root Hash hash_decode hash_encode bh2u deserializes
       [] target pos
     = ([], Ok target)).
Proof.
  intros target pos. split.
  - reflexivity.
  - intros Hcodec. unfold hash_merkle_root. simpl. rewrite Hcodec. reflexivity.
Qed.

(** *** The invariant *)

Lemma at_most_one_init chain : at_most_one (init chain).
Proof. intros tx [Hreq _]. simpl in Hreq. set_solver. Qed.

Lemma at_most_one_request_step env st tx :
  at_most_one st -> at_most_one (request_step env st tx).
Proof.
  intros Hinv. unfold request_step. destruct tx as [h ht].
  destruct ((ht <=? 0) || (local_height env <? ht)); [exact Hinv|].
  destruct (chain_header env ht).
  - destruct (bool_decide (h ∉ requested_merkle st)
              && bool_decide (merkle_roots st !! h = None)) eqn:E; [|exact Hinv].
    apply andb_prop in E as [_ Hroots]. apply bool_decide_eq_true in Hroots.
    intros tx [Hreq Hsome]. simpl in *.
    apply elem_of_union in Hreq as [Heq|Hreq].
    + apply elem_of_singleton in Heq. subst tx. rewrite Hroots in Hsome.
      destruct Hsome; discriminate.
    + apply (Hinv tx). split; assumption.
  - destruct (is_before_last_checkpoint env ht); exact Hinv.
Qed.

Lemma at_most_one_requests env txs : forall st,
  at_most_one st -> at_most_one (foldl (request_step env) st txs).
Proof.
  induction txs as [|tx txs IH]; intros st Hinv; simpl; [exact Hinv|].
  apply IH, at_most_one_request_step, Hinv.
Qed.

Lemma at_most_one_remove st tx :
  at_most_one st -> at_most_one (remove_spv_proof_for_tx st tx).
Proof.
  intros Hinv tx' [Hreq Hsome]. simpl in *.
  apply elem_of_difference in Hreq as [Hreq _].
  destruct (decide (tx = tx')) as [->|Hne].
  - rewrite lookup_delete_eq in Hsome. destruct Hsome; discriminate.
  - rewrite lookup_delete_ne in Hsome by exact Hne.
    apply (Hinv tx'). split; assumption.
Qed.

Lemma at_most_one_undo env st :
  at_most_one st -> at_most_one (undo_verifications env st).
Proof.
  unfold undo_verifications. generalize (undone env) as txs.
  intros txs. revert st.
  induction txs as [|tx txs IH]; intros st Hinv; simpl; [exact Hinv|].
  apply IH, at_most_one_remove, Hinv.
Qed.

Lemma at_most_one_run env st : at_most_one st -> at_most_one (run env st).
Proof.
  intros Hinv. unfold run.
  destruct (negb (is_connected env)); [exact Hinv|].
  destruct (network_blockchain env) as [chain|]; [|exact Hinv].
  pose proof (at_most_one_requests env (unverified env) st Hinv) as H1.
  destruct (negb (bool_decide (chain = blockchain
              (foldl (request_step env) st (unverified env))))); [|exact H1].
  apply at_most_one_undo. exact H1.
Qed.

Lemma at_most_one_verify env st resp :
  at_most_one st ->
  at_most_one
    (fst (verify_merkle Hash hash_decode hash_encode bh2u deserializes env st resp)).
Proof.
  intros Hinv. unfold verify_merkle.
  destruct (negb (verifier_alive env)); [exact Hinv|].
  destruct (error resp); [exact Hinv|].
  destruct (snd (root (merkle resp) (tx_hash resp) (pos resp))) as [r|e].
  2:{ destruct e; exact Hinv. }
  destruct (read_header env (block_height resp)) as [hd|]; [|exact Hinv].
  destruct (negb (bool_decide (merkle_root hd = r))); [exact Hinv|].
  assert (Hnew : forall eff, at_most_one
            {| blockchain := blockchain st;
               merkle_roots := <[tx_hash resp := r]> (merkle_roots st);
               requested_merkle := requested_merkle st ∖ {[tx_hash resp]};
               effects := eff |}).
  { intros eff tx [Hreq Hsome]. simpl in *.
    apply elem_of_difference in Hreq as [Hreq Hne].
    rewrite elem_of_singleton in Hne.
    rewrite lookup_insert_ne in Hsome by congruence.
    apply (Hinv tx). split; assumption. }
  match goal with |- context [if ?b then _ else _] => destruct b end;
    simpl; apply Hnew.
Qed.

(** C8. No transaction id is at once requested and verified: this
    holds of a fresh verifier and is kept by the request step of
    [run], by [run] as a whole, by [verify_merkle] on every exit, the
    successful one included, and by [remove_spv_proof_for_tx]. *)
Theorem requested_and_verified_are_disjoint :
  (forall chain, at_most_one (init chain)) /\
  (forall env st tx,
      at_most_one st -> at_most_one (request_step env st tx)) /\
  (forall env st, at_most_one st -> at_most_one (run env st)) /\
  (forall env st resp,
      at_most_one st ->
      at_most_one
        (fst (verify_merkle Hash hash_decode hash_encode bh2u deserializes
                env st resp))) /\
  (forall st tx,
      at_most_one st -> at_most_one (remove_spv_proof_for_tx st tx)).
Proof.
  split; [|split; [|split; [|split]]].
  - apply at_most_one_init.
  - apply at_most_one_request_step.
  - apply at_most_one_run.
  - apply at_most_one_verify.
  - apply at_most_one_remove.
Qed.

End Facts.

(** *** The theorems at concrete proofs *)

Import Examples.

(** The forged proof: its first inner node reads as a transaction, and
    the header at its height holds the very root the fold would reach. *)
Lemma inner_node_aborts_before_root_check_witness :
  snd (hash_merkle_root toy_Hash toy_decode toy_encode toy_encode
         looks_like_tx ["b"; "c"]%string "a"%string 0)
    = Raise InnerNodeOfSpvProofIsValidTx /\
  verify_merkle toy_Hash toy_decode toy_encode toy_encode looks_like_tx
    matching_headers busy forged = (busy, InnerNodeLooksLikeTx).
Proof.
  assert (Hex : Exists (fun n => looks_like_tx (toy_encode n) = true)
            (inner_nodes toy_Hash toy_decode ["b"; "c"]%string 0%nat 0
               (toy_decode "a"%string))).
  { apply Exists_cons_hd. vm_compute. reflexivity. }
  destruct (inner_node_aborts_before_root_check toy_Hash toy_decode toy_encode
              toy_encode looks_like_tx _ _ _ Hex) as [Hraise Hverify].
  split; [exact Hraise|].
  apply Hverify; reflexivity.
Defined.

(** Without the check the forged proof would have been accepted. *)
Example forged_root_would_match :
  toy_encode (fold_siblings toy_Hash toy_decode ["b"; "c"]%string 0%nat 0
                (toy_decode "a"%string)) = "##abc"%string /\
  fst (verify_merkle toy_Hash toy_decode toy_encode toy_encode never_tx
         matching_headers busy forged)
  = {| blockchain := 0; merkle_roots := {["a"%string := "##abc"%string]};
       requested_merkle := {["a"%string]} ∖ {["a"%string]};
       effects := [AddVerifiedTx "a" 7 0 0; SaveVerifiedTx] |}.
Proof. split; vm_compute; reflexivity. Qed.

(** Three leaves, the target second: [h0] in front, then [h23] behind. *)
Lemma fold_order_follows_position_bits_witness :
  snd (hash_merkle_root toy_Hash toy_decode toy_encode toy_encode never_tx
         ["h0"; "h23"]%string "t"%string 1) = Ok "##h0th23"%string.
Proof.
  exact (proj2 (proj2 (proj2
    (fold_order_follows_position_bits toy_Hash toy_decode toy_encode
       toy_encode never_tx))) "h0"%string "h23"%string "t"%string
    eq_refl eq_refl).
Defined.

Lemma empty_path_returns_target_witness :
  hash_merkle_root toy_Hash toy_decode toy_encode toy_encode looks_like_tx
    [] "#ab"%string 5 = ([], Ok "#ab"%string).
Proof.
  apply (proj2 (empty_path_returns_target toy_Hash toy_decode toy_encode
                  toy_encode looks_like_tx "#ab"%string 5)).
  vm_compute. reflexivity.
Defined.

(** A request made by [run] on a fresh verifier, then answered. *)
Lemma requested_and_verified_are_disjoint_witness :
  at_most_one (run one_unverified (init 0)) /\
  at_most_one
    (fst (verify_merkle toy_Hash toy_decode toy_encode toy_encode never_tx
            matching_headers (run one_unverified (init 0)) forged)).
Proof.
  pose proof (requested_and_verified_are_disjoint toy_Hash toy_decode
                toy_encode toy_encode never_tx)
    as (Hinit & _ & Hrun & Hverify & _).
  split.
  - apply Hrun, Hinit.
  - apply Hverify, Hrun, Hinit.
Defined.

End SPVFacts.

(** ** Properties of the swap manager *)

Module SwapFacts.
Import Script Swaps.

Section Facts.
Variable sha256 : bytes -> bytes.
Variable hex : bytes -> string.
Variable hash_160 : bytes -> bytes.
Variable script_to_p2wsh : bytes -> string.
Variable sign_txin : PartialTransaction -> bytes -> bytes.
Variable txid_of : PartialTransaction -> string.
Variable funding_txid_of : FundingTx -> string.
Variable ln_dummy_address : string.
Variable REDEEM_AFTER_DOUBLE_SPENT_DELAY : Z.
Variable TX_HEIGHT_LOCAL : Z.

Local Abbreviation reindex := (_add_or_reindex_swap sha256 hex).
Local Abbreviation key_of := (fun s => hex (payment_hash sha256 s)).
Local Abbreviation build := (_create_and_sign_claim_tx sign_txin).
Local Abbreviation step :=
  (claim_txin sha256 hex sign_txin txid_of
     REDEEM_AFTER_DOUBLE_SPENT_DELAY TX_HEIGHT_LOCAL).
Local Abbreviation loop :=
  (claim_loop sha256 hex sign_txin txid_of
     REDEEM_AFTER_DOUBLE_SPENT_DELAY TX_HEIGHT_LOCAL).
Local Abbreviation claim :=
  (_claim_swap sha256 hex sign_txin txid_of
     REDEEM_AFTER_DOUBLE_SPENT_DELAY TX_HEIGHT_LOCAL).
Local Abbreviation watching :=
  (watch sha256 hex sign_txin txid_of
     REDEEM_AFTER_DOUBLE_SPENT_DELAY TX_HEIGHT_LOCAL).

(** *** The index *)

Lemma reindex_heap m l : heap (reindex m l) = heap m.
Proof. unfold _add_or_reindex_swap. destruct (heap m !! l); reflexivity. Qed.

Lemma reindex_events m l : events (reindex m l) = events m.
Proof. unfold _add_or_reindex_swap. destruct (heap m !! l); reflexivity. Qed.

Lemma reindex_callbacks m l : callbacks (reindex m l) = callbacks m.
Proof. unfold _add_or_reindex_swap. destruct (heap m !! l); reflexivity. Qed.

Lemma reindex_swaps m l swap :
  heap m !! l = Some swap ->
  swaps (reindex m l) =
  match swaps m !! key_of swap with
  | Some _ => swaps m
  | None => <[key_of swap := l]> (swaps m)
  end.
Proof. intros H. unfold _add_or_reindex_swap. rewrite H. reflexivity. Qed.

Lemma reindex_by_funding m l swap :
  heap m !! l = Some swap ->
  _swaps_by_funding_outpoint (reindex m l) =
  match _funding_prevout swap with
  | Some op => <[op := l]> (_swaps_by_funding_outpoint m)
  | None => _swaps_by_funding_outpoint m
  end.
Proof. intros H. unfold _add_or_reindex_swap. rewrite H. reflexivity. Qed.

Lemma reindex_by_lockup m l swap :
  heap m !! l = Some swap ->
  _swaps_by_lockup_address (reindex m l) =
  <[lockup_address swap := l]> (_swaps_by_lockup_address m).
Proof. intros H. unfold _add_or_reindex_swap. rewrite H. reflexivity. Qed.

Lemma reindex_swaps_present m l swap :
  heap m !! l = Some swap -> is_Some (swaps (reindex m l) !! key_of swap).
Proof.
  intros H. rewrite (reindex_swaps _ _ _ H).
  destruct (swaps m !! key_of swap) eqn:E.
  - rewrite E. eauto.
  - rewrite lookup_insert_eq. eauto.
Qed.

Lemma reindex_idempotent m l : reindex (reindex m l) l = reindex m l.
Proof.
  destruct (heap m !! l) as [swap|] eqn:H.
  2:{ unfold _add_or_reindex_swap. rewrite H. simpl. rewrite H. reflexivity. }
  pose proof (reindex_swaps_present m l swap H) as [l' Hl'].
  unfold _add_or_reindex_swap at 1.
  rewrite reindex_heap, H, Hl'.
  rewrite (reindex_by_funding _ _ _ H), (reindex_by_lockup _ _ _ H).
  rewrite reindex_callbacks, reindex_events.
  unfold _add_or_reindex_swap. rewrite H. simpl.
  f_equal.
  - destruct (_funding_prevout swap); [apply insert_insert_eq | reflexivity].
  - apply insert_insert_eq.
Qed.

(** C9 (amended). The funding-outpoint index follows the record's
    [_funding_prevout], which the watcher sets together with
    [funding_txid]: a record without it, as every new record is, adds
    no entry; once it is set, reindexing maps that outpoint to the
    record and leaves the primary map alone.  A second call with the
    same record changes nothing at all, so the primary map gets no
    second entry, and both secondary indices hold the record. *)
Theorem reindex_keys_on_funding_prevout :
  forall (m : manager) (l : loc) (swap : SwapData),
    heap m !! l = Some swap ->
    (_funding_prevout swap = None ->
     _swaps_by_funding_outpoint (reindex m l) = _swaps_by_funding_outpoint m) /\
    (forall op,
        _funding_prevout swap = Some op ->
        _swaps_by_funding_outpoint (reindex m l) !! op = Some l) /\
    (forall txid op,
        let m1 := reindex m l in
        let m2 := set_heap m1
                    (<[l := set_funding swap (Some txid) (Some op)]> (heap m1)) in
        _swaps_by_funding_outpoint (reindex m2 l) !! op = Some l /\
        swaps (reindex m2 l) = swaps m1) /\
    reindex (reindex m l) l = reindex m l /\
    _swaps_by_lockup_address (reindex m l) !! lockup_address swap = Some l /\
    (swaps m !! key_of swap = None ->
     swaps (reindex m l) = <[key_of swap := l]> (swaps m)) /\
    (is_Some (swaps m !! key_of swap) -> swaps (reindex m l) = swaps m).
Proof.
  intros m l swap H. repeat split.
  - intros Hnone. rewrite (reindex_by_funding _ _ _ H), Hnone. reflexivity.
  - intros op Hop. rewrite (reindex_by_funding _ _ _ H), Hop.
    apply lookup_insert_eq.
  - assert (H2 : heap (set_heap (reindex m l)
                   (<[l := set_funding swap (Some txid) (Some op)]>
                      (heap (reindex m l)))) !! l
                 = Some (set_funding swap (Some txid) (Some op)))
      by (simpl; apply lookup_insert_eq).
    rewrite (reindex_by_funding _ _ _ H2). simpl. apply lookup_insert_eq.
  - assert (H2 : heap (set_heap (reindex m l)
                   (<[l := set_funding swap (Some txid) (Some op)]>
                      (heap (reindex m l)))) !! l
                 = Some (set_funding swap (Some txid) (Some op)))
      by (simpl; apply lookup_insert_eq).
    rewrite (reindex_swaps _ _ _ H2). simpl.
    change (payment_hash sha256 (set_funding swap (Some txid) (Some op)))
      with (payment_hash sha256 swap).
    destruct (reindex_swaps_present m l swap H) as [l' Hl']. rewrite Hl'.
    reflexivity.
  - apply reindex_idempotent.
  - rewrite (reindex_by_lockup _ _ _ H). apply lookup_insert_eq.
  - intros Hnone. rewrite (reindex_swaps _ _ _ H), Hnone. reflexivity.
  - intros [l' Hl']. rewrite (reindex_swaps _ _ _ H), Hl'. reflexivity.
Qed.

(** *** Claim transactions *)

Lemma build_ok env txin swap tx :
  build env txin swap = Ok tx ->
  dust_threshold env <= value_sats txin - claim_fee env /\
  tx_inputs tx = [txin] /\
  tx_outputs tx = [(receive_address swap, value_sats txin - claim_fee env)] /\
  tx_locktime tx = (if is_reverse swap then 0 else locktime swap) /\
  tx_rbf tx = true.
Proof.
  unfold _create_and_sign_claim_tx.
  destruct (value_sats txin - claim_fee env <? dust_threshold env) eqn:Hd;
    [discriminate|].
  unfold sign_tx, create_claim_tx. simpl.
  destruct (bool_decide (Some (prevout txin).1 = funding_txid swap));
    [|discriminate].
  intros [= <-]. simpl. repeat split; try reflexivity. lia.
Qed.

Lemma build_below_dust env txin swap :
  value_sats txin - claim_fee env < dust_threshold env ->
  build env txin swap = Raise BelowDustLimit.
Proof.
  intros Hlt. unfold _create_and_sign_claim_tx.
  destruct (value_sats txin - claim_fee env <? dust_threshold env) eqn:Hd;
    [reflexivity | lia].
Qed.

Lemma build_total env txin swap :
  dust_threshold env <= value_sats txin - claim_fee env ->
  funding_txid swap = Some (fst (prevout txin)) ->
  exists tx, build env txin swap = Ok tx.
Proof.
  intros Hge Hf. unfold _create_and_sign_claim_tx.
  destruct (value_sats txin - claim_fee env <? dust_threshold env) eqn:Hd;
    [lia|].
  unfold sign_tx, create_claim_tx. simpl. rewrite <- Hf.
  rewrite bool_decide_eq_true_2 by reflexivity. eauto.
Qed.

(** What one iteration of the watcher's loop can do to the record and
    to the collaborators: nothing, a rebroadcast of a known spend, or
    a claim built from this output, which then passed the amount check
    and was unspent. *)
Lemma step_spec env l m txin swap :
  heap m !! l = Some swap ->
  (exists swap', heap (fst (step env l m txin)) !! l = Some swap' /\
                 same_terms swap swap') /\
  (events (fst (step env l m txin)) = events m \/
   (exists t, events (fst (step env l m txin))
              = events m ++ [EvBroadcastKnown t]) \/
   (exists tx,
       (is_reverse swap && (value_sats txin <? onchain_amount swap)) = false /\
       spent_height txin = None /\
       build env txin
         (set_funding swap (Some (fst (prevout txin))) (Some (prevout txin)))
         = Ok tx /\
       events (fst (step env l m txin))
       = events m ++ [EvClaimTxSigned tx; EvAddTransaction tx])).
Proof.
  intros H. unfold claim_txin. rewrite H.
  destruct (is_reverse swap && (value_sats txin <? onchain_amount swap)) eqn:Hlow.
  { simpl. split; [exists swap; repeat split; auto | left; reflexivity]. }
  set (swap1 := set_funding swap (Some (prevout txin).1) (Some (prevout txin))).
  set (m1 := reindex (set_heap m (<[l:=swap1]> (heap m))) l).
  assert (Hh1 : heap m1 = <[l:=swap1]> (heap m))
    by (subst m1; rewrite reindex_heap; reflexivity).
  assert (He1 : events m1 = events m)
    by (subst m1; rewrite reindex_events; reflexivity).
  destruct (spent_height txin) as [sh|] eqn:Hsh.
  - destruct (sh >? 0).
    + destruct (local_height env - sh >? REDEEM_AFTER_DOUBLE_SPENT_DELAY); simpl.
      * split; [|left; exact He1]. rewrite lookup_insert_eq.
        eexists; split; [reflexivity|]. repeat split; reflexivity.
      * split; [|left; exact He1]. rewrite lookup_insert_eq.
        eexists; split; [reflexivity|]. repeat split; reflexivity.
    + destruct (sh =? TX_HEIGHT_LOCAL);
        [destruct ((block_height txin >? 0) || allow_instant_swaps env)|];
        simpl; (split; [rewrite lookup_insert_eq;
                        eexists; split; [reflexivity|]; repeat split; reflexivity|]).
      * right; left. eexists. rewrite He1. reflexivity.
      * left; exact He1.
      * left; exact He1.
  - destruct (negb (is_reverse swap1) && (local_height env - locktime swap1 <? 0)).
    { simpl. split; [|left; exact He1]. rewrite Hh1, lookup_insert_eq.
      eexists; split; [reflexivity|]. repeat split; reflexivity. }
    destruct (build env txin swap1) as [tx|e] eqn:Hb.
    + simpl. split.
      * rewrite lookup_insert_eq.
        eexists; split; [reflexivity|]. repeat split; reflexivity.
      * right; right. exists tx. rewrite He1. repeat split; reflexivity.
    + assert (Hkeep : (exists swap', heap m1 !! l = Some swap' /\
                                     same_terms swap swap') /\
                      events m1 = events m).
      { split; [|exact He1]. rewrite Hh1, lookup_insert_eq.
        eexists; split; [reflexivity|]. repeat split; reflexivity. }
      destruct Hkeep as [Hk1 Hk2].
      destruct e; simpl; (split; [exact Hk1 | left; exact Hk2]).
Qed.

Lemma same_terms_refl swap : same_terms swap swap.
Proof. repeat split. Qed.

Lemma same_terms_trans a b c : same_terms a b -> same_terms b c -> same_terms a c.
Proof.
  intros (H1 & H2 & H3 & H4) (K1 & K2 & K3 & K4).
  repeat split; congruence.
Qed.

(** A reverse swap skips an output below the agreed amount. *)
Lemma step_low_value env l m txin swap :
  heap m !! l = Some swap ->
  is_reverse swap = true ->
  value_sats txin < onchain_amount swap ->
  step env l m txin = (m, Continue).
Proof.
  intros H Hrev Hlow. unfold claim_txin. rewrite H, Hrev.
  destruct (value_sats txin <? onchain_amount swap) eqn:E; [reflexivity | lia].
Qed.

(** Every claim the watcher builds for a reverse swap spends an output
    of at least the agreed amount. *)
Lemma step_funded env l m txin swap cur :
  heap m !! l = Some cur -> same_terms swap cur -> is_reverse swap = true ->
  (exists swap', heap (fst (step env l m txin)) !! l = Some swap' /\
                 same_terms swap swap') /\
  exists evs, events (fst (step env l m txin)) = events m ++ evs /\
              Forall (well_funded (onchain_amount swap)) evs.
Proof.
  intros H Hsame Hrev.
  destruct (step_spec env l m txin cur H) as [(swap' & Hh & Hs) Hev].
  split; [exists swap'; split; [exact Hh | eapply same_terms_trans; eauto]|].
  destruct Hev as [He | [[t He] | (tx & Hchk & _ & Hb & He)]].
  - exists []. rewrite He, app_nil_r. split; [reflexivity | constructor].
  - exists [EvBroadcastKnown t]. split; [exact He|].
    repeat constructor. intros tx [=].
  - exists [EvClaimTxSigned tx; EvAddTransaction tx]. split; [exact He|].
    apply build_ok in Hb as (_ & Hin & _).
    destruct Hsame as (Hr & Ha & _). rewrite Hr, Hrev, Ha in Hchk. simpl in Hchk.
    assert (Hge : onchain_amount swap <= value_sats txin) by lia.
    repeat constructor; intros tx' [= <-]; rewrite Hin;
      repeat constructor; exact Hge.
Qed.

Lemma loop_funded env l swap txos : forall m cur,
  heap m !! l = Some cur -> same_terms swap cur -> is_reverse swap = true ->
  (exists swap', heap (fst (loop env l m txos)) !! l = Some swap' /\
                 same_terms swap swap') /\
  exists evs, events (fst (loop env l m txos)) = events m ++ evs /\
              Forall (well_funded (onchain_amount swap)) evs.
Proof.
  induction txos as [|txin rest IH]; intros m cur H Hsame Hrev; simpl.
  - split; [exists cur; auto|]. exists []. rewrite app_nil_r.
    split; [reflexivity | constructor].
  - destruct (step_funded env l m txin swap cur H Hsame Hrev)
      as [(swap1 & Hh1 & Hs1) (evs1 & He1 & Hf1)].
    destruct (step env l m txin) as [m1 f] eqn:Hstep. simpl in *.
    destruct f.
    + destruct (IH m1 swap1 Hh1 Hs1 Hrev) as [Hrec (evs2 & He2 & Hf2)].
      split; [exact Hrec|]. exists (evs1 ++ evs2).
      rewrite He2, He1, app_assoc. split; [reflexivity|].
      apply Forall_app; split; assumption.
    + simpl. split; [exists swap1; auto|]. exists evs1. auto.
    + simpl. split; [exists swap1; auto|]. exists evs1. auto.
Qed.

Lemma claim_funded env l swap m cur :
  heap m !! l = Some cur -> same_terms swap cur -> is_reverse swap = true ->
  (exists swap', heap (fst (claim env l m)) !! l = Some swap' /\
                 same_terms swap swap') /\
  exists evs, events (fst (claim env l m)) = events m ++ evs /\
              Forall (well_funded (onchain_amount swap)) evs.
Proof.
  intros H Hsame Hrev. unfold _claim_swap.
  assert (Hnone : (exists swap', heap m !! l = Some swap' /\
                                 same_terms swap swap') /\
                  exists evs, events m = events m ++ evs /\
                              Forall (well_funded (onchain_amount swap)) evs).
  { split; [exists cur; auto|]. exists []. rewrite app_nil_r.
    split; [reflexivity | constructor]. }
  destruct (negb (up_to_date env)); [exact Hnone|]. rewrite H.
  pose proof (loop_funded env l swap (addr_outputs env (lockup_address cur))
                m cur H Hsame Hrev) as Hloop.
  destruct (loop env l m (addr_outputs env (lockup_address cur))) as [m1 f].
  destruct f; exact Hloop.
Qed.

Lemma watch_funded l swap views : forall m cur,
  heap m !! l = Some cur -> same_terms swap cur -> is_reverse swap = true ->
  (exists swap', heap (watching l m views) !! l = Some swap' /\
                 same_terms swap swap') /\
  exists evs, events (watching l m views) = events m ++ evs /\
              Forall (well_funded (onchain_amount swap)) evs.
Proof.
  induction views as [|env rest IH]; intros m cur H Hsame Hrev; simpl.
  - split; [exists cur; auto|]. exists []. rewrite app_nil_r.
    split; [reflexivity | constructor].
  - destruct (claim_funded env l swap m cur H Hsame Hrev)
      as [(swap1 & Hh1 & Hs1) (evs1 & He1 & Hf1)].
    destruct (IH _ swap1 Hh1 Hs1 Hrev) as [Hrec (evs2 & He2 & Hf2)].
    split; [exact Hrec|]. exists (evs1 ++ evs2).
    unfold watch in *. rewrite He2, He1, app_assoc. split; [reflexivity|].
    apply Forall_app; split; assumption.
Qed.

(** C3. For a reverse swap, an output worth less than the agreed
    on-chain amount is skipped: the loop body leaves the whole state
    as it was and goes on to the next output.  This stays so after any
    sequence of watcher invocations, and every claim transaction those
    invocations build or store spends an output of at least the agreed
    amount. *)
Theorem low_value_output_is_never_claimed :
  forall (l : loc) (m : manager) (swap : SwapData),
    heap m !! l = Some swap ->
    is_reverse swap = true ->
    (forall env txin,
        value_sats txin < onchain_amount swap ->
        step env l m txin = (m, Continue)) /\
    (forall views env txin,
        value_sats txin < onchain_amount swap ->
        step env l (watching l m views) txin
        = (watching l m views, Continue)) /\
    (forall views,
        exists evs,
          events (watching l m views) = events m ++ evs /\
          Forall (well_funded (onchain_amount swap)) evs).
Proof.
  intros l m swap H Hrev. split; [|split].
  - intros env txin Hlow. eapply step_low_value; eauto.
  - intros views env txin Hlow.
    destruct (watch_funded l swap views m swap H (same_terms_refl swap) Hrev)
      as [(swap' & Hh & Hr & Ha & _) _].
    eapply step_low_value; eauto; congruence.
  - intros views.
    exact (proj2 (watch_funded l swap views m swap H (same_terms_refl swap) Hrev)).
Qed.

(** Below the dust threshold the loop body builds nothing and does not fail. *)
Lemma step_below_dust env l m txin swap :
  heap m !! l = Some swap ->
  value_sats txin - claim_fee env < dust_threshold env ->
  (exists evs, events (fst (step env l m txin)) = events m ++ evs /\
               Forall (fun ev => claim_of ev = None) evs) /\
  (snd (step env l m txin) = Continue \/ snd (step env l m txin) = Return).
Proof.
  intros H Hdust. split.
  - destruct (step_spec env l m txin swap H)
      as [_ [He | [[t He] | (tx & _ & _ & Hb & _)]]].
    + exists []. rewrite He, app_nil_r. split; [reflexivity | constructor].
    + exists [EvBroadcastKnown t]. split; [exact He | repeat constructor].
    + rewrite build_below_dust in Hb by exact Hdust. discriminate.
  - unfold claim_txin. rewrite H.
    destruct (is_reverse swap && (value_sats txin <? onchain_amount swap));
      [left; reflexivity|].
    destruct (spent_height txin) as [sh|].
    + destruct (sh >? 0);
        [destruct (local_height env - sh >? REDEEM_AFTER_DOUBLE_SPENT_DELAY)
        |destruct (sh =? TX_HEIGHT_LOCAL);
         [destruct ((block_height txin >? 0) || allow_instant_swaps env)|]];
        left; reflexivity.
    + match goal with |- context [if ?b then _ else _] => destruct b end;
        [right; reflexivity|].
      rewrite build_below_dust by exact Hdust. left; reflexivity.
Qed.

(** The watcher's loop body never fails: the only exception the
    construction can raise there is [BelowDustLimit], which is caught,
    because the record was just given the output's transaction as its
    funding. *)
Lemma step_never_raises env l m txin e :
  snd (step env l m txin) <> Raised e.
Proof.
  unfold claim_txin.
  destruct (heap m !! l) as [swap|]; [|discriminate].
  destruct (is_reverse swap && (value_sats txin <? onchain_amount swap));
    [discriminate|].
  destruct (spent_height txin) as [sh|].
  - destruct (sh >? 0);
      [destruct (local_height env - sh >? REDEEM_AFTER_DOUBLE_SPENT_DELAY)
      |destruct (sh =? TX_HEIGHT_LOCAL);
       [destruct ((block_height txin >? 0) || allow_instant_swaps env)|]];
      discriminate.
  - match goal with |- context [if ?b then _ else _] => destruct b end;
      [discriminate|].
    unfold _create_and_sign_claim_tx.
    destruct (value_sats txin - claim_fee env <? dust_threshold env);
      [discriminate|].
    unfold sign_tx, create_claim_tx. simpl.
    rewrite bool_decide_eq_true_2 by reflexivity. discriminate.
Qed.

(** C7. A claim or refund transaction built for an output of value
    [V] with fee estimate [F] has the single output [V - F]; it is
    built whenever [V - F] reaches the dust threshold and the record
    names the output's transaction as its funding; and when [V - F] is
    below the threshold the construction raises [BelowDustLimit], the
    watcher builds and stores no transaction for that output and goes
    on. *)
Theorem claim_output_is_value_minus_fee :
  forall (env : chain_view) (txin : TxInput) (swap : SwapData),
    (forall tx,
        build env txin swap = Ok tx ->
        tx_outputs tx
        = [(receive_address swap, value_sats txin - claim_fee env)]) /\
    (dust_threshold env <= value_sats txin - claim_fee env ->
     funding_txid swap = Some (fst (prevout txin)) ->
     exists tx, build env txin swap = Ok tx) /\
    (value_sats txin - claim_fee env < dust_threshold env ->
     build env txin swap = Raise BelowDustLimit /\
     forall l m,
       heap m !! l = Some swap ->
       (exists evs, events (fst (step env l m txin)) = events m ++ evs /\
                    Forall (fun ev => claim_of ev = None) evs) /\
       (snd (step env l m txin) = Continue \/
        snd (step env l m txin) = Return)).
Proof.
  intros env txin swap. split; [|split].
  - intros tx Hb. apply build_ok in Hb as (_ & _ & Hout & _). exact Hout.
  - apply build_total.
  - intros Hdust. split; [apply build_below_dust; exact Hdust|].
    intros l m H. apply (step_below_dust env l m txin swap); assumption.
Qed.

(** *** Forward swap set-up *)

Local Abbreviation checks := (normal_swap_checks hash_160 script_to_p2wsh).
Local Abbreviation forward :=
  (normal_swap sha256 hex hash_160 script_to_p2wsh funding_txid_of
     ln_dummy_address).

(** A quote that passes the checks is within budget and times out in
    fewer than 144 blocks. *)
Lemma checks_ok env expected :
  checks env expected = Ok tt ->
  resp_onchain_amount env <= expected /\
  resp_locktime env - height env < 144.
Proof.
  unfold normal_swap_checks, mbind, result_bind.
  destruct (script_GetOp (resp_redeem_script env)) as [toks|e]; [|discriminate].
  repeat match goal with
         | |- context [if negb ?b then _ else _] => destruct b; simpl
         end; try discriminate.
  destruct (pushed toks 6) as [lt|]; [|discriminate].
  destruct (negb (resp_locktime env =? int_from_bytes_little lt));
    [discriminate|].
  destruct (resp_onchain_amount env >? expected) eqn:Hamt; [discriminate|].
  destruct (resp_locktime env - height env >=? 144) eqn:Hlt; [discriminate|].
  intros _. lia.
Qed.

(** C6. A quote asking for more than the declared budget, or timing
    out more than 144 blocks above the local height, makes
    [normal_swap] raise; the store, the three dictionaries and the
    callbacks are then as before, and the only calls made are the
    creation of the invoice and the request to the server: nothing is
    broadcast. *)
Theorem forward_swap_rejects_excessive_quote :
  forall (env : forward_env) (lightning_amount_sat expected : Z)
         (tx : option FundingTx) (m : manager),
    expected < resp_onchain_amount env \/
    144 < resp_locktime env - height env ->
    exists e,
      forward env lightning_amount_sat expected tx m
      = (emit m [EvCreatePaymentInfo (lightning_amount_sat * 1000);
                 EvCreateSwapRequest], Raise e) /\
      same_records m (fst (forward env lightning_amount_sat expected tx m)) /\
      Forall (fun ev => is_broadcast ev = false)
        (drop (length (events m))
           (events (fst (forward env lightning_amount_sat expected tx m)))).
Proof.
  intros env lightning_amount_sat expected tx m Hbad.
  unfold normal_swap.
  destruct (checks env expected) as [[]|e] eqn:Hc.
  { apply checks_ok in Hc. lia. }
  exists e. split; [reflexivity|]. simpl. split.
  - repeat split.
  - rewrite drop_app_length. repeat constructor.
Qed.

End Facts.

(** *** The theorems at concrete swaps *)

Import Examples.

Local Open Scope string_scope.

Local Abbreviation toy_step :=
  (claim_txin toy_sha256 toy_encode toy_sign toy_txid 30 (-2)).
Local Abbreviation toy_watch :=
  (watch toy_sha256 toy_encode toy_sign toy_txid 30 (-2)).
Local Abbreviation toy_forward :=
  (normal_swap toy_sha256 toy_encode toy_hash_160 toy_p2wsh toy_funding_txid
     "dummy").

Lemma holding_lookup s : heap (holding s) !! 1%positive = Some s.
Proof. apply lookup_singleton_eq. Qed.

(** An output of 49999 sat against an agreed 50000. *)
Lemma low_value_output_is_never_claimed_witness :
  toy_step (view [utxo 49999]) 1%positive (holding rswap) (utxo 49999)
  = (holding rswap, Continue).
Proof.
  apply (proj1 (low_value_output_is_never_claimed toy_sha256 toy_encode
                  toy_sign toy_txid 30 (-2) 1%positive (holding rswap) rswap
                  (holding_lookup rswap) eq_refl)).
  vm_compute. reflexivity.
Defined.

(** The watcher does claim the output that pays in full, and only it. *)
Example full_value_output_is_claimed :
  claim_of <$>
    events (toy_watch 1%positive (holding rswap) [view [utxo 49999; utxo 50000]])
  = [Some {| tx_inputs := [utxo 50000];
             tx_witness_script := script_size_32;
             tx_outputs := [("mine", 49864%Z)];
             tx_version := 2; tx_locktime := 0; tx_rbf := true;
             tx_witness := Some (replicate 32 Byte.x07,
                                 Some (replicate 32 Byte.x01),
                                 script_size_32) |};
     Some {| tx_inputs := [utxo 50000];
             tx_witness_script := script_size_32;
             tx_outputs := [("mine", 49864%Z)];
             tx_version := 2; tx_locktime := 0; tx_rbf := true;
             tx_witness := Some (replicate 32 Byte.x07,
                                 Some (replicate 32 Byte.x01),
                                 script_size_32) |}].
Proof. vm_compute. reflexivity. Qed.

(** 50000 sat less a fee of 136; and 600 sat, which leaves dust. *)
Lemma claim_output_is_value_minus_fee_witness :
  (exists tx,
      _create_and_sign_claim_tx toy_sign (view []) (utxo 50000) rswap_funded
      = Ok tx /\
      tx_outputs tx = [("mine", 49864%Z)]) /\
  _create_and_sign_claim_tx toy_sign (view []) (utxo 600) rswap_funded
  = Raise BelowDustLimit.
Proof.
  split.
  - destruct (claim_output_is_value_minus_fee toy_sha256 toy_encode toy_sign
                toy_txid 30 (-2) (view []) (utxo 50000) rswap_funded)
      as (Hout & Htotal & _).
    destruct Htotal as [tx Htx]; [vm_compute; discriminate | reflexivity |].
    exists tx. split; [exact Htx|]. exact (Hout tx Htx).
  - apply (proj2 (proj2 (claim_output_is_value_minus_fee toy_sha256 toy_encode
                           toy_sign toy_txid 30 (-2) (view []) (utxo 600)
                           rswap_funded))).
    vm_compute. reflexivity.
Defined.

(** A quote of 50001 sat against a budget of 50000, all else in order. *)
Lemma forward_swap_rejects_excessive_quote_witness :
  exists e,
    toy_forward (quote 50001 99900) 49000 50000 None empty_manager
    = (emit empty_manager [EvCreatePaymentInfo 49000000; EvCreateSwapRequest],
       Raise e).
Proof.
  destruct (forward_swap_rejects_excessive_quote toy_sha256 toy_encode
              toy_hash_160 toy_p2wsh toy_funding_txid "dummy"
              (quote 50001 99900) 49000 50000 None empty_manager)
    as (e & He & _).
  - left. vm_compute. reflexivity.
  - exists e. exact He.
Defined.

(** The same quote within budget is accepted, stored and broadcast;
    at 144 blocks to the timeout it is refused. *)
Example forward_swap_accepts_good_quote :
  snd (toy_forward (quote 50000 99900) 49000 50000 None empty_manager)
    = Ok "funding" /\
  size (swaps (fst (toy_forward (quote 50000 99900) 49000 50000 None
                      empty_manager))) = 1%nat /\
  is_raise (snd (toy_forward (quote 50000 99856) 49000 50000 None
                   empty_manager)) = true /\
  is_raise (snd (toy_forward (quote 50000 99857) 49000 50000 None
                   empty_manager)) = false.
Proof. repeat split; vm_compute; reflexivity. Qed.

(** The reverse swap before and after the watcher recorded its funding. *)
Lemma reindex_keys_on_funding_prevout_witness :
  _swaps_by_funding_outpoint
    (_add_or_reindex_swap toy_sha256 toy_encode (holding rswap) 1)
  = _swaps_by_funding_outpoint (holding rswap) /\
  _swaps_by_funding_outpoint
    (_add_or_reindex_swap toy_sha256 toy_encode (holding rswap_funded) 1)
    !! ("f00d", 0%Z) = Some 1%positive.
Proof.
  split.
  - apply (proj1 (reindex_keys_on_funding_prevout toy_sha256 toy_encode
                    (holding rswap) 1%positive rswap (holding_lookup rswap))).
    reflexivity.
  - apply (proj1 (proj2 (reindex_keys_on_funding_prevout toy_sha256 toy_encode
                    (holding rswap_funded) 1%positive rswap_funded
                    (holding_lookup rswap_funded)))).
    reflexivity.
Defined.

(** Against C9 as stated: the record was added with [funding_txid]
    unset, [funding_txid] was then assigned, as on a record read back
    from storage, and the record was added again; the funding-outpoint
    index is still empty. *)
Lemma reindex_after_funding_txid_counterexample :
  funding_txid <$> (heap reindexed_by_txid_only !! 1%positive)
    = Some (Some "f00d") /\
  _swaps_by_funding_outpoint reindexed_by_txid_only = ∅.
Proof. split; vm_compute; reflexivity. Qed.

(** C4. The reverse-swap template takes a script whose guarded branch
    compares the size of the preimage with 33: the operand after
    [OP_SIZE] is a push slot without a predicate, and none of the
    checks [reverse_swap] makes on the parsed script reads it.  The
    same holds for every one-byte operand. *)
Theorem reverse_template_accepts_size_33 :
  match_script_against_template script_size_33 WITNESS_TEMPLATE_REVERSE_SWAP
    = true /\
  (toks ← script_GetOp script_size_33; Ok (pushed toks 1))
    = Ok (Some [Byte.x21]) /\
  reverse_swap_script_checks toy_hash_160 toy_p2wsh script_size_33 "addr"
    (replicate 32 Byte.x01) (key33 Byte.xaa) 100000 = Ok tt /\
  forall b : Byte.byte,
    match_script_against_template
      (reverse_script [b] digest20 (key33 Byte.xaa) height3 (key33 Byte.xbb))
      WITNESS_TEMPLATE_REVERSE_SWAP = true.
Proof.
  split; [vm_compute; reflexivity|].
  split; [vm_compute; reflexivity|].
  split; [vm_compute; reflexivity|].
  intros b. destruct b; vm_compute; reflexivity.
Qed.

End SwapFacts.

(** ** More properties of the fee calculator *)

Module FeeCalcMore.
Import FeeCalc FeeCalcExt FeeCalcFacts.

Lemma positive_not_zero (q : Q) : (0 < q)%Q -> Qeq_bool q 0 = false.
Proof.
  intros H. destruct (Qeq_bool q 0) eqn:E; [|reflexivity].
  apply Qeq_bool_eq in E. rewrite E in H. discriminate.
Qed.


Lemma check_invoice_amount_spec c x :
  check_invoice_amount c x = true <-> min_amount c <= x <= max_amount c.
Proof. unfold check_invoice_amount. rewrite andb_true_iff. lia. Qed.


(** The reverse [_get_recv_amount] undoes [_get_send_amount] exactly,
    unless the amount asked for is below the dust threshold. *)
Lemma reverse_send_then_recv c t s :
  (0 <= percentage c)%Q -> (percentage c < 100)%Q ->
  _get_send_amount c (Some t) true = Ok (Some s) ->
  _get_recv_amount c (Some s) true
  = Ok (if t <? dust c then None else Some t).
Proof.
  intros Hlo Hhi. unfold _get_recv_amount, _get_send_amount.
  set (p := percentage c) in *.
  destruct (t =? 0); [discriminate|].
  set (d := ((100 - p) / 100)%Q).
  assert (Hd : (d == (100 - p) * (1 # 100))%Q) by reflexivity.
  assert (Hdpos : (0 < d)%Q) by (rewrite Hd; clearbody p; lra).
  rewrite positive_not_zero by exact Hdpos.
  destruct (ceil_div_bounds (inject_Z (t + lockup_fee c)) d) as [B1 B2];
    [exact Hdpos|].
  set (s1 := Qceiling (inject_Z (t + lockup_fee c) / d)) in *.
  destruct (negb (check_invoice_amount c s1)) eqn:Hchk; [discriminate|].
  intros [= <-]. rewrite Hchk.
  set (g := Qceiling (p * inject_Z s1 / 100)).
  rewrite Hd in B1, B2.
  assert (Hup : g <= s1 - (t + lockup_fee c)).
  { subst g. apply ceil_le. apply Qle_shift_div_r; [reflexivity|].
    unfold Z.sub. rewrite inject_Z_plus, inject_Z_opp.
    clearbody s1 p. clear Hd Hdpos. clear d. lra. }
  assert (Hdown : s1 - (t + lockup_fee c) - 1 < g).
  { subst g. apply ceil_gt. apply Qlt_shift_div_l; [reflexivity|].
    unfold Z.sub. rewrite !inject_Z_plus, !inject_Z_opp.
    change (inject_Z 1) with 1%Q.
    clearbody s1 p. clear Hd Hdpos. clear d. lra. }
  replace (s1 - (g + lockup_fee c)) with t by lia.
  destruct (t <? dust c); reflexivity.
Qed.




(** X2. Asked in the reverse direction for an amount that, with the claim
    fee, is below the dust threshold while the matching send amount is
    within the limits, [get_send_amount] does not answer [None]: it
    raises its sanity exception. *)
Theorem get_send_amount_below_dust_raises :
  forall (c : config) (r s : Z),
    (0 <= percentage c)%Q -> (percentage c < 100)%Q ->
    r + claim_fee c < dust c ->
    _get_send_amount c (Some (r + claim_fee c)) true = Ok (Some s) ->
    get_send_amount c (Some r) true = Raise CalcInvertSanityCheck.
Proof.
  intros c r s Hlo Hhi Hdust Hs.
  pose proof (reverse_send_then_recv c _ s Hlo Hhi Hs) as Hr.
  destruct (r + claim_fee c <? dust c) eqn:E; [|lia].
  unfold get_send_amount; unbind. rewrite Hs, Hr.
  destruct (decide (Some (r + claim_fee c) = None)); [discriminate|reflexivity].
Qed.

Lemma get_send_amount_below_dust_raises_witness :
  get_send_amount small (Some 100) true = Raise CalcInvertSanityCheck.
Proof.
  apply (get_send_amount_below_dust_raises small 100 102).
  - vm_compute. discriminate.
  - vm_compute. reflexivity.
  - vm_compute. reflexivity.
  - vm_compute. reflexivity.
Defined.

(** X3. Whatever the calculator returns, the amount on the Lightning side
    is within the provider's limits: the result of a forward
    [get_recv_amount], the argument of a reverse one, the result of a
    reverse [get_send_amount] and the argument of a forward one. *)
Theorem lightning_amount_within_limits :
  forall (c : config) (a b : Z),
    (get_recv_amount c (Some a) false = Ok (Some b) ->
     min_amount c <= b <= max_amount c) /\
    (get_recv_amount c (Some a) true = Ok (Some b) ->
     min_amount c <= a <= max_amount c /\ dust c <= b + claim_fee c) /\
    (get_send_amount c (Some a) true = Ok (Some b) ->
     min_amount c <= b <= max_amount c) /\
    (get_send_amount c (Some a) false = Ok (Some b) ->
     min_amount c <= a <= max_amount c /\ a <> 0).
Proof.
  intros c a b. split; [|split; [|split]].
  - intros H.
    apply get_recv_amount_inv in H as (s & r0 & i & [= <-] & Hr & _ & _ & ->).
    revert Hr. unfold _get_recv_amount.
    destruct (Qeq_bool _ _); [discriminate|].
    destruct (negb (check_invoice_amount c _)) eqn:E; [discriminate|].
    intros [= <-]. apply negb_false_iff, check_invoice_amount_spec in E. lia.
  - intros H.
    apply get_recv_amount_inv in H as (s & r0 & i & [= <-] & Hr & _ & _ & ->).
    revert Hr. unfold _get_recv_amount.
    destruct (negb (check_invoice_amount c a)) eqn:E; [discriminate|].
    apply negb_false_iff, check_invoice_amount_spec in E.
    destruct (_ <? dust c) eqn:E2; [discriminate|].
    intros [= <-]. lia.
  - intros H. apply get_send_amount_inv in H as (r & [= <-] & Hs & _).
    revert Hs. cbv zeta. unfold _get_send_amount.
    destruct (_ =? 0); [discriminate|].
    destruct (Qeq_bool _ _); [discriminate|].
    destruct (negb (check_invoice_amount c _)) eqn:E; [discriminate|].
    intros [= <-]. apply negb_false_iff, check_invoice_amount_spec in E. lia.
  - intros H. apply get_send_amount_inv in H as (r & [= <-] & Hs & _).
    revert Hs. cbv zeta. unfold _get_send_amount.
    destruct (a =? 0) eqn:E0; [discriminate|].
    destruct (negb (check_invoice_amount c a)) eqn:E; [discriminate|].
    intros _. apply negb_false_iff, check_invoice_amount_spec in E. lia.
Qed.

Lemma lightning_amount_within_limits_witness :
  min_amount sample <= 98009 <= max_amount sample.
Proof.
  apply (proj1 (lightning_amount_within_limits sample 100000 98009)).
  vm_compute. reflexivity.
Defined.








End FeeCalcMore.

(** ** Properties of the [decimal] rounding *)

Module DecimalFacts.
Import Decimal.

(** The digit count. *)

Lemma digits_from_pos fuel : forall n, 1 <= digits_from fuel n.
Proof.
  induction fuel as [|fuel IH]; intros n; cbn [digits_from]; [lia|].
  destruct (n <? 10); [lia|]. specialize (IH (n / 10)). lia.
Qed.

Lemma digits_from_spec fuel : forall n,
  0 < n -> n < 10 ^ (Z.of_nat fuel + 1) ->
  10 ^ (digits_from fuel n - 1) <= n < 10 ^ digits_from fuel n.
Proof.
  induction fuel as [|fuel IH]; intros n Hpos Hlt.
  - simpl in *. lia.
  - cbn [digits_from]. destruct (n <? 10) eqn:E.
    + apply Z.ltb_lt in E. simpl. lia.
    + apply Z.ltb_ge in E.
      assert (H10 : 0 < n / 10) by (apply Z.div_str_pos; lia).
      assert (Hlt' : n / 10 < 10 ^ (Z.of_nat fuel + 1)).
      { apply Z.div_lt_upper_bound; [lia|].
        rewrite <- Z.pow_succ_r by lia.
        replace (Z.succ (Z.of_nat fuel + 1)) with (Z.of_nat (S fuel) + 1) by lia.
        exact Hlt. }
      destruct (IH (n / 10) H10 Hlt') as [L U].
      pose proof (digits_from_pos fuel (n / 10)) as Hd.
      set (d := digits_from fuel (n / 10)) in *.
      replace (1 + d - 1) with (Z.succ (d - 1)) by lia.
      replace (1 + d) with (Z.succ d) by lia.
      rewrite !Z.pow_succ_r by lia.
      pose proof (Z.mul_div_le n 10 ltac:(lia)).
      pose proof (Z.mul_succ_div_gt n 10 ltac:(lia)).
      lia.
Qed.

Lemma digits_spec n : 0 < n -> 10 ^ (digits n - 1) <= n < 10 ^ digits n.
Proof.
  intros Hpos. unfold digits. apply digits_from_spec; [exact Hpos|].
  rewrite Z2Nat.id by apply Z.log2_nonneg.
  destruct (Z.log2_spec n Hpos) as [_ U].
  eapply Z.lt_le_trans; [exact U|].
  replace (Z.succ (Z.log2 n)) with (Z.log2 n + 1) by lia.
  apply Z.pow_le_mono_l. lia.
Qed.

Lemma digits_pos n : 1 <= digits n.
Proof. apply digits_from_pos. Qed.


Local Open Scope Q_scope.

Lemma ten_neq_0 : ~ 10 == 0.
Proof. discriminate. Qed.

Lemma pow10_pos e : 0 < 10 ^ e.
Proof. apply Qpower_0_lt. reflexivity. Qed.

Lemma pow10_add a b : 10 ^ (a + b) == 10 ^ a * 10 ^ b.
Proof. apply Qpower_plus. exact ten_neq_0. Qed.

Lemma pow10_sub a b : 10 ^ (a - b) == 10 ^ a / 10 ^ b.
Proof. apply Qpower_minus. exact ten_neq_0. Qed.

Lemma pow10_lt a b : (a < b)%Z -> 10 ^ a < 10 ^ b.
Proof. intros H. apply Qpower_lt_compat_l; [exact H | reflexivity]. Qed.

Lemma pow10_le a b : (a <= b)%Z -> 10 ^ a <= 10 ^ b.
Proof. intros H. apply Qpower_le_compat_l; [exact H | discriminate]. Qed.

Lemma pow10_lt_inv a b : 10 ^ a < 10 ^ b -> (a < b)%Z.
Proof. intros H. apply (Qpower_lt_compat_l_inv 10); [exact H | reflexivity]. Qed.

Lemma pow10_Z n : (0 <= n)%Z -> inject_Z (10 ^ n) == 10 ^ n.
Proof. intros H. apply (Zpower_Qpower 10 n H). Qed.

Lemma pow10_cancel e : 10 ^ e * 10 ^ (- e) == 1.
Proof. rewrite <- pow10_add. rewrite Z.add_opp_diag_r. reflexivity. Qed.

(** The decade of a positive value is unique. *)
Lemma decade_unique (x : Q) (m m' : Z) :
  10 ^ m <= x -> x < 10 ^ (m + 1) ->
  10 ^ m' <= x -> x < 10 ^ (m' + 1) -> m = m'.
Proof.
  intros L U L' U'.
  assert (H1 : (m < m' + 1)%Z) by (apply pow10_lt_inv; lra).
  assert (H2 : (m' < m + 1)%Z) by (apply pow10_lt_inv; lra).
  lia.
Qed.

Lemma magnitude_spec (x : Q) :
  0 < x -> 10 ^ magnitude x <= x /\ x < 10 ^ (magnitude x + 1).
Proof.
  intros Hpos. unfold magnitude.
  destruct x as [n d]. cbn [Qnum Qden].
  assert (Hn : (0 < n)%Z).
  { unfold Qlt in Hpos. simpl in Hpos. lia. }
  destruct (digits_spec n Hn) as [Ln Un].
  destruct (digits_spec (Zpos d) eq_refl) as [Ld Ud].
  pose proof (digits_pos n) as Pn. pose proof (digits_pos (Zpos d)) as Pd.
  set (dn := digits n) in *. set (dd := digits (Zpos d)) in *.
  set (k := (dn - dd)%Z).
  rewrite Zle_Qle, pow10_Z in Ln, Ld by lia.
  rewrite Zlt_Qlt, pow10_Z in Un, Ud by lia.
  assert (Hx : n # d == inject_Z n / inject_Z (Zpos d)) by apply Qmake_Qdiv.
  assert (Hd0 : 0 < inject_Z (Zpos d)) by reflexivity.
  set (N := inject_Z n) in *. set (D := inject_Z (Zpos d)) in *.
  assert (Up : n # d < 10 ^ (k + 1)).
  { rewrite Hx. apply Qlt_shift_div_r; [exact Hd0|].
    assert (E : 10 ^ dn == 10 ^ (k + 1) * 10 ^ (dd - 1)).
    { rewrite <- pow10_add. apply Qpower_comp; [reflexivity | lia]. }
    pose proof (pow10_pos (k + 1)).
    apply Qlt_le_trans with (10 ^ dn); [exact Un|].
    rewrite E. apply Qmult_le_l; assumption. }
  assert (Lo : 10 ^ (k - 1) <= n # d).
  { rewrite Hx. apply Qle_shift_div_l; [exact Hd0|].
    assert (E : 10 ^ (dn - 1) == 10 ^ (k - 1) * 10 ^ dd).
    { rewrite <- pow10_add. apply Qpower_comp; [reflexivity | lia]. }
    pose proof (pow10_pos (k - 1)).
    apply Qle_trans with (10 ^ (dn - 1)); [|exact Ln].
    rewrite E. apply Qmult_le_l; [assumption | apply Qlt_le_weak; exact Ud]. }
  destruct (Qle_bool (10 ^ k) (n # d)) eqn:E.
  - apply Qle_bool_iff in E. split; assumption.
  - assert (Hlt : n # d < 10 ^ k).
    { apply Qnot_le_lt. intros H. apply Qle_bool_iff in H. congruence. }
    split; [exact Lo|].
    replace (k - 1 + 1)%Z with k by lia. exact Hlt.
Qed.

Lemma magnitude_eq (x : Q) (m : Z) :
  10 ^ m <= x -> x < 10 ^ (m + 1) -> magnitude x = m.
Proof.
  intros L U.
  assert (Hpos : 0 < x) by (pose proof (pow10_pos m); lra).
  destruct (magnitude_spec x Hpos) as [L' U'].
  exact (decade_unique x _ _ L' U' L U).
Qed.

Lemma magnitude_comp (x y : Q) : 0 < x -> x == y -> magnitude x = magnitude y.
Proof.
  intros Hpos E. destruct (magnitude_spec x Hpos) as [L U].
  symmetry. apply magnitude_eq; rewrite <- E; assumption.
Qed.

Lemma magnitude_mono (x y : Q) :
  0 < x -> x <= y -> (magnitude x <= magnitude y)%Z.
Proof.
  intros Hpos Hle.
  destruct (magnitude_spec x Hpos) as [L _].
  destruct (magnitude_spec y) as [_ U]; [lra|].
  assert (H : (magnitude x < magnitude y + 1)%Z) by (apply pow10_lt_inv; lra).
  lia.
Qed.

(** Rounding to the nearest integer, ties to even. *)

Lemma round_half_even_comp (x y : Q) :
  x == y -> round_half_even x = round_half_even y.
Proof.
  intros E. unfold round_half_even.
  rewrite (Qfloor_comp x y E).
  assert (E' : x - inject_Z (Qfloor y) == y - inject_Z (Qfloor y))
    by (rewrite E; reflexivity).
  rewrite (Qcompare_comp _ _ E' (1 # 2) (1 # 2) (Qeq_refl _)).
  reflexivity.
Qed.

Lemma round_half_even_Z (z : Z) : round_half_even (inject_Z z) = z.
Proof.
  unfold round_half_even. rewrite Qfloor_Z.
  assert (E : (inject_Z z - inject_Z z ?= 1 # 2) = Lt).
  { apply (proj1 (Qlt_alt _ _)). set (q := inject_Z z). lra. }
  rewrite E. reflexivity.
Qed.

Lemma round_half_even_cases (x : Q) :
  round_half_even x = Qfloor x /\ x - inject_Z (Qfloor x) <= 1 # 2 \/
  round_half_even x = (Qfloor x + 1)%Z /\ 1 # 2 <= x - inject_Z (Qfloor x).
Proof.
  unfold round_half_even.
  destruct (Qcompare_spec (x - inject_Z (Qfloor x)) (1 # 2)) as [E|E|E].
  - destruct (Z.even (Qfloor x)); [left | right]; split; try reflexivity;
      rewrite E; apply Qle_refl.
  - left. split; [reflexivity | lra].
  - right. split; [reflexivity | lra].
Qed.

Lemma round_half_even_mono (x y : Q) :
  x <= y -> (round_half_even x <= round_half_even y)%Z.
Proof.
  intros Hle. pose proof (Qfloor_resp_le x y Hle) as Hf.
  destruct (Z.eq_dec (Qfloor x) (Qfloor y)) as [Eq|Ne].
  - unfold round_half_even. rewrite <- Eq.
    destruct (Qcompare_spec (x - inject_Z (Qfloor x)) (1 # 2)) as [E|E|E];
      destruct (Qcompare_spec (y - inject_Z (Qfloor x)) (1 # 2)) as [E'|E'|E'];
      try (destruct (Z.even (Qfloor x))); try lia; exfalso; lra.
  - destruct (round_half_even_cases x) as [[-> _]|[-> _]];
      destruct (round_half_even_cases y) as [[-> _]|[-> _]]; lia.
Qed.


(** Rounding a positive value to [prec] digits. *)

Lemma scaled_bounds (x : Q) (e : Z) :
  0 < x -> e = (magnitude x - 27)%Z ->
  10 ^ 27 <= x / 10 ^ e /\ x / 10 ^ e < 10 ^ 28.
Proof.
  intros Hpos ->. destruct (magnitude_spec x Hpos) as [L U].
  set (m := magnitude x) in *.
  pose proof (pow10_pos (m - 27)) as He.
  split.
  - apply Qle_shift_div_l; [exact He|].
    rewrite <- pow10_add. replace (27 + (m - 27))%Z with m by lia. exact L.
  - apply Qlt_shift_div_r; [exact He|].
    rewrite <- pow10_add. replace (28 + (m - 27))%Z with (m + 1)%Z by lia.
    exact U.
Qed.

Lemma coefficient_bounds (x : Q) :
  10 ^ 27 <= x -> x <= 10 ^ 28 ->
  10 ^ 27 <= inject_Z (round_half_even x) /\
  inject_Z (round_half_even x) <= 10 ^ 28.
Proof.
  intros L U.
  rewrite <- (pow10_Z 27) in L by lia. rewrite <- (pow10_Z 28) in U by lia.
  apply round_half_even_mono in L, U.
  rewrite round_half_even_Z in L, U.
  rewrite <- (pow10_Z 27), <- (pow10_Z 28) by lia.
  rewrite <- !Zle_Qle. split; assumption.
Qed.

Lemma round_pos_bounds (x : Q) :
  0 < x ->
  10 ^ magnitude x <= round_pos x /\ round_pos x <= 10 ^ (magnitude x + 1).
Proof.
  intros Hpos. unfold round_pos. change (prec - 1)%Z with 27%Z.
  set (e := (magnitude x - 27)%Z).
  destruct (scaled_bounds x e Hpos eq_refl) as [L U].
  destruct (coefficient_bounds (x / 10 ^ e) L (Qlt_le_weak _ _ U)) as [L' U'].
  pose proof (pow10_pos e) as He.
  split.
  - replace (magnitude x) with (27 + e)%Z by (subst e; lia).
    rewrite pow10_add. apply Qmult_le_compat_r; [exact L' | lra].
  - replace (magnitude x + 1)%Z with (28 + e)%Z by (subst e; lia).
    rewrite pow10_add. apply Qmult_le_compat_r; [exact U' | lra].
Qed.

Lemma round_pos_comp (x y : Q) :
  0 < x -> x == y -> round_pos x == round_pos y.
Proof.
  intros Hpos E. unfold round_pos.
  rewrite (magnitude_comp x y Hpos E).
  rewrite (round_half_even_comp (x / 10 ^ (magnitude y - (prec - 1)))
             (y / 10 ^ (magnitude y - (prec - 1)))) by (rewrite E; reflexivity).
  reflexivity.
Qed.

Lemma round_pos_mono (x y : Q) :
  0 < x -> x <= y -> round_pos x <= round_pos y.
Proof.
  intros Hpos Hle.
  assert (Hy : 0 < y) by lra.
  pose proof (magnitude_mono x y Hpos Hle) as Hm.
  destruct (Z.eq_dec (magnitude x) (magnitude y)) as [Eq|Ne].
  - unfold round_pos. rewrite Eq.
    set (e := (magnitude y - (prec - 1))%Z).
    pose proof (pow10_pos e) as He.
    apply Qmult_le_compat_r; [|lra].
    rewrite <- Zle_Qle. apply round_half_even_mono.
    apply Qmult_le_compat_r; [exact Hle|].
    apply Qlt_le_weak, Qinv_lt_0_compat. exact He.
  - destruct (round_pos_bounds x Hpos) as [_ U].
    destruct (round_pos_bounds y Hy) as [L _].
    assert (H : 10 ^ (magnitude x + 1) <= 10 ^ magnitude y)
      by (apply pow10_le; lia).
    lra.
Qed.

Lemma round_pos_exact (z j : Z) :
  (0 < z < 10 ^ 28)%Z ->
  round_pos (inject_Z z * 10 ^ j) == inject_Z z * 10 ^ j.
Proof.
  intros [Hz0 Hz]. set (x := inject_Z z * 10 ^ j).
  assert (Hzq : 0 < inject_Z z).
  { change 0 with (inject_Z 0). rewrite <- Zlt_Qlt. exact Hz0. }
  assert (Hzu : inject_Z z < 10 ^ 28).
  { rewrite <- (pow10_Z 28) by lia. rewrite <- Zlt_Qlt. exact Hz. }
  pose proof (pow10_pos j) as Hj.
  assert (Hpos : 0 < x) by (subst x; apply Qmult_lt_0_compat; assumption).
  destruct (magnitude_spec x Hpos) as [L _].
  assert (Hm : (magnitude x < j + 28)%Z).
  { apply pow10_lt_inv. apply Qle_lt_trans with x; [exact L|].
    subst x. rewrite (Z.add_comm j 28), pow10_add.
    apply Qmult_lt_compat_r; assumption. }
  unfold round_pos. change (prec - 1)%Z with 27%Z.
  set (e := (magnitude x - 27)%Z).
  assert (Hk : (0 <= j - e)%Z) by (subst e; lia).
  assert (Hs : x / 10 ^ e == inject_Z (z * 10 ^ (j - e))).
  { rewrite inject_Z_mult, pow10_Z by exact Hk.
    rewrite pow10_sub. subst x. unfold Qdiv.
    rewrite Qmult_assoc. reflexivity. }
  rewrite (round_half_even_comp _ _ Hs), round_half_even_Z.
  rewrite inject_Z_mult, pow10_Z by exact Hk.
  rewrite <- Qmult_assoc, <- pow10_add.
  replace (j - e + e)%Z with j by lia. reflexivity.
Qed.

(** The operation results: rounding is monotone, respects equality of
    rationals, commutes with negation and leaves a value with at most
    [prec] digits unchanged. *)

Lemma round_0 (q : Q) : q == 0 -> round q == 0.
Proof.
  intros E. unfold round.
  rewrite (proj1 (Qeq_alt q 0) E). reflexivity.
Qed.

Lemma round_of_pos (q : Q) : 0 < q -> round q = round_pos q.
Proof.
  intros H. unfold round.
  rewrite (proj1 (Qgt_alt q 0) H). reflexivity.
Qed.

Lemma round_of_neg (q : Q) : q < 0 -> round q = - round_pos (- q).
Proof.
  intros H. unfold round.
  rewrite (proj1 (Qlt_alt q 0) H). reflexivity.
Qed.

Lemma round_pos_pos (x : Q) : 0 < x -> 0 < round_pos x.
Proof.
  intros H. destruct (round_pos_bounds x H) as [L _].
  pose proof (pow10_pos (magnitude x)). lra.
Qed.

Lemma round_comp (a b : Q) : a == b -> round a == round b.
Proof.
  intros E. destruct (Q_dec a 0) as [[H|H]|H].
  - rewrite (round_of_neg a H), (round_of_neg b) by (rewrite <- E; exact H).
    apply Qopp_comp. apply round_pos_comp; [lra | rewrite E; reflexivity].
  - rewrite (round_of_pos a H), (round_of_pos b) by (rewrite <- E; exact H).
    apply round_pos_comp; assumption.
  - rewrite (round_0 a H), (round_0 b) by (rewrite <- E; exact H).
    reflexivity.
Qed.

#[global] Instance round_proper : Proper (Qeq ==> Qeq) round.
Proof. intros a b E. apply round_comp. exact E. Qed.

Lemma round_opp (q : Q) : round (- q) == - round q.
Proof.
  destruct (Q_dec q 0) as [[H|H]|H].
  - rewrite (round_of_neg q H), (round_of_pos (- q)) by lra.
    rewrite Qopp_involutive. reflexivity.
  - rewrite (round_of_pos q H), (round_of_neg (- q)) by lra.
    apply Qopp_comp. apply round_pos_comp; [lra|]. apply Qopp_involutive.
  - rewrite (round_0 q H), (round_0 (- q)) by (rewrite H; reflexivity).
    reflexivity.
Qed.

Lemma round_sign (q : Q) :
  (0 < q -> 0 < round q) /\ (q < 0 -> round q < 0).
Proof.
  split; intros H.
  - rewrite (round_of_pos q H). apply round_pos_pos. exact H.
  - rewrite (round_of_neg q H).
    pose proof (round_pos_pos (- q) ltac:(lra)). lra.
Qed.

Lemma round_mono (a b : Q) : a <= b -> round a <= round b.
Proof.
  intros Hle.
  destruct (Q_dec a 0) as [[Ha|Ha]|Ha]; destruct (Q_dec b 0) as [[Hb|Hb]|Hb];
    try (exfalso; lra).
  - rewrite (round_of_neg a Ha), (round_of_neg b Hb).
    apply Qopp_le_compat. apply round_pos_mono; lra.
  - pose proof (proj2 (round_sign a) Ha). pose proof (proj1 (round_sign b) Hb).
    lra.
  - pose proof (proj2 (round_sign a) Ha). rewrite (round_0 b Hb). lra.
  - rewrite (round_of_pos a Ha), (round_of_pos b Hb).
    apply round_pos_mono; assumption.
  - pose proof (proj1 (round_sign b) Hb). rewrite (round_0 a Ha). lra.
  - rewrite (round_0 a Ha), (round_0 b Hb). apply Qle_refl.
Qed.

Lemma round_exact (z j : Z) :
  (Z.abs z < 10 ^ 28)%Z ->
  round (inject_Z z * 10 ^ j) == inject_Z z * 10 ^ j.
Proof.
  intros Hz. pose proof (pow10_pos j) as Hj.
  destruct (Z.lt_trichotomy z 0) as [Hneg|[->|Hpos]].
  - assert (E : inject_Z z * 10 ^ j == - (inject_Z (- z) * 10 ^ j)).
    { rewrite inject_Z_opp. ring. }
    rewrite E, round_opp.
    assert (H : 0 < inject_Z (- z) * 10 ^ j).
    { apply Qmult_lt_0_compat; [|exact Hj].
      change 0 with (inject_Z 0). rewrite <- Zlt_Qlt. lia. }
    rewrite (round_of_pos _ H). apply Qopp_comp.
    apply round_pos_exact. lia.
  - assert (E : inject_Z 0 * 10 ^ j == 0) by ring.
    rewrite E at 2. apply round_0. exact E.
  - assert (H : 0 < inject_Z z * 10 ^ j).
    { apply Qmult_lt_0_compat; [|exact Hj].
      change 0 with (inject_Z 0). rewrite <- Zlt_Qlt. lia. }
    rewrite (round_of_pos _ H). apply round_pos_exact. lia.
Qed.

Lemma round_exact_Z (z : Z) :
  (Z.abs z < 10 ^ 28)%Z -> round (inject_Z z) == inject_Z z.
Proof.
  intros Hz. pose proof (round_exact z 0 Hz) as H.
  assert (E : inject_Z z * 10 ^ 0 == inject_Z z) by (simpl; ring).
  rewrite E in H. exact H.
Qed.

End DecimalFacts.

(** ** More properties of the swap manager *)

Module SwapMore.
Import Script Swaps SwapsExt SwapFacts.

Lemma same_swap_refl s : same_swap s s.
Proof. repeat split. Qed.

Lemma same_swap_trans a b c : same_swap a b -> same_swap b c -> same_swap a c.
Proof.
  unfold same_swap. intros H K.
  destruct H as (?&?&?&?&?&?&?&?&?&?), K as (?&?&?&?&?&?&?&?&?&?).
  repeat split; congruence.
Qed.

Lemma same_swap_terms a b : same_swap a b -> same_terms a b.
Proof.
  intros (?&?&?&?&?&?&?&?&?&?). repeat split; assumption.
Qed.

Lemma settled_refl s : settled s s.
Proof. repeat split; auto. Qed.

Lemma settled_trans a b c : settled a b -> settled b c -> settled a c.
Proof. intros (?&?&?) (?&?&?). repeat split; auto. Qed.

Section Facts.
Variable sha256 : bytes -> bytes.
Variable hex : bytes -> string.
Variable hash_160 : bytes -> bytes.
Variable script_to_p2wsh : bytes -> string.
Variable sign_txin : PartialTransaction -> bytes -> bytes.
Variable txid_of : PartialTransaction -> string.
Variable funding_txid_of : FundingTx -> string.
Variable ln_dummy_address : string.
Variable REDEEM_AFTER_DOUBLE_SPENT_DELAY : Z.
Variable TX_HEIGHT_LOCAL : Z.

Local Abbreviation reindex := (_add_or_reindex_swap sha256 hex).
Local Abbreviation key_of := (fun s => hex (payment_hash sha256 s)).
Local Abbreviation build := (_create_and_sign_claim_tx sign_txin).
Local Abbreviation step :=
  (claim_txin sha256 hex sign_txin txid_of
     REDEEM_AFTER_DOUBLE_SPENT_DELAY TX_HEIGHT_LOCAL).
Local Abbreviation loop :=
  (claim_loop sha256 hex sign_txin txid_of
     REDEEM_AFTER_DOUBLE_SPENT_DELAY TX_HEIGHT_LOCAL).
Local Abbreviation claim :=
  (_claim_swap sha256 hex sign_txin txid_of
     REDEEM_AFTER_DOUBLE_SPENT_DELAY TX_HEIGHT_LOCAL).
Local Abbreviation watching :=
  (watch sha256 hex sign_txin txid_of
     REDEEM_AFTER_DOUBLE_SPENT_DELAY TX_HEIGHT_LOCAL).

Local Abbreviation stepped := (SwapsExt.stepped sha256 hex).

Lemma step_shape env l m txin cur :
  heap m !! l = Some cur ->
  ((is_reverse cur && (value_sats txin <? onchain_amount cur)) = true /\
   fst (step env l m txin) = m) \/
  ((is_reverse cur && (value_sats txin <? onchain_amount cur)) = false /\
   stepped l cur txin m (fst (step env l m txin))).
Proof.
  intros H. unfold claim_txin. rewrite H.
  destruct (is_reverse cur && (value_sats txin <? onchain_amount cur));
    [left; split; reflexivity|].
  right. split; [reflexivity|].
  set (swap1 := set_funding cur (Some (prevout txin).1) (Some (prevout txin))).
  set (m0 := set_heap m (<[l:=swap1]> (heap m))).
  assert (H0 : heap m0 !! l = Some swap1) by apply lookup_insert_eq.
  set (m1 := reindex m0 l).
  assert (Hh1 : heap m1 = <[l:=swap1]> (heap m))
    by (subst m1; rewrite reindex_heap; reflexivity).
  assert (Hs1 : swaps m1 = match swaps m !! key_of cur with
                           | Some _ => swaps m
                           | None => <[key_of cur := l]> (swaps m)
                           end)
    by (subst m1; rewrite (reindex_swaps _ _ _ _ _ H0); reflexivity).
  assert (Hf1 : _swaps_by_funding_outpoint m1
                = <[prevout txin := l]> (_swaps_by_funding_outpoint m))
    by (subst m1; rewrite (reindex_by_funding _ _ _ _ _ H0); reflexivity).
  assert (Hl1 : _swaps_by_lockup_address m1
                = <[lockup_address cur := l]> (_swaps_by_lockup_address m))
    by (subst m1; rewrite (reindex_by_lockup _ _ _ _ _ H0); reflexivity).
  assert (Hc1 : callbacks m1 = callbacks m)
    by (subst m1; rewrite reindex_callbacks; reflexivity).
  assert (Hgen : forall s' cb,
             same_swap cur s' -> settled cur s' ->
             funding_txid s' = Some (prevout txin).1 ->
             _funding_prevout s' = Some (prevout txin) ->
             (cb = callbacks m \/ cb = delete (lockup_address cur) (callbacks m)) ->
             forall m',
               heap m' = <[l := s']> (heap m) ->
               swaps m' = swaps m1 ->
               _swaps_by_funding_outpoint m' = _swaps_by_funding_outpoint m1 ->
               _swaps_by_lockup_address m' = _swaps_by_lockup_address m1 ->
               callbacks m' = cb ->
               stepped l cur txin m m').
  { intros s' cb Hsame Hset Hft Hfp Hcb m' E1 E2 E3 E4 E5. exists s'.
    rewrite E1, E2, E3, E4, E5, Hs1, Hf1, Hl1. repeat split; auto;
      try apply Hsame; try apply Hset. }
  assert (Hsame1 : same_swap cur swap1) by (repeat split).
  assert (Hset1 : settled cur swap1)
    by (repeat split; auto; intros _; simpl; eauto).
  assert (Hfin : forall s' cb m',
             same_swap cur s' -> settled cur s' ->
             funding_txid s' = Some (prevout txin).1 ->
             _funding_prevout s' = Some (prevout txin) ->
             (cb = callbacks m \/
              cb = delete (lockup_address cur) (callbacks m)) ->
             heap m' = <[l := s']> (heap m1) ->
             swaps m' = swaps m1 ->
             _swaps_by_funding_outpoint m' = _swaps_by_funding_outpoint m1 ->
             _swaps_by_lockup_address m' = _swaps_by_lockup_address m1 ->
             callbacks m' = cb ->
             stepped l cur txin m m').
  { intros s' cb m' ? ? ? ? ? E1 ? ? ? ?. eapply (Hgen s' cb); eauto.
    rewrite E1, Hh1, insert_insert_eq. reflexivity. }
  assert (Hsettle : forall s', funding_txid s' = Some (prevout txin).1 ->
                               _funding_prevout s' = Some (prevout txin) ->
                               (is_redeemed cur = true -> is_redeemed s' = true) ->
                               settled cur s').
  { intros s' E1 E2 E3. repeat split; [exact E3 | |]; intros _;
      [rewrite E1 | rewrite E2]; eauto. }
  destruct (spent_height txin) as [sh|].
  - set (swap2 := set_spending_txid swap1 (spent_txid txin)).
    destruct (sh >? 0).
    + destruct (local_height env - sh >? REDEEM_AFTER_DOUBLE_SPENT_DELAY); simpl.
      * apply (Hfin (set_is_redeemed swap2 true)
                 (delete (lockup_address cur) (callbacks m)));
          try reflexivity.
        -- repeat split.
        -- apply Hsettle; auto.
        -- right; reflexivity.
        -- simpl. rewrite insert_insert_eq. reflexivity.
        -- simpl. rewrite Hc1. reflexivity.
      * apply (Hfin swap2 (callbacks m)); try reflexivity.
        -- repeat split.
        -- apply Hsettle; auto.
        -- left; reflexivity.
        -- exact Hc1.
    + destruct (sh =? TX_HEIGHT_LOCAL);
        [destruct ((block_height txin >? 0) || allow_instant_swaps env)|];
        simpl; (apply (Hfin swap2 (callbacks m)); try reflexivity;
                [repeat split | apply Hsettle; auto | left; reflexivity
                | exact Hc1]).
  - destruct (negb (is_reverse swap1) && (local_height env - locktime swap1 <? 0)).
    { simpl. apply (Hgen swap1 (callbacks m)); auto. }
    destruct (build env txin swap1) as [tx|e].
    + simpl. apply (Hfin (set_spending_txid swap1 (Some (txid_of tx)))
                      (callbacks m)); try reflexivity.
      * repeat split.
      * apply Hsettle; auto.
      * left; reflexivity.
      * exact Hc1.
    + assert (Hkeep : stepped l cur txin m m1)
        by (apply (Hgen swap1 (callbacks m)); auto).
      destruct e; simpl; exact Hkeep.
Qed.

(** *** Nothing is deleted *)

Lemma grows_refl m : grows m m.
Proof.
  repeat split; eauto.
  intros l s H. exists s. auto using same_swap_refl, settled_refl.
Qed.

Lemma grows_trans a b c : grows a b -> grows b c -> grows a c.
Proof.
  intros (H1 & H2 & H3 & H4) (K1 & K2 & K3 & K4). repeat split.
  - intros l s H. destruct (H1 l s H) as (s' & Hs' & ? & ?).
    destruct (K1 l s' Hs') as (s'' & Hs'' & ? & ?). exists s''.
    eauto using same_swap_trans, settled_trans.
  - eauto.
  - intros op l H. destruct (H3 op l H) as [l' Hl']. eauto.
  - intros ad l H. destruct (H4 ad l H) as [l' Hl']. eauto.
Qed.

Lemma lookup_insert_is_Some_keep {K} `{Countable K} {A}
    (d : gmap K A) (k k' : K) (x y : A) :
  d !! k' = Some y -> is_Some (<[k := x]> d !! k').
Proof.
  intros Hy. destruct (decide (k = k')) as [->|Hne].
  - rewrite lookup_insert_eq. eauto.
  - rewrite lookup_insert_ne by exact Hne. eauto.
Qed.

Lemma stepped_grows l cur txin m m' :
  heap m !! l = Some cur -> stepped l cur txin m m' -> grows m m'.
Proof.
  intros H (s' & Hsame & Hset & _ & _ & Hh & Hs & Hf & Hl & _).
  repeat split.
  - intros l0 s0 H0. rewrite Hh. destruct (decide (l = l0)) as [<-|Hne].
    + rewrite lookup_insert_eq. exists s'.
      assert (s0 = cur) by congruence. subst s0. auto.
    + rewrite lookup_insert_ne by exact Hne. exists s0.
      auto using same_swap_refl, settled_refl.
  - intros k l0 H0. rewrite Hs.
    destruct (swaps m !! key_of cur) eqn:E; [exact H0|].
    rewrite lookup_insert_ne; [exact H0 | congruence].
  - intros op l0 H0. rewrite Hf. eapply lookup_insert_is_Some_keep; eauto.
  - intros ad l0 H0. rewrite Hl. eapply lookup_insert_is_Some_keep; eauto.
Qed.

Lemma step_grows l env m txin : grows m (fst (step env l m txin)).
Proof.
  destruct (heap m !! l) as [cur|] eqn:H.
  - destruct (step_shape env l m txin cur H) as [[_ ->]|[_ Hst]];
      [apply grows_refl | eapply stepped_grows; eauto].
  - unfold claim_txin. rewrite H. apply grows_refl.
Qed.

Lemma reindex_grows m l : grows m (reindex m l).
Proof.
  destruct (heap m !! l) as [cur|] eqn:H.
  2:{ unfold _add_or_reindex_swap. rewrite H. apply grows_refl. }
  repeat split.
  - intros l0 s0 H0. rewrite reindex_heap. exists s0.
    auto using same_swap_refl, settled_refl.
  - intros k l0 H0. rewrite (reindex_swaps _ _ _ _ _ H).
    destruct (swaps m !! key_of cur) eqn:E; [exact H0|].
    rewrite lookup_insert_ne; [exact H0 | congruence].
  - intros op l0 H0. rewrite (reindex_by_funding _ _ _ _ _ H).
    destruct (_funding_prevout cur); [|eauto].
    eapply lookup_insert_is_Some_keep; eauto.
  - intros ad l0 H0. rewrite (reindex_by_lockup _ _ _ _ _ H).
    eapply lookup_insert_is_Some_keep; eauto.
Qed.

(** *** The dictionaries agree with the store *)

Lemma indexed_empty : indexed sha256 hex empty_manager.
Proof. split; intros ? ? H; simpl in H; rewrite lookup_empty in H; discriminate. Qed.

(** Filing the record at [l] under its own keys, after replacing it
    by a record with the same preimage and lockup address. *)
Lemma indexed_update m l cur s' sw fu lo cb ev :
  indexed sha256 hex m ->
  heap m !! l = Some cur ->
  preimage s' = preimage cur -> lockup_address s' = lockup_address cur ->
  (sw = swaps m \/ sw = <[key_of cur := l]> (swaps m)) ->
  (fu = _swaps_by_funding_outpoint m \/
   exists op, fu = <[op := l]> (_swaps_by_funding_outpoint m)) ->
  (lo = _swaps_by_lockup_address m \/
   lo = <[lockup_address cur := l]> (_swaps_by_lockup_address m)) ->
  (cb = callbacks m \/ cb = delete (lockup_address cur) (callbacks m) \/
   cb = <[lockup_address cur := l]> (callbacks m)) ->
  indexed sha256 hex
    {| heap := <[l := s']> (heap m); swaps := sw;
       _swaps_by_funding_outpoint := fu; _swaps_by_lockup_address := lo;
       callbacks := cb; events := ev |}.
Proof.
  intros [I1 I2 I3 I4] H Hpre Hlock Hsw Hfu Hlo Hcb.
  assert (Hrec : forall l0 s0 (f : SwapData -> string),
             f s' = f cur ->
             heap m !! l0 = Some s0 ->
             exists s, <[l := s']> (heap m) !! l0 = Some s /\ f s0 = f s).
  { intros l0 s0 f Hf H0. destruct (decide (l = l0)) as [<-|Hne].
    - rewrite lookup_insert_eq. exists s'. split; [reflexivity|]. congruence.
    - rewrite lookup_insert_ne by exact Hne. eauto. }
  assert (Hnew : forall (f : SwapData -> string),
             f s' = f cur ->
             exists s, <[l := s']> (heap m) !! l = Some s /\ f cur = f s).
  { intros f Hf. exists s'. rewrite lookup_insert_eq. auto. }
  split; simpl.
  - intros k l0 Hk.
    assert (Hold : swaps m !! k = Some l0 ->
                   exists s, <[l := s']> (heap m) !! l0 = Some s /\
                             k = hex (sha256 (preimage s))).
    { intros Hk0. destruct (I1 k l0 Hk0) as (s0 & Hs0 & ->).
      destruct (Hrec l0 s0 (fun s => hex (sha256 (preimage s)))) as (s & ? & ?);
        [simpl; congruence | exact Hs0 | eauto]. }
    destruct Hsw as [->| ->]; [auto|].
    destruct (decide (key_of cur = k)) as [<-|Hne].
    + rewrite lookup_insert_eq in Hk. injection Hk as <-.
      apply (Hnew (fun s => hex (sha256 (preimage s)))). simpl. congruence.
    + rewrite lookup_insert_ne in Hk by exact Hne. auto.
  - intros op l0 Hop.
    assert (Hold : _swaps_by_funding_outpoint m !! op = Some l0 ->
                   is_Some (<[l := s']> (heap m) !! l0)).
    { intros H0. destruct (I2 op l0 H0) as [s0 Hs0].
      destruct (Hrec l0 s0 (fun _ => EmptyString) eq_refl Hs0) as (s & ? & _).
      eauto. }
    destruct Hfu as [->|[op' ->]]; [auto|].
    destruct (decide (op' = op)) as [<-|Hne].
    + rewrite lookup_insert_eq in Hop. injection Hop as <-.
      rewrite lookup_insert_eq. eauto.
    + rewrite lookup_insert_ne in Hop by exact Hne. auto.
  - intros ad l0 Had.
    assert (Hold : _swaps_by_lockup_address m !! ad = Some l0 ->
                   exists s, <[l := s']> (heap m) !! l0 = Some s /\
                             ad = lockup_address s).
    { intros H0. destruct (I3 ad l0 H0) as (s0 & Hs0 & ->).
      apply (Hrec l0 s0 lockup_address); assumption. }
    destruct Hlo as [->| ->]; [auto|].
    destruct (decide (lockup_address cur = ad)) as [<-|Hne].
    + rewrite lookup_insert_eq in Had. injection Had as <-.
      apply (Hnew lockup_address). exact Hlock.
    + rewrite lookup_insert_ne in Had by exact Hne. auto.
  - intros ad l0 Had.
    assert (Hold : callbacks m !! ad = Some l0 ->
                   exists s, <[l := s']> (heap m) !! l0 = Some s /\
                             ad = lockup_address s).
    { intros H0. destruct (I4 ad l0 H0) as (s0 & Hs0 & ->).
      apply (Hrec l0 s0 lockup_address); assumption. }
    destruct Hcb as [->|[->| ->]]; [auto| |].
    + apply lookup_delete_Some in Had as [_ Had]. auto.
    + destruct (decide (lockup_address cur = ad)) as [<-|Hne].
      * rewrite lookup_insert_eq in Had. injection Had as <-.
        apply (Hnew lockup_address). exact Hlock.
      * rewrite lookup_insert_ne in Had by exact Hne. auto.
Qed.

Lemma manager_eta (m : manager) :
  m = {| heap := heap m; swaps := swaps m;
         _swaps_by_funding_outpoint := _swaps_by_funding_outpoint m;
         _swaps_by_lockup_address := _swaps_by_lockup_address m;
         callbacks := callbacks m; events := events m |}.
Proof. destruct m; reflexivity. Qed.

Lemma stepped_indexed l cur txin m m' :
  indexed sha256 hex m -> heap m !! l = Some cur ->
  stepped l cur txin m m' -> indexed sha256 hex m'.
Proof.
  intros Hi H (s' & Hsame & _ & _ & _ & Hh & Hs & Hf & Hl & Hc).
  rewrite (manager_eta m'), Hh, Hs, Hf, Hl.
  destruct Hsame as (?&?&?&?&?&?&?&?&?&?).
  eapply indexed_update; eauto.
  - destruct (swaps m !! key_of cur); auto.
  - destruct Hc as [->| ->]; auto.
Qed.

Lemma step_indexed l env m txin :
  indexed sha256 hex m -> indexed sha256 hex (fst (step env l m txin)).
Proof.
  intros Hi. destruct (heap m !! l) as [cur|] eqn:H.
  - destruct (step_shape env l m txin cur H) as [[_ ->]|[_ Hst]];
      [exact Hi | eapply stepped_indexed; eauto].
  - unfold claim_txin. rewrite H. exact Hi.
Qed.

Lemma reindex_indexed m l :
  indexed sha256 hex m -> indexed sha256 hex (reindex m l).
Proof.
  intros Hi. destruct (heap m !! l) as [cur|] eqn:H.
  2:{ unfold _add_or_reindex_swap. rewrite H. exact Hi. }
  rewrite (manager_eta (reindex m l)), reindex_heap,
    (reindex_swaps _ _ _ _ _ H), (reindex_by_funding _ _ _ _ _ H),
    (reindex_by_lockup _ _ _ _ _ H), reindex_callbacks.
  rewrite <- (insert_id (heap m) l cur H) at 1.
  eapply indexed_update; eauto.
  - destruct (swaps m !! key_of cur); auto.
  - destruct (_funding_prevout cur); eauto.
Qed.

(** *** From one iteration to any sequence of invocations *)

Section Lifting.
Variable l : loc.
Variable R : manager -> manager -> Prop.
Hypothesis R_refl : forall m, R m m.
Hypothesis R_trans : forall a b c, R a b -> R b c -> R a c.
Hypothesis R_step : forall env m txin, R m (fst (step env l m txin)).

Lemma loop_lift env txos : forall m, R m (fst (loop env l m txos)).
Proof.
  induction txos as [|txin rest IH]; intros m; simpl; [apply R_refl|].
  pose proof (R_step env m txin) as Hs.
  destruct (step env l m txin) as [m1 f]. simpl in Hs.
  destruct f; simpl; [|exact Hs|exact Hs].
  eapply R_trans; [exact Hs | apply IH].
Qed.

Lemma claim_lift env m : R m (fst (claim env l m)).
Proof.
  unfold _claim_swap.
  destruct (negb (up_to_date env)); [apply R_refl|].
  destruct (heap m !! l) as [cur|]; [|apply R_refl].
  pose proof (loop_lift env (addr_outputs env (lockup_address cur)) m) as Hl.
  destruct (loop env l m (addr_outputs env (lockup_address cur))) as [m1 f].
  destruct f; exact Hl.
Qed.

Lemma watch_lift views : forall m, R m (watching l m views).
Proof.
  induction views as [|env rest IH]; intros m; simpl; [apply R_refl|].
  eapply R_trans; [apply (claim_lift env m) | apply IH].
Qed.

End Lifting.

(** The same for what is added to the calls made, under a condition
    on the views of the chain and an invariant of the state. *)
Section LiftingEvents.
Variable l : loc.
Variable C : chain_view -> Prop.
Variable I : manager -> Prop.
Variable P : event -> Prop.
Hypothesis I_step : forall env m txin,
  C env -> I m ->
  I (fst (step env l m txin)) /\
  exists evs, events (fst (step env l m txin)) = events m ++ evs /\
              Forall P evs.

Lemma loop_events env txos : forall m,
  C env -> I m ->
  I (fst (loop env l m txos)) /\
  exists evs, events (fst (loop env l m txos)) = events m ++ evs /\
              Forall P evs.
Proof.
  induction txos as [|txin rest IH]; intros m HC HI; simpl.
  - split; [exact HI|]. exists []. rewrite app_nil_r.
    split; [reflexivity | constructor].
  - destruct (I_step env m txin HC HI) as [HI1 (evs1 & He1 & Hf1)].
    destruct (step env l m txin) as [m1 f]. simpl in *.
    destruct f; simpl; [|split; eauto|split; eauto].
    destruct (IH m1 HC HI1) as [HI2 (evs2 & He2 & Hf2)].
    split; [exact HI2|]. exists (evs1 ++ evs2).
    rewrite He2, He1, app_assoc. split; [reflexivity|].
    apply Forall_app; split; assumption.
Qed.

Lemma claim_events env m :
  C env -> I m ->
  I (fst (claim env l m)) /\
  exists evs, events (fst (claim env l m)) = events m ++ evs /\ Forall P evs.
Proof.
  intros HC HI. unfold _claim_swap.
  assert (Hnone : I m /\ exists evs, events m = events m ++ evs /\ Forall P evs).
  { split; [exact HI|]. exists []. rewrite app_nil_r.
    split; [reflexivity | constructor]. }
  destruct (negb (up_to_date env)); [exact Hnone|].
  destruct (heap m !! l) as [cur|]; [|exact Hnone].
  pose proof (loop_events env (addr_outputs env (lockup_address cur)) m HC HI)
    as Hl.
  destruct (loop env l m (addr_outputs env (lockup_address cur))) as [m1 f].
  destruct f; exact Hl.
Qed.

Lemma watch_events views : forall m,
  Forall C views -> I m ->
  I (watching l m views) /\
  exists evs, events (watching l m views) = events m ++ evs /\ Forall P evs.
Proof.
  induction views as [|env rest IH]; intros m HC HI; simpl.
  - split; [exact HI|]. exists []. rewrite app_nil_r.
    split; [reflexivity | constructor].
  - apply Forall_cons in HC as [HC1 HC2].
    destruct (claim_events env m HC1 HI) as [HI1 (evs1 & He1 & Hf1)].
    destruct (IH _ HC2 HI1) as [HI2 (evs2 & He2 & Hf2)].
    split; [exact HI2|]. exists (evs1 ++ evs2).
    unfold watch in *. rewrite He2, He1, app_assoc. split; [reflexivity|].
    apply Forall_app; split; assumption.
Qed.

End LiftingEvents.

(** *** What the watcher builds *)

(** What an iteration adds to the calls made: nothing, a rebroadcast,
    or a claim built from this output, which then passed the amount
    check, was unspent, and for a forward swap was seen at or after
    the timeout; the record then names the claim as its spend. *)
Lemma step_built env l m txin cur :
  heap m !! l = Some cur ->
  events (fst (step env l m txin)) = events m \/
  (exists t, events (fst (step env l m txin))
             = events m ++ [EvBroadcastKnown t]) \/
  (exists tx,
      (is_reverse cur && (value_sats txin <? onchain_amount cur)) = false /\
      spent_height txin = None /\
      (negb (is_reverse cur) && (local_height env - locktime cur <? 0)) = false /\
      build env txin
        (set_funding cur (Some (fst (prevout txin))) (Some (prevout txin)))
      = Ok tx /\
      events (fst (step env l m txin))
      = events m ++ [EvClaimTxSigned tx; EvAddTransaction tx] /\
      heap (fst (step env l m txin)) !! l
      = Some (set_spending_txid
                (set_funding cur (Some (fst (prevout txin)))
                   (Some (prevout txin)))
                (Some (txid_of tx))) /\
      _swaps_by_funding_outpoint (fst (step env l m txin)) !! prevout txin
      = Some l).
Proof.
  intros H. unfold claim_txin. rewrite H.
  destruct (is_reverse cur && (value_sats txin <? onchain_amount cur)) eqn:Hlow;
    [left; reflexivity|].
  set (swap1 := set_funding cur (Some (prevout txin).1) (Some (prevout txin))).
  set (m0 := set_heap m (<[l:=swap1]> (heap m))).
  assert (H0 : heap m0 !! l = Some swap1) by apply lookup_insert_eq.
  set (m1 := reindex m0 l).
  assert (He1 : events m1 = events m)
    by (subst m1; rewrite reindex_events; reflexivity).
  assert (Hf1 : _swaps_by_funding_outpoint m1 !! prevout txin = Some l)
    by (subst m1; rewrite (reindex_by_funding _ _ _ _ _ H0); simpl;
        apply lookup_insert_eq).
  destruct (spent_height txin) as [sh|].
  - destruct (sh >? 0);
      [destruct (local_height env - sh >? REDEEM_AFTER_DOUBLE_SPENT_DELAY)
      |destruct (sh =? TX_HEIGHT_LOCAL);
       [destruct ((block_height txin >? 0) || allow_instant_swaps env)|]];
      simpl; try (left; exact He1).
    right; left. eexists. rewrite He1. reflexivity.
  - change (locktime swap1) with (locktime cur).
    change (is_reverse swap1) with (is_reverse cur).
    destruct (negb (is_reverse cur) && (local_height env - locktime cur <? 0))
      eqn:Hearly; [left; exact He1|].
    destruct (build env txin swap1) as [tx|e] eqn:Hb.
    + right; right. exists tx. simpl. rewrite He1, lookup_insert_eq.
      repeat split; try reflexivity. exact Hf1.
    + destruct e; simpl; left; exact He1.
Qed.

Lemma build_shape env txin s tx :
  build env txin s = Ok tx ->
  (is_reverse s = true -> onchain_amount s <= value_sats txin) ->
  claim_shape s (claim_fee env) tx.
Proof.
  unfold _create_and_sign_claim_tx.
  destruct (value_sats txin - claim_fee env <? dust_threshold env);
    [discriminate|].
  unfold sign_tx, create_claim_tx. simpl.
  destruct (bool_decide (Some (prevout txin).1 = funding_txid s));
    [|discriminate].
  intros [= <-] Hamt.
  destruct (is_reverse s) eqn:Hrev; eexists txin, _; simpl; rewrite ?Hrev.
  - do 5 (split; [reflexivity|]).
    split; [reflexivity|]. split; [auto|reflexivity].
  - do 5 (split; [reflexivity|]). split; reflexivity.
Qed.

Lemma claim_shape_same a b fee tx :
  same_swap a b -> claim_shape b fee tx -> claim_shape a fee tx.
Proof.
  intros (E1&E2&E3&E4&E5&E6&E7&E8&E9&E10)
         (txin & sig & ? & ? & ? & ? & ? & Hrev).
  exists txin, sig. rewrite E1, E2, E3, E5, E6, E10 in *.
  repeat split; assumption.
Qed.

(** *** Filing a new record *)

Local Abbreviation forward :=
  (normal_swap sha256 hex hash_160 script_to_p2wsh funding_txid_of
     ln_dummy_address).
Local Abbreviation reverse :=
  (reverse_swap_setup sha256 hex hash_160 script_to_p2wsh).
Local Abbreviation filed := (SwapsExt.filed sha256 hex).

Lemma fresh_loc_unused (m : manager) : heap m !! fresh (dom (heap m)) = None.
Proof. apply not_elem_of_dom, is_fresh. Qed.

Lemma file_filed m swap :
  _funding_prevout swap = None ->
  filed swap m
    (add_lnwatcher_callback
       (reindex (set_heap m (<[fresh (dom (heap m)) := swap]> (heap m)))
          (fresh (dom (heap m))))
       (fresh (dom (heap m)))).
Proof.
  intros Hnone. unfold SwapsExt.filed.
  set (l := fresh (dom (heap m))).
  set (m0 := set_heap m (<[l := swap]> (heap m))).
  assert (H0 : heap m0 !! l = Some swap) by apply lookup_insert_eq.
  assert (H1 : heap (reindex m0 l) !! l = Some swap)
    by (rewrite reindex_heap; exact H0).
  unfold add_lnwatcher_callback. rewrite H1. simpl.
  rewrite reindex_heap, (reindex_swaps _ _ _ _ _ H0),
    (reindex_by_funding _ _ _ _ _ H0), (reindex_by_lockup _ _ _ _ _ H0),
    reindex_callbacks, Hnone.
  split; [apply fresh_loc_unused|]. repeat split; reflexivity.
Qed.

Lemma filed_grows swap m m' : filed swap m m' -> grows m m'.
Proof.
  intros (Hfresh & Hh & Hs & Hf & Hl & _). repeat split.
  - intros l0 s0 H0. rewrite Hh, lookup_insert_ne by congruence.
    exists s0. auto using same_swap_refl, settled_refl.
  - intros k l0 H0. rewrite Hs.
    destruct (swaps m !! key_of swap) eqn:E; [exact H0|].
    rewrite lookup_insert_ne; [exact H0 | congruence].
  - intros op l0 H0. rewrite Hf. eauto.
  - intros ad l0 H0. rewrite Hl. eapply lookup_insert_is_Some_keep; eauto.
Qed.

Lemma filed_indexed swap m m' :
  indexed sha256 hex m -> filed swap m m' -> indexed sha256 hex m'.
Proof.
  intros [I1 I2 I3 I4] (Hfresh & Hh & Hs & Hf & Hl & Hc).
  set (l := fresh (dom (heap m))) in *.
  assert (Hold : forall l0 s0, heap m !! l0 = Some s0 ->
                               heap m' !! l0 = Some s0).
  { intros l0 s0 H0. rewrite Hh, lookup_insert_ne by congruence. exact H0. }
  assert (Hnew : heap m' !! l = Some swap)
    by (rewrite Hh; apply lookup_insert_eq).
  split.
  - intros k l0. rewrite Hs. intros Hk.
    assert (Hk0 : swaps m !! k = Some l0 ->
                  exists s, heap m' !! l0 = Some s /\
                            k = hex (sha256 (preimage s))).
    { intros Hk0. destruct (I1 k l0 Hk0) as (s0 & Hs0 & ->). eauto. }
    destruct (swaps m !! key_of swap) eqn:E; [auto|].
    destruct (decide (key_of swap = k)) as [<-|Hne].
    + rewrite lookup_insert_eq in Hk. injection Hk as <-. eauto.
    + rewrite lookup_insert_ne in Hk by exact Hne. auto.
  - intros op l0. rewrite Hf. intros Hop.
    destruct (I2 op l0 Hop) as [s0 Hs0]. eauto.
  - intros ad l0. rewrite Hl. intros Had.
    destruct (decide (lockup_address swap = ad)) as [<-|Hne].
    + rewrite lookup_insert_eq in Had. injection Had as <-. eauto.
    + rewrite lookup_insert_ne in Had by exact Hne.
      destruct (I3 ad l0 Had) as (s0 & Hs0 & ->). eauto.
  - intros ad l0. rewrite Hc. intros Had.
    destruct (decide (lockup_address swap = ad)) as [<-|Hne].
    + rewrite lookup_insert_eq in Had. injection Had as <-. eauto.
    + rewrite lookup_insert_ne in Had by exact Hne.
      destruct (I4 ad l0 Had) as (s0 & Hs0 & ->). eauto.
Qed.

Lemma emit_grows m evs : grows m (emit m evs).
Proof.
  repeat split; simpl; eauto.
  intros l s H. exists s. auto using same_swap_refl, settled_refl.
Qed.

Lemma emit_indexed m evs :
  indexed sha256 hex m -> indexed sha256 hex (emit m evs).
Proof. intros [I1 I2 I3 I4]. split; simpl; assumption. Qed.


(** What [normal_swap] leaves behind: on an exception only the two
    calls made before the checks, on success the new record on file
    and the broadcast of the funding transaction. *)
Lemma forward_outcome env a expected tx m :
  (exists e,
      forward env a expected tx m
      = (emit m [EvCreatePaymentInfo (a * 1000); EvCreateSwapRequest],
         Raise e)) \/
  (exists ftx m',
      normal_swap_checks hash_160 script_to_p2wsh env expected = Ok tt /\
      make_funding_tx ln_dummy_address env expected tx = Ok ftx /\
      forward env a expected tx m = (m', Ok (funding_txid_of ftx)) /\
      filed (forward_record env a expected) m m' /\
      events m' = events m ++ [EvCreatePaymentInfo (a * 1000);
                               EvCreateSwapRequest; EvBroadcastFunding ftx]).
Proof.
  unfold normal_swap.
  destruct (normal_swap_checks hash_160 script_to_p2wsh env expected)
    as [[]|e]; [|left; eauto].
  destruct (make_funding_tx ln_dummy_address env expected tx)
    as [ftx|e]; [|left; eauto].
  right. exists ftx. eexists. split; [reflexivity|]. split; [reflexivity|].
  split; [reflexivity|].
  set (m0 := emit m [EvCreatePaymentInfo (a * 1000); EvCreateSwapRequest]).
  pose proof (file_filed m0 (forward_record env a expected) eq_refl) as Hf.
  fold (forward_record env a expected).
  set (m1 := add_lnwatcher_callback _ _) in *.
  split; [exact Hf|].
  simpl. unfold m1, add_lnwatcher_callback.
  rewrite reindex_heap. simpl. rewrite lookup_insert_eq. simpl.
  rewrite reindex_events. simpl. rewrite <- app_assoc. reflexivity.
Qed.

(** The same for [reverse_swap]. *)
Lemma reverse_outcome env a expected st :
  (exists e,
      reverse_swap_checks sha256 hash_160 script_to_p2wsh env a expected
      = Raise e /\
      reverse env a expected st
      = ({| mgr := emit (mgr st) [EvCreateSwapRequest];
            prepayments := prepayments st; payments := payments st |},
         Raise e)) \/
  (exists prepay st',
      reverse_swap_checks sha256 hash_160 script_to_p2wsh env a expected
      = Ok prepay /\
      reverse env a expected st = (st', Ok (fresh (dom (heap (mgr st))))) /\
      filed (reverse_record env a prepay) (mgr st) (mgr st') /\
      events (mgr st') = events (mgr st) ++ [EvCreateSwapRequest] /\
      prepayments st'
      = match prepay with
        | Some h => <[h := sha256 (rv_preimage env)]> (prepayments st)
        | None => prepayments st
        end /\
      payments st'
      = payments st ++ match prepay with
                       | Some _ => [PayFeeInvoice; PayInvoice]
                       | None => [PayInvoice]
                       end).
Proof.
  unfold reverse_swap_setup.
  destruct (reverse_swap_checks sha256 hash_160 script_to_p2wsh env a expected)
    as [prepay|e]; [|left; eauto].
  right. exists prepay.
  set (m0 := emit (mgr st) [EvCreateSwapRequest]).
  pose proof (file_filed m0 (reverse_record env a prepay) eq_refl) as Hf.
  fold (reverse_record env a prepay).
  set (m1 := add_lnwatcher_callback _ _) in *.
  assert (He : events m1 = events (mgr st) ++ [EvCreateSwapRequest]).
  { unfold m1, add_lnwatcher_callback.
    rewrite reindex_heap. simpl. rewrite lookup_insert_eq. simpl.
    rewrite reindex_events. reflexivity. }
  destruct prepay as [h|]; eexists; (split; [reflexivity|]);
    (split; [reflexivity|]); simpl; repeat split; try exact He; apply Hf.
Qed.

(** X7. Nothing is ever deleted from the store or the
    dictionaries: after any number of runs of the watcher for a swap,
    after re-indexing, and after [normal_swap] or [reverse_swap] whether
    they succeed or raise, every record is still stored with the terms
    it was created with and with its flags and links still set, every
    payment hash still leads to the same record, and every funding
    outpoint and lockup address that was a key still is one. *)
Theorem swaps_are_never_forgotten :
  forall m : manager,
    (forall l views, grows m (watching l m views)) /\
    (forall l, grows m (_add_or_reindex_swap sha256 hex m l)) /\
    (forall env a expected tx, grows m (fst (forward env a expected tx m))) /\
    (forall env a expected st,
        mgr st = m -> grows m (mgr (fst (reverse env a expected st)))).
Proof.
  intros m. split; [|split; [|split]].
  - intros l views. apply watch_lift;
      [apply grows_refl | apply grows_trans | intros; apply step_grows].
  - apply reindex_grows.
  - intros env a expected tx.
    destruct (forward_outcome env a expected tx m)
      as [(e & ->)|(ftx & m' & _ & _ & -> & Hf & _)]; simpl.
    + apply emit_grows.
    + eapply filed_grows; exact Hf.
  - intros env a expected st <-.
    destruct (reverse_outcome env a expected st)
      as [(e & _ & ->)|(prepay & st' & _ & -> & Hf & _)]; simpl.
    + apply emit_grows.
    + eapply filed_grows; exact Hf.
Qed.

(** X8. The dictionaries stay consistent with the store: if
    every entry of the four dictionaries leads to a stored record, the
    primary key being the hexadecimal hash of that record's preimage
    and a lockup-address key being that record's lockup address, then
    the same holds after any runs of the watcher, after re-indexing and
    after [normal_swap] or [reverse_swap], whatever their outcome. *)
Theorem dictionaries_agree_with_store :
  forall m : manager,
    indexed sha256 hex m ->
    (forall l views, indexed sha256 hex (watching l m views)) /\
    (forall l, indexed sha256 hex (_add_or_reindex_swap sha256 hex m l)) /\
    (forall env a expected tx,
        indexed sha256 hex (fst (forward env a expected tx m))) /\
    (forall env a expected st,
        mgr st = m ->
        indexed sha256 hex (mgr (fst (reverse env a expected st)))).
Proof.
  intros m Hi. split; [|split; [|split]].
  - intros l views.
    apply (watch_lift l (fun a b => indexed sha256 hex a -> indexed sha256 hex b));
      [auto | auto | intros; apply step_indexed; assumption | exact Hi].
  - intros l. apply reindex_indexed. exact Hi.
  - intros env a expected tx.
    destruct (forward_outcome env a expected tx m)
      as [(e & ->)|(ftx & m' & _ & _ & -> & Hf & _)]; simpl.
    + apply emit_indexed. exact Hi.
    + eapply filed_indexed; eauto.
  - intros env a expected st <-.
    destruct (reverse_outcome env a expected st)
      as [(e & _ & ->)|(prepay & st' & _ & -> & Hf & _)]; simpl.
    + apply emit_indexed. exact Hi.
    + eapply filed_indexed; eauto.
Qed.

(** *** Look-ups *)

(** X9. With consistent dictionaries, a look-up returns a
    record that belongs to the key: [get_swap] one whose payment hash
    reads as the given hash or as the hash the given prepayment stands
    for, [is_lockup_address_for_a_swap] is true exactly for the lockup
    addresses on file, and [get_swap_by_claim_txin] finds a record for
    every outpoint on file. *)
Theorem lookups_return_matching_records :
  forall st : rstate,
    indexed sha256 hex (mgr st) ->
    (forall ph s,
        get_swap hex st ph = Some s ->
        hex (payment_hash sha256 s) = hex ph \/
        exists ph', prepayments st !! ph = Some ph' /\ ph' <> [] /\
                    hex (payment_hash sha256 s) = hex ph') /\
    (forall a,
        is_lockup_address_for_a_swap (mgr st) a = true <->
        is_Some (_swaps_by_lockup_address (mgr st) !! a)) /\
    (forall a,
        is_lockup_address_for_a_swap (mgr st) a = true ->
        exists s, deref (mgr st) (_swaps_by_lockup_address (mgr st)) a = Some s /\
                  lockup_address s = a) /\
    (forall txin,
        is_Some (_swaps_by_funding_outpoint (mgr st) !! prevout txin) ->
        is_Some (get_swap_by_claim_txin (mgr st) txin)).
Proof.
  intros st [I1 I2 I3 I4].
  assert (Hkey : forall k s, deref (mgr st) (swaps (mgr st)) k = Some s ->
                             hex (payment_hash sha256 s) = k).
  { intros k s. unfold deref.
    destruct (swaps (mgr st) !! k) as [l|] eqn:Hk; [|discriminate]. simpl.
    intros Hs. destruct (I1 k l Hk) as (s0 & Hs0 & ->).
    unfold payment_hash. congruence. }
  split; [|split; [|split]].
  - intros ph s. unfold get_swap.
    destruct (deref (mgr st) (swaps (mgr st)) (hex ph)) as [s0|] eqn:E.
    + intros [= <-]. left. apply Hkey. exact E.
    + destruct (prepayments st !! ph) as [ph'|]; [|discriminate].
      destruct (bool_decide (ph' = [])) eqn:Hd; [discriminate|].
      apply bool_decide_eq_false in Hd. intros Hs. right. exists ph'.
      split; [reflexivity|]. split; [exact Hd|]. apply Hkey. exact Hs.
  - intros a. unfold is_lockup_address_for_a_swap, deref.
    destruct (_swaps_by_lockup_address (mgr st) !! a) as [l|] eqn:Ha; simpl.
    + destruct (I3 a l Ha) as (s & -> & _). split; eauto.
    + split; [discriminate | intros [? ?]; discriminate].
  - intros a. unfold is_lockup_address_for_a_swap, deref.
    destruct (_swaps_by_lockup_address (mgr st) !! a) as [l|] eqn:Ha; simpl;
      [|discriminate].
    destruct (I3 a l Ha) as (s & -> & ->). eauto.
  - intros txin [l Hl]. unfold get_swap_by_claim_txin, deref. rewrite Hl.
    simpl. apply (I2 _ _ Hl).
Qed.

(** *** The watcher, output by output *)

Lemma build_raises_only_dust env txin s e :
  funding_txid s = Some (fst (prevout txin)) ->
  build env txin s = Raise e -> e = BelowDustLimit.
Proof.
  intros Hf. unfold _create_and_sign_claim_tx.
  destruct (value_sats txin - claim_fee env <? dust_threshold env);
    [congruence|].
  unfold sign_tx, create_claim_tx. simpl. rewrite Hf.
  rewrite bool_decide_eq_true_2 by reflexivity. discriminate.
Qed.

Lemma step_continue env l m txin cur :
  heap m !! l = Some cur ->
  is_reverse cur = true \/ locktime cur <= local_height env ->
  snd (step env l m txin) = Continue.
Proof.
  intros H Hlate. unfold claim_txin. rewrite H.
  destruct (is_reverse cur && (value_sats txin <? onchain_amount cur));
    [reflexivity|].
  destruct (spent_height txin) as [sh|].
  - destruct (sh >? 0);
      [destruct (local_height env - sh >? REDEEM_AFTER_DOUBLE_SPENT_DELAY)
      |destruct (sh =? TX_HEIGHT_LOCAL);
       [destruct ((block_height txin >? 0) || allow_instant_swaps env)|]];
      reflexivity.
  - cbn [set_funding is_reverse locktime].
    assert (Hearly : (negb (is_reverse cur)
                      && (local_height env - locktime cur <? 0)) = false).
    { destruct Hlate as [-> | Hl]; [reflexivity|].
      apply andb_false_intro2. lia. }
    rewrite Hearly.
    set (swap1 := set_funding cur (Some (prevout txin).1) (Some (prevout txin))).
    destruct (build env txin swap1) as [tx|ex] eqn:Hb; [reflexivity|].
    apply build_raises_only_dust in Hb; [|reflexivity]. subst ex. reflexivity.
Qed.

(** An unspent output that passes the amount check, seen when the
    swap may be claimed, with a value that covers fee and dust, is
    claimed. *)
Lemma step_builds env l m txin cur :
  heap m !! l = Some cur ->
  (is_reverse cur && (value_sats txin <? onchain_amount cur)) = false ->
  spent_height txin = None ->
  is_reverse cur = true \/ locktime cur <= local_height env ->
  dust_threshold env <= value_sats txin - claim_fee env ->
  exists tx,
    build env txin
      (set_funding cur (Some (fst (prevout txin))) (Some (prevout txin)))
    = Ok tx /\
    snd (step env l m txin) = Continue /\
    events (fst (step env l m txin))
    = events m ++ [EvClaimTxSigned tx; EvAddTransaction tx] /\
    heap (fst (step env l m txin)) !! l
    = Some (set_spending_txid
              (set_funding cur (Some (fst (prevout txin)))
                 (Some (prevout txin)))
              (Some (txid_of tx))).
Proof.
  intros H Hlow Hsp Hlate Hdust.
  set (swap1 := set_funding cur (Some (prevout txin).1) (Some (prevout txin))).
  destruct (build_total sign_txin env txin swap1 Hdust eq_refl) as [tx Hb].
  exists tx. split; [exact Hb|].
  split; [eapply step_continue; eauto|].
  unfold claim_txin. rewrite H, Hlow, Hsp.
  cbn [set_funding is_reverse locktime].
  assert (Hearly : (negb (is_reverse cur)
                    && (local_height env - locktime cur <? 0)) = false).
  { destruct Hlate as [-> | Hl]; [reflexivity|].
    apply andb_false_intro2. lia. }
  rewrite Hearly. fold swap1. rewrite Hb. simpl.
  rewrite reindex_events, lookup_insert_eq. split; reflexivity.
Qed.

(** An index entry that leads to [l] keeps doing so. *)
Lemma step_keeps_outpoint env l m txin op :
  _swaps_by_funding_outpoint m !! op = Some l ->
  _swaps_by_funding_outpoint (fst (step env l m txin)) !! op = Some l.
Proof.
  intros Hop. destruct (heap m !! l) as [cur|] eqn:H.
  - destruct (step_shape env l m txin cur H)
      as [[_ ->]|[_ (s' & _ & _ & _ & _ & _ & _ & Hf & _)]]; [exact Hop|].
    rewrite Hf. destruct (decide (prevout txin = op)) as [<-|Hne].
    + apply lookup_insert_eq.
    + rewrite lookup_insert_ne by exact Hne. exact Hop.
  - unfold claim_txin. rewrite H. exact Hop.
Qed.

Lemma step_keeps_record env l m txin cur s :
  heap m !! l = Some s -> same_swap cur s ->
  exists s', heap (fst (step env l m txin)) !! l = Some s' /\ same_swap cur s'.
Proof.
  intros H Hsame. destruct (step_grows l env m txin) as (Hg & _).
  destruct (Hg l s H) as (s' & Hs' & Hss & _). exists s'.
  split; [exact Hs'|]. eapply same_swap_trans; eauto.
Qed.

(** The record of [l] with the terms of [cur], and the outpoint [op]
    filed under [l]. *)
Local Abbreviation found l cur op :=
  (fun m : manager =>
     (exists s, heap m !! l = Some s /\ same_swap cur s /\
                is_Some (funding_txid s)) /\
     _swaps_by_funding_outpoint m !! op = Some l).

Lemma step_keeps_found env l cur op m txin :
  found l cur op m -> found l cur op (fst (step env l m txin)).
Proof.
  intros [(s & Hs & Hsame & Hfund) Hop].
  split; [|apply step_keeps_outpoint; exact Hop].
  destruct (step_grows l env m txin) as (Hg & _).
  destruct (Hg l s Hs) as (s' & Hs' & Hss & _ & Hset & _). exists s'.
  split; [exact Hs'|]. split; [eapply same_swap_trans; eauto | auto].
Qed.

Lemma loop_reaches env l cur txin txos : forall m s,
  heap m !! l = Some s -> same_swap cur s ->
  is_reverse cur = true \/ locktime cur <= local_height env ->
  (is_reverse cur = true -> onchain_amount cur <= value_sats txin) ->
  txin ∈ txos ->
  found l cur (prevout txin) (fst (loop env l m txos)).
Proof.
  induction txos as [|t rest IH]; intros m s Hs Hsame Hlate Hamt Hin.
  { apply elem_of_nil in Hin. contradiction. }
  assert (Hlate' : is_reverse s = true \/ locktime s <= local_height env).
  { destruct Hsame as (-> & -> & _). exact Hlate. }
  pose proof (step_continue env l m t s Hs Hlate') as Hc.
  destruct (step_keeps_record env l m t cur s Hs Hsame) as (s1 & Hs1 & Hsame1).
  simpl.
  destruct (step env l m t) as [m1 f] eqn:Hst. simpl in Hc, Hs1. subst f.
  apply elem_of_cons in Hin as [<- | Hin].
  - assert (Hnow : found l cur (prevout txin) m1).
    { destruct (step_shape env l m txin s Hs) as [[Hlow _]|[_ Hstep]].
      - exfalso. apply andb_prop in Hlow as [Hr Hv].
        destruct Hsame as (Er & _ & Eo & _). rewrite Er in Hr.
        rewrite Eo in Hv. specialize (Hamt Hr). lia.
      - rewrite Hst in Hstep. simpl in Hstep.
        destruct Hstep as (s' & Hss & _ & Hft & _ & Hh & _ & Hf & _).
        split.
        + exists s'. rewrite Hh, lookup_insert_eq.
          split; [reflexivity|].
          split; [apply (same_swap_trans cur s s'); assumption
                 | rewrite Hft; eauto].
        + rewrite Hf. apply lookup_insert_eq. }
    apply (loop_lift l (fun a b => found l cur (prevout txin) a ->
                                   found l cur (prevout txin) b));
      [auto | auto | intros; apply step_keeps_found; assumption | exact Hnow].
  - eapply IH; eauto.
Qed.

(** A seen output stays filed under the swap. *)
Lemma watch_finds env l m cur txin views :
  up_to_date env = true ->
  heap m !! l = Some cur ->
  is_reverse cur = true \/ locktime cur <= local_height env ->
  txin ∈ addr_outputs env (lockup_address cur) ->
  (is_reverse cur = true -> onchain_amount cur <= value_sats txin) ->
  found l cur (prevout txin) (watching l m (env :: views)).
Proof.
  intros Hup H Hlate Hin Hamt.
  assert (Hfirst : found l cur (prevout txin) (fst (claim env l m))).
  { unfold _claim_swap. rewrite Hup, H. simpl.
    pose proof (loop_reaches env l cur txin
                  (addr_outputs env (lockup_address cur)) m cur H
                  (same_swap_refl cur) Hlate Hamt Hin) as Hf.
    destruct (loop env l m (addr_outputs env (lockup_address cur))) as [m1 f].
    destruct f; exact Hf. }
  change (watching l m (env :: views))
    with (watching l (fst (claim env l m)) views).
  apply (watch_lift l (fun a b => found l cur (prevout txin) a ->
                                  found l cur (prevout txin) b));
    [auto | auto | intros; apply step_keeps_found; assumption
    | exact Hfirst].
Qed.

(** X10. An output of the lockup address that the watcher has
    seen, with at least the agreed amount if the swap is a reverse one,
    at a time when the swap may be claimed, is filed under the swap:
    from then on [get_swap_by_claim_txin] returns the swap's record for
    it, with the terms the swap was created with and a funding
    transaction, whatever the watcher sees later. *)
Theorem seen_funding_output_is_indexed :
  forall (env : chain_view) (l : loc) (m : manager) (cur : SwapData)
         (txin : TxInput) (views : list chain_view),
    up_to_date env = true ->
    heap m !! l = Some cur ->
    is_reverse cur = true \/ locktime cur <= local_height env ->
    txin ∈ addr_outputs env (lockup_address cur) ->
    (is_reverse cur = true -> onchain_amount cur <= value_sats txin) ->
    exists s,
      get_swap_by_claim_txin (watching l m (env :: views)) txin = Some s /\
      same_swap cur s /\ is_Some (funding_txid s).
Proof.
  intros env l m cur txin views Hup H Hlate Hin Hamt.
  destruct (watch_finds env l m cur txin views Hup H Hlate Hin Hamt)
    as [(s & Hs & Hsame & Hfund) Hop].
  exists s. unfold get_swap_by_claim_txin, deref. rewrite Hop. simpl. auto.
Qed.

(** X11. [get_swap_by_funding_tx] recognises a funding transaction
    only if it has exactly one output: for a transaction whose output
    0 the watcher has seen funding the lockup address of the swap,
    with at least the agreed amount for a reverse swap and at a time
    when the swap may be claimed, it returns the swap's record when
    that output is the only one, and [False] for any other number of
    outputs, as in a funding transaction with change. *)
Theorem funding_tx_is_recognised_if_single_output :
  forall (env : chain_view) (l : loc) (m : manager) (cur : SwapData)
         (txin : TxInput) (views : list chain_view) (ftx : FundingTx),
    up_to_date env = true ->
    heap m !! l = Some cur ->
    is_reverse cur = true \/ locktime cur <= local_height env ->
    txin ∈ addr_outputs env (lockup_address cur) ->
    (is_reverse cur = true -> onchain_amount cur <= value_sats txin) ->
    prevout txin = (funding_txid_of ftx, 0) ->
    (length (f_outputs ftx) = 1%nat ->
     exists s,
       get_swap_by_funding_tx funding_txid_of (watching l m (env :: views)) ftx
       = Returns (Some s) /\
       same_swap cur s) /\
    (length (f_outputs ftx) <> 1%nat ->
     get_swap_by_funding_tx funding_txid_of (watching l m (env :: views)) ftx
     = ReturnsFalse).
Proof.
  intros env l m cur txin views ftx Hup H Hlate Hin Hamt Hprev.
  destruct (watch_finds env l m cur txin views Hup H Hlate Hin Hamt)
    as [(s & Hs & Hsame & _) Hop].
  unfold get_swap_by_funding_tx. split.
  - intros Hone. rewrite Hone. change (negb (1 =? 1)%nat) with false.
    cbv iota zeta. exists s.
    unfold deref. rewrite <- Hprev, Hop.
    change (Some l ≫= (heap (watching l m (env :: views)) !!.))
      with (heap (watching l m (env :: views)) !! l).
    rewrite Hs. auto.
  - intros Hmany.
    destruct (length (f_outputs ftx) =? 1)%nat eqn:E; [|reflexivity].
    apply Nat.eqb_eq in E. contradiction.
Qed.

(** *** The transactions the watcher builds *)

(** What one iteration builds for [l], whose record has the terms of
    [cur]: a claim of the shape for those terms with the fee of the
    view, at a height the swap allows. *)
Lemma step_claims env l cur m txin :
  (exists s, heap m !! l = Some s /\ same_swap cur s) ->
  (exists s, heap (fst (step env l m txin)) !! l = Some s /\ same_swap cur s) /\
  exists evs,
    events (fst (step env l m txin)) = events m ++ evs /\
    Forall (fun ev => forall tx, claim_of ev = Some tx ->
              claim_shape cur (claim_fee env) tx /\
              (is_reverse cur = false -> locktime cur <= local_height env))
           evs.
Proof.
  intros (s & Hs & Hsame). split; [eapply step_keeps_record; eauto|].
  destruct (step_built env l m txin s Hs)
    as [He | [[t He] | (tx & Hlow & _ & Hearly & Hb & He & _)]].
  - exists []. rewrite He, app_nil_r. split; [reflexivity | constructor].
  - exists [EvBroadcastKnown t]. split; [exact He|].
    repeat constructor; discriminate.
  - exists [EvClaimTxSigned tx; EvAddTransaction tx]. split; [exact He|].
    assert (Hshape : claim_shape cur (claim_fee env) tx).
    { apply (claim_shape_same cur
               (set_funding s (Some (prevout txin).1) (Some (prevout txin)))).
      - destruct Hsame as (?&?&?&?&?&?&?&?&?&?). repeat split; assumption.
      - eapply build_shape; [exact Hb|]. simpl. intros Hr.
        rewrite Hr in Hlow. simpl in Hlow. lia. }
    assert (Hwhen : is_reverse cur = false ->
                    locktime cur <= local_height env).
    { destruct Hsame as (Er & El & _). rewrite <- Er, <- El.
      intros Hr. rewrite Hr in Hearly. simpl in Hearly. lia. }
    constructor; [|constructor; [|constructor]]; intros tx' [= <-]; auto.
Qed.

(** X12. A forward swap is never refunded early: as long as
    every view of the chain the watcher gets has a height below the
    swap's timeout, it builds and stores no transaction at all. *)
Theorem no_refund_before_timeout :
  forall (l : loc) (m : manager) (cur : SwapData) (views : list chain_view),
    heap m !! l = Some cur ->
    is_reverse cur = false ->
    Forall (fun env => local_height env < locktime cur) views ->
    exists evs,
      events (watching l m views) = events m ++ evs /\
      Forall (fun ev => claim_of ev = None) evs.
Proof.
  intros l m cur views H Hfwd Hearly.
  apply (watch_events l (fun env => local_height env < locktime cur)
           (fun m => exists s, heap m !! l = Some s /\ same_swap cur s)).
  - intros env m0 txin Hlt Hrec.
    destruct (step_claims env l cur m0 txin Hrec) as [Hkeep (evs & He & Hall)].
    split; [exact Hkeep|]. exists evs. split; [exact He|].
    eapply Forall_impl; [exact Hall|]. intros ev Hev. simpl in Hev.
    destruct (claim_of ev) as [tx|]; [|reflexivity].
    destruct (Hev tx eq_refl) as [_ Hwhen]. specialize (Hwhen Hfwd). lia.
  - exact Hearly.
  - exists cur. split; [exact H | apply same_swap_refl].
Qed.

(** X13. Every transaction the watcher builds for a swap spends
    one output, pays that output's value less the fee estimate of the
    view it was built in to the swap's receive address as its only
    output, is replaceable and of version 2, and carries the swap's
    redeem script; for a reverse swap it has locktime 0, spends an
    output of at least the agreed amount and reveals the preimage; for
    a forward swap it is locked to the swap's timeout, carries no
    preimage, and was built in a view at or above the timeout. *)
Theorem watcher_builds_well_formed_claims :
  forall (l : loc) (m : manager) (cur : SwapData) (views : list chain_view),
    heap m !! l = Some cur ->
    exists evs,
      events (watching l m views) = events m ++ evs /\
      Forall (fun ev => forall tx, claim_of ev = Some tx ->
                exists env, env ∈ views /\
                            claim_shape cur (claim_fee env) tx /\
                            (is_reverse cur = false ->
                             locktime cur <= local_height env)) evs.
Proof.
  intros l m cur views H.
  apply (watch_events l (fun env => env ∈ views)
           (fun m => exists s, heap m !! l = Some s /\ same_swap cur s)).
  - intros env m0 txin Hin Hrec.
    destruct (step_claims env l cur m0 txin Hrec) as [Hkeep (evs & He & Hall)].
    split; [exact Hkeep|]. exists evs. split; [exact He|].
    eapply Forall_impl; [exact Hall|]. intros ev Hev tx Hc.
    destruct (Hev tx Hc) as [Hshape Hwhen]. exists env. auto.
  - apply Forall_forall. auto.
  - exists cur. split; [exact H | apply same_swap_refl].
Qed.

(** X14. Every transaction the watcher has built for a
    swap is afterwards attributed to that swap: [get_swap_by_claim_tx]
    returns the swap's record for it, however many runs follow. *)
Theorem built_claims_are_attributed :
  forall (l : loc) (m : manager) (cur : SwapData) (views : list chain_view),
    heap m !! l = Some cur ->
    exists evs,
      events (watching l m views) = events m ++ evs /\
      Forall (fun ev => forall tx, claim_of ev = Some tx ->
                exists s,
                  get_swap_by_claim_tx (watching l m views) tx = Some (Some s) /\
                  same_swap cur s) evs.
Proof.
  intros l m cur views H.
  set (J := fun m' : manager =>
              (exists s, heap m' !! l = Some s /\ same_swap cur s) /\
              exists evs,
                events m' = events m ++ evs /\
                Forall (fun ev => forall tx, claim_of ev = Some tx ->
                          exists txin,
                            tx_inputs tx = [txin] /\
                            _swaps_by_funding_outpoint m' !! prevout txin
                            = Some l) evs).
  assert (HJ : J (watching l m views)).
  { apply (watch_lift l (fun a b => J a -> J b)); [auto | auto | |].
    - intros env m0 txin [(s & Hs & Hsame) (evs & He & Hall)]. split.
      + eapply step_keeps_record; eauto.
      + assert (Hold : Forall (fun ev => forall tx, claim_of ev = Some tx ->
                          exists txin0,
                            tx_inputs tx = [txin0] /\
                            _swaps_by_funding_outpoint
                              (fst (step env l m0 txin)) !! prevout txin0
                            = Some l) evs).
        { eapply Forall_impl; [exact Hall|]. intros ev Hev tx Hc.
          destruct (Hev tx Hc) as (txin0 & Hi & Hop). exists txin0.
          split; [exact Hi | apply step_keeps_outpoint; exact Hop]. }
        destruct (step_built env l m0 txin s Hs)
          as [E | [[t E] | (tx & _ & _ & _ & Hb & E & _ & Hop)]].
        * exists evs. rewrite E. split; [exact He | exact Hold].
        * exists (evs ++ [EvBroadcastKnown t]).
          rewrite E, He, app_assoc. split; [reflexivity|].
          apply Forall_app. split; [exact Hold|].
          repeat constructor. discriminate.
        * exists (evs ++ [EvClaimTxSigned tx; EvAddTransaction tx]).
          rewrite E, He, app_assoc. split; [reflexivity|].
          apply Forall_app. split; [exact Hold|].
          apply (build_ok sign_txin) in Hb as (_ & Hi & _).
          repeat constructor; intros tx' [= <-]; exists txin; auto.
    - split; [exists cur; auto using same_swap_refl|].
      exists []. rewrite app_nil_r. split; [reflexivity | constructor]. }
  destruct HJ as [(s & Hs & Hsame) (evs & He & Hall)].
  exists evs. split; [exact He|].
  eapply Forall_impl; [exact Hall|]. intros ev Hev tx Hc.
  destruct (Hev tx Hc) as (txin & Hi & Hop). exists s.
  unfold get_swap_by_claim_tx, get_swap_by_claim_txin, deref.
  rewrite Hi, Hop. simpl. rewrite Hs. auto.
Qed.

(** *** Forward swaps from set-up to refund *)

(** What an accepted answer to a forward swap request has passed. *)
Lemma forward_checks_sound env expected :
  normal_swap_checks hash_160 script_to_p2wsh env expected = Ok tt ->
  exists toks lt,
    script_GetOp (resp_redeem_script env) = Ok toks /\
    match_script_against_template (resp_redeem_script env)
      WITNESS_TEMPLATE_SWAP = true /\
    script_to_p2wsh (resp_redeem_script env) = resp_lockup_address env /\
    pushed toks 1 = Some (hash_160 (invoice_preimage env)) /\
    pushed toks 9 = Some (new_pubkey env) /\
    pushed toks 6 = Some lt /\
    resp_locktime env = int_from_bytes_little lt /\
    resp_onchain_amount env <= expected /\
    resp_locktime env - height env < 144.
Proof.
  unfold normal_swap_checks, mbind, result_bind.
  destruct (script_GetOp (resp_redeem_script env)) as [toks|e] eqn:Hp;
    [|discriminate].
  destruct (match_script_against_template (resp_redeem_script env)
              WITNESS_TEMPLATE_SWAP) eqn:Ht; [|discriminate]. simpl.
  destruct (bool_decide (script_to_p2wsh (resp_redeem_script env)
                         = resp_lockup_address env)) eqn:Ha; [|discriminate].
  simpl.
  destruct (bool_decide (Some (hash_160 (invoice_preimage env))
                         = pushed toks 1)) eqn:Hh; [|discriminate]. simpl.
  destruct (bool_decide (Some (new_pubkey env) = pushed toks 9)) eqn:Hk;
    [|discriminate]. simpl.
  destruct (pushed toks 6) as [lt|] eqn:H6; [|discriminate].
  destruct (resp_locktime env =? int_from_bytes_little lt) eqn:Hl;
    [|discriminate]. simpl.
  destruct (resp_onchain_amount env >? expected) eqn:Hamt; [discriminate|].
  destruct (resp_locktime env - height env >=? 144) eqn:Hlt; [discriminate|].
  intros _. exists toks, lt.
  apply bool_decide_eq_true in Ha, Hh, Hk.
  split; [reflexivity|]. split; [reflexivity|]. split; [exact Ha|].
  split; [symmetry; exact Hh|]. split; [symmetry; exact Hk|].
  split; [exact H6|]. split; [lia|]. split; lia.
Qed.

Lemma filed_lookups swap m m' :
  filed swap m m' ->
  heap m' !! fresh (dom (heap m)) = Some swap /\
  callbacks m' !! lockup_address swap = Some (fresh (dom (heap m))) /\
  _swaps_by_lockup_address m' !! lockup_address swap
  = Some (fresh (dom (heap m))) /\
  (swaps m !! key_of swap = None ->
   swaps m' !! key_of swap = Some (fresh (dom (heap m)))).
Proof.
  intros (_ & Hh & Hs & _ & Hl & Hc).
  rewrite Hh, Hc, Hl, Hs, !lookup_insert_eq. repeat split.
  intros ->. apply lookup_insert_eq.
Qed.

(** X15. When [normal_swap] returns a transaction id,
    the answer of the server had passed every check: the script
    matches the forward template and hashes to the lockup address,
    holds the hash of our preimage, our refund key and the announced
    timeout, the amount asked is within the budget and the timeout is
    fewer than 144 blocks away.  The record is then stored with the
    budget as its amount, filed under its lockup address with a
    callback, and under its payment hash unless that was taken; a given
    transaction had its dummy output replaced by the funding output;
    and the broadcast of the funding transaction is the last call
    made. *)
Theorem accepted_forward_swap_is_checked_and_filed :
  forall (env : forward_env) (a expected : Z) (tx : option FundingTx)
         (m m' : manager) (txid : string),
    forward env a expected tx m = (m', Ok txid) ->
    (exists toks lt,
        script_GetOp (resp_redeem_script env) = Ok toks /\
        match_script_against_template (resp_redeem_script env)
          WITNESS_TEMPLATE_SWAP = true /\
        script_to_p2wsh (resp_redeem_script env) = resp_lockup_address env /\
        pushed toks 1 = Some (hash_160 (invoice_preimage env)) /\
        pushed toks 9 = Some (new_pubkey env) /\
        pushed toks 6 = Some lt /\
        resp_locktime env = int_from_bytes_little lt /\
        resp_onchain_amount env <= expected /\
        resp_locktime env - height env < 144) /\
    exists ftx l,
      txid = funding_txid_of ftx /\
      (forall tx0, tx = Some tx0 ->
         exists outs,
           list_remove (ln_dummy_address, expected) (f_outputs tx0) = Ok outs /\
           ftx = {| f_outputs := outs ++ [(resp_lockup_address env,
                                           resp_onchain_amount env)];
                    f_rbf := true; f_signed := true |}) /\
      heap m !! l = None /\
      heap m' !! l = Some (forward_record env a expected) /\
      callbacks m' !! resp_lockup_address env = Some l /\
      _swaps_by_lockup_address m' !! resp_lockup_address env = Some l /\
      (swaps m !! hex (sha256 (invoice_preimage env)) = None ->
       swaps m' !! hex (sha256 (invoice_preimage env)) = Some l) /\
      events m' = events m ++ [EvCreatePaymentInfo (a * 1000);
                               EvCreateSwapRequest; EvBroadcastFunding ftx].
Proof.
  intros env a expected tx m m' txid Hrun.
  destruct (forward_outcome env a expected tx m)
    as [(e & He)|(ftx & m1 & Hc & Hmk & Hsucc & Hf & Hev)];
    [rewrite He in Hrun; discriminate|].
  rewrite Hsucc in Hrun. injection Hrun as <- <-.
  split; [apply forward_checks_sound; exact Hc|].
  exists ftx, (fresh (dom (heap m))).
  destruct (filed_lookups _ _ _ Hf) as (L1 & L2 & L3 & L4).
  split; [reflexivity|]. split.
  { intros tx0 ->. unfold make_funding_tx, mbind, result_bind in Hmk.
    destruct (list_remove (ln_dummy_address, expected) (f_outputs tx0))
      as [outs|e]; [|discriminate].
    injection Hmk as <-. exists outs. split; reflexivity. }
  split; [apply Hf|]. repeat split; assumption.
Qed.

Lemma claim_single env l m cur txin :
  up_to_date env = true ->
  heap m !! l = Some cur ->
  addr_outputs env (lockup_address cur) = [txin] ->
  snd (step env l m txin) = Continue ->
  fst (claim env l m) = fst (step env l m txin).
Proof.
  intros Hup H Hout Hc. unfold _claim_swap. rewrite Hup, H, Hout. simpl.
  destruct (step env l m txin) as [m1 f]. simpl in Hc. subst f. reflexivity.
Qed.

(** X16. A forward swap that was set up can be refunded once
    its timeout is reached: when the watcher then sees the funding
    output unspent and its value covers the fee and the dust
    threshold, it builds, signs and stores a transaction that pays the
    value less the fee to the wallet's receiving address, locked to
    the timeout. *)
Theorem forward_swap_is_refunded_after_timeout :
  forall (env : forward_env) (a expected : Z) (tx : option FundingTx)
         (m m' : manager) (txid : string) (view : chain_view)
         (txin : TxInput),
    forward env a expected tx m = (m', Ok txid) ->
    up_to_date view = true ->
    resp_locktime env <= local_height view ->
    addr_outputs view (resp_lockup_address env) = [txin] ->
    spent_height txin = None ->
    dust_threshold view <= value_sats txin - claim_fee view ->
    exists l rtx,
      callbacks m' !! resp_lockup_address env = Some l /\
      events (fst (claim view l m'))
      = events m' ++ [EvClaimTxSigned rtx; EvAddTransaction rtx] /\
      tx_inputs rtx = [txin] /\
      tx_outputs rtx
      = [(receiving_address env, value_sats txin - claim_fee view)] /\
      tx_locktime rtx = resp_locktime env.
Proof.
  intros env a expected tx m m' txid view txin Hrun Hup Hlate Hout Hsp Hdust.
  destruct (forward_outcome env a expected tx m)
    as [(e & He)|(ftx & m1 & _ & _ & Hsucc & Hf & _)];
    [rewrite He in Hrun; discriminate|].
  rewrite Hsucc in Hrun. injection Hrun as <- _.
  destruct (filed_lookups _ _ _ Hf) as (L1 & L2 & _).
  set (l := fresh (dom (heap m))) in *.
  destruct (step_builds view l m1 txin (forward_record env a expected) L1
              eq_refl Hsp (or_intror Hlate) Hdust)
    as (rtx & Hb & Hc & He & _).
  exists l, rtx. split; [exact L2|].
  rewrite (claim_single view l m1 _ txin Hup L1 Hout Hc).
  split; [exact He|].
  apply (build_ok sign_txin) in Hb as (_ & Hi & Ho & Hl & _).
  repeat split; assumption.
Qed.

(** *** Reverse swaps from set-up to claim *)

Lemma reverse_script_checks_sound script addr preimage pubkey lock :
  reverse_swap_script_checks hash_160 script_to_p2wsh script addr preimage
    pubkey lock = Ok tt ->
  exists toks lt,
    script_GetOp script = Ok toks /\
    match_script_against_template script WITNESS_TEMPLATE_REVERSE_SWAP = true /\
    script_to_p2wsh script = addr /\
    pushed toks 5 = Some (hash_160 preimage) /\
    pushed toks 7 = Some pubkey /\
    pushed toks 10 = Some lt /\
    lock = int_from_bytes_little lt.
Proof.
  unfold reverse_swap_script_checks, mbind, result_bind.
  destruct (script_GetOp script) as [toks|e] eqn:Hp; [|discriminate].
  destruct (match_script_against_template script
              WITNESS_TEMPLATE_REVERSE_SWAP) eqn:Ht; [|discriminate]. simpl.
  destruct (bool_decide (script_to_p2wsh script = addr)) eqn:Ha;
    [|discriminate]. simpl.
  destruct (bool_decide (Some (hash_160 preimage) = pushed toks 5)) eqn:Hh;
    [|discriminate]. simpl.
  destruct (bool_decide (Some pubkey = pushed toks 7)) eqn:Hk;
    [|discriminate]. simpl.
  destruct (pushed toks 10) as [lt|] eqn:H10; [|discriminate].
  destruct (lock =? int_from_bytes_little lt) eqn:Hl; [|discriminate].
  intros _. exists toks, lt.
  apply bool_decide_eq_true in Ha, Hh, Hk.
  split; [reflexivity|]. split; [reflexivity|]. split; [exact Ha|].
  split; [symmetry; exact Hh|]. split; [symmetry; exact Hk|].
  split; [exact H10 | lia].
Qed.

Lemma int_of_decimal_inject z : int_of_decimal (inject_Z z) = z.
Proof.
  unfold int_of_decimal.
  destruct (Qle_bool 0 (inject_Z z)); [apply Qfloor_Z | apply Qceiling_Z].
Qed.

(** What an accepted answer to a reverse swap request has passed. *)
Lemma reverse_checks_sound env a expected prepay :
  reverse_swap_checks sha256 hash_160 script_to_p2wsh env a expected
  = Ok prepay ->
  reverse_swap_script_checks hash_160 script_to_p2wsh (rv_redeem_script env)
    (rv_lockup_address env) (rv_preimage env) (rv_pubkey env)
    (rv_locktime env) = Ok tt /\
  expected <= rv_onchain_amount env /\
  60 < rv_locktime env - rv_height env /\
  (exists inv, rv_invoice env = Ok inv /\
               paymenthash inv = sha256 (rv_preimage env)) /\
  invoiced env = Some a /\
  prepay = match rv_fee_invoice env with
           | Some (Ok finv) => Some (paymenthash finv)
           | _ => None
           end.
Proof.
  unfold reverse_swap_checks, invoiced, mbind, result_bind.
  destruct (reverse_swap_script_checks hash_160 script_to_p2wsh
              (rv_redeem_script env) (rv_lockup_address env) (rv_preimage env)
              (rv_pubkey env) (rv_locktime env)) as [[]|e]; [|discriminate].
  destruct (rv_onchain_amount env <? expected) eqn:Hamt; [discriminate|].
  destruct (rv_locktime env - rv_height env <=? 60) eqn:Hlt; [discriminate|].
  destruct (rv_invoice env) as [inv|e]; [|discriminate].
  unfold amount_of.
  destruct (amount_sat inv) as [amt|]; [|discriminate].
  destruct (bool_decide (paymenthash inv = sha256 (rv_preimage env))) eqn:Hh;
    [|discriminate]. simpl.
  apply bool_decide_eq_true in Hh.
  destruct (rv_fee_invoice env) as [[finv|e]|]; try discriminate.
  - destruct (amount_sat finv) as [famt|]; [|discriminate].
    destruct (int_of_decimal (inject_Z (int_of_decimal amt) + famt) =? a)
      eqn:Ha; [|discriminate]. simpl.
    intros [= <-]. apply Z.eqb_eq in Ha. rewrite Ha.
    split; [reflexivity|]. split; [lia|]. split; [lia|].
    split; [eauto|]. split; reflexivity.
  - rewrite int_of_decimal_inject.
    destruct (int_of_decimal amt =? a) eqn:Ha; [|discriminate]. simpl.
    intros [= <-]. apply Z.eqb_eq in Ha. rewrite Ha.
    split; [reflexivity|]. split; [lia|]. split; [lia|].
    split; [eauto|]. split; reflexivity.
Qed.

Lemma reverse_success env a expected st st' l :
  reverse env a expected st = (st', Ok l) ->
  exists prepay,
    reverse_swap_checks sha256 hash_160 script_to_p2wsh env a expected
    = Ok prepay /\
    l = fresh (dom (heap (mgr st))) /\
    filed (reverse_record env a prepay) (mgr st) (mgr st') /\
    events (mgr st') = events (mgr st) ++ [EvCreateSwapRequest] /\
    prepayments st'
    = match prepay with
      | Some h => <[h := sha256 (rv_preimage env)]> (prepayments st)
      | None => prepayments st
      end /\
    payments st'
    = payments st ++ match prepay with
                     | Some _ => [PayFeeInvoice; PayInvoice]
                     | None => [PayInvoice]
                     end.
Proof.
  intros Hrun.
  destruct (reverse_outcome env a expected st)
    as [(e & _ & He)|(prepay & st1 & Hc & Hsucc & Hrest)];
    [rewrite He in Hrun; discriminate|].
  rewrite Hsucc in Hrun. injection Hrun as <- <-.
  exists prepay. split; [exact Hc|]. split; [reflexivity | exact Hrest].
Qed.

(** X17. When [reverse_swap] gets as far as paying, the
    answer of the server had passed every check: the script matches
    the reverse template and hashes to the lockup address, holds the
    hash of our preimage, our claim key and the announced timeout; the
    amount offered on chain is at least the expected one; the timeout
    is more than 60 blocks away; the invoice is for our payment hash;
    and the invoices add up to the amount requested.  The record is
    then stored with the offered amount, with a callback for its
    lockup address; the fee invoice, if any, is registered as a
    prepayment and paid before the main invoice. *)
Theorem accepted_reverse_swap_is_checked_and_filed :
  forall (env : reverse_env) (a expected : Z) (st st' : rstate) (l : loc),
    reverse env a expected st = (st', Ok l) ->
    (exists toks lt,
        script_GetOp (rv_redeem_script env) = Ok toks /\
        match_script_against_template (rv_redeem_script env)
          WITNESS_TEMPLATE_REVERSE_SWAP = true /\
        script_to_p2wsh (rv_redeem_script env) = rv_lockup_address env /\
        pushed toks 5 = Some (hash_160 (rv_preimage env)) /\
        pushed toks 7 = Some (rv_pubkey env) /\
        pushed toks 10 = Some lt /\
        rv_locktime env = int_from_bytes_little lt) /\
    expected <= rv_onchain_amount env /\
    60 < rv_locktime env - rv_height env /\
    (exists inv, rv_invoice env = Ok inv /\
                 paymenthash inv = sha256 (rv_preimage env)) /\
    invoiced env = Some a /\
    exists prepay,
      prepay = match rv_fee_invoice env with
               | Some (Ok finv) => Some (paymenthash finv)
               | _ => None
               end /\
      heap (mgr st) !! l = None /\
      heap (mgr st') !! l = Some (reverse_record env a prepay) /\
      callbacks (mgr st') !! rv_lockup_address env = Some l /\
      _swaps_by_lockup_address (mgr st') !! rv_lockup_address env = Some l /\
      (forall h, prepay = Some h ->
                 prepayments st' !! h = Some (sha256 (rv_preimage env))) /\
      payments st'
      = payments st ++ match prepay with
                       | Some _ => [PayFeeInvoice; PayInvoice]
                       | None => [PayInvoice]
                       end.
Proof.
  intros env a expected st st' l Hrun.
  destruct (reverse_success env a expected st st' l Hrun)
    as (prepay & Hc & -> & Hf & _ & Hpre & Hpay).
  destruct (reverse_checks_sound env a expected prepay Hc)
    as (Hscript & Hamt & Hlt & Hinv & Hsum & Hprepay).
  split; [apply reverse_script_checks_sound; exact Hscript|].
  split; [exact Hamt|]. split; [exact Hlt|]. split; [exact Hinv|].
  split; [exact Hsum|]. exists prepay. split; [exact Hprepay|].
  destruct (filed_lookups _ _ _ Hf) as (L1 & L2 & L3 & _).
  split; [apply Hf|]. split; [exact L1|]. split; [exact L2|].
  split; [exact L3|]. split; [|exact Hpay].
  intros h ->. rewrite Hpre. apply lookup_insert_eq.
Qed.

(** X18. An answer that offers less on chain than
    expected, or whose timeout is 60 blocks away or fewer, makes
    [reverse_swap] raise; and whenever [reverse_swap] raises, no
    record was stored, no prepayment registered and no payment
    started: the request to the server is the only call made. *)
Theorem reverse_swap_rejects_bad_offer :
  forall (env : reverse_env) (a expected : Z) (st : rstate),
    (rv_onchain_amount env < expected \/
     rv_locktime env - rv_height env <= 60 ->
     exists e, snd (reverse env a expected st) = Raise e) /\
    (forall e,
        snd (reverse env a expected st) = Raise e ->
        fst (reverse env a expected st)
        = {| mgr := emit (mgr st) [EvCreateSwapRequest];
             prepayments := prepayments st; payments := payments st |}).
Proof.
  intros env a expected st.
  destruct (reverse_outcome env a expected st)
    as [(e & _ & He)|(prepay & st1 & Hc & Hsucc & _)].
  - rewrite He. simpl. split; [eauto | reflexivity].
  - rewrite Hsucc. simpl. split; [|discriminate].
    destruct (reverse_checks_sound env a expected prepay Hc)
      as (_ & Hamt & Hlt & _). lia.
Qed.

(** X19. A reverse swap that was set up is found by
    [get_swap] under its payment hash, unless a swap with that hash
    was stored before; and under the payment hash of its miner-fee
    invoice as well, unless that hash leads to another swap. *)
Theorem reverse_swap_is_found_by_both_hashes :
  forall (env : reverse_env) (a expected : Z) (st st' : rstate) (l : loc),
    reverse env a expected st = (st', Ok l) ->
    swaps (mgr st) !! hex (sha256 (rv_preimage env)) = None ->
    exists prepay,
      get_swap hex st' (sha256 (rv_preimage env))
      = Some (reverse_record env a prepay) /\
      (forall h,
          prepay = Some h ->
          sha256 (rv_preimage env) <> [] ->
          swaps (mgr st) !! hex h = None ->
          get_swap hex st' h = Some (reverse_record env a prepay)).
Proof.
  intros env a expected st st' l Hrun Hnew.
  destruct (reverse_success env a expected st st' l Hrun)
    as (prepay & _ & -> & Hf & _ & Hpre & _).
  destruct (filed_lookups _ _ _ Hf) as (L1 & _ & _ & L4).
  specialize (L4 Hnew).
  change (swaps (mgr st') !! hex (sha256 (rv_preimage env))
          = Some (fresh (dom (heap (mgr st))))) in L4.
  assert (Hmain : deref (mgr st') (swaps (mgr st'))
                    (hex (sha256 (rv_preimage env)))
                  = Some (reverse_record env a prepay)).
  { unfold deref. rewrite L4. simpl. exact L1. }
  exists prepay. split.
  - unfold get_swap. rewrite Hmain. reflexivity.
  - intros h -> Hne Hfree. unfold get_swap.
    destruct (decide (hex h = hex (sha256 (rv_preimage env)))) as [E|E].
    + rewrite E, Hmain. reflexivity.
    + assert (Hnone : deref (mgr st') (swaps (mgr st')) (hex h) = None).
      { unfold deref. destruct Hf as (_ & _ & Hs & _).
        change (hex (payment_hash sha256 (reverse_record env a (Some h))))
          with (hex (sha256 (rv_preimage env))) in Hs.
        rewrite Hnew in Hs. rewrite Hs.
        rewrite lookup_insert_ne by congruence. rewrite Hfree. reflexivity. }
      rewrite Hnone, Hpre, lookup_insert_eq.
      rewrite bool_decide_eq_false_2 by exact Hne. exact Hmain.
Qed.

(** X20. A reverse swap that was set up is claimed when its
    funding shows: once the watcher sees an unspent output of the
    lockup address worth at least the amount offered, with a value
    that covers the fee and the dust threshold, it builds, signs and
    stores a transaction that reveals the preimage and pays the value
    less the fee, hence at least the expected amount less the fee, to
    the wallet's receiving address; [reverse_swap] then reports
    success. *)
Theorem reverse_swap_is_claimed_when_funded :
  forall (env : reverse_env) (a expected : Z) (st st' : rstate) (l : loc)
         (view : chain_view) (txin : TxInput),
    reverse env a expected st = (st', Ok l) ->
    up_to_date view = true ->
    addr_outputs view (rv_lockup_address env) = [txin] ->
    spent_height txin = None ->
    rv_onchain_amount env <= value_sats txin ->
    dust_threshold view <= value_sats txin - claim_fee view ->
    exists ctx sig,
      events (fst (claim view l (mgr st')))
      = events (mgr st') ++ [EvClaimTxSigned ctx; EvAddTransaction ctx] /\
      tx_inputs ctx = [txin] /\
      tx_outputs ctx
      = [(rv_receiving_address env, value_sats txin - claim_fee view)] /\
      expected - claim_fee view <= value_sats txin - claim_fee view /\
      tx_locktime ctx = 0 /\
      tx_witness ctx
      = Some (sig, Some (rv_preimage env), rv_redeem_script env) /\
      reverse_swap_success (fst (claim view l (mgr st'))) l = true.
Proof.
  intros env a expected st st' l view txin Hrun Hup Hout Hsp Hval Hdust.
  destruct (reverse_success env a expected st st' l Hrun)
    as (prepay & Hc & -> & Hf & _).
  destruct (reverse_checks_sound env a expected prepay Hc) as (_ & Hamt & _).
  destruct (filed_lookups _ _ _ Hf) as (L1 & _).
  set (l := fresh (dom (heap (mgr st)))) in *.
  assert (Hlow : (is_reverse (reverse_record env a prepay)
                  && (value_sats txin
                      <? onchain_amount (reverse_record env a prepay)))
                 = false).
  { simpl. apply Z.ltb_ge. exact Hval. }
  destruct (step_builds view l (mgr st') txin (reverse_record env a prepay)
              L1 Hlow Hsp (or_introl eq_refl) Hdust)
    as (ctx & Hb & Hcont & He & Hrec).
  rewrite (claim_single view l (mgr st') _ txin Hup L1 Hout Hcont).
  pose proof (build_shape view txin _ ctx Hb (fun _ => Hval))
    as (txin' & sig & Hi & Ho & _ & _ & _ & Hl & _ & Hw).
  exists ctx, sig. split; [exact He|].
  apply (build_ok sign_txin) in Hb as (_ & Hi' & Ho' & _).
  split; [exact Hi'|]. split; [exact Ho'|]. split; [lia|].
  split; [exact Hl|]. split; [exact Hw|].
  unfold reverse_swap_success. rewrite Hrec. reflexivity.
Qed.

End Facts.

(** *** The theorems at concrete swaps *)

Import Examples MoreExamples.

Local Open Scope string_scope.
Local Open Scope list_scope.

Local Abbreviation toy_claim :=
  (_claim_swap toy_sha256 toy_encode toy_sign toy_txid 30 (-2)).
Local Abbreviation toy_watch :=
  (watch toy_sha256 toy_encode toy_sign toy_txid 30 (-2)).
Local Abbreviation toy_forward :=
  (normal_swap toy_sha256 toy_encode toy_hash_160 toy_p2wsh toy_funding_txid
     "dummy").
Local Abbreviation toy_reverse :=
  (reverse_swap_setup toy_sha256 toy_encode toy_hash_160 toy_p2wsh).

Lemma holding_indexed s : indexed toy_sha256 toy_encode (holding s).
Proof.
  split; intros ? ? H; simpl in H; rewrite lookup_empty in H; discriminate.
Qed.

(** A reverse swap whose funding the watcher sees. *)
Lemma swaps_are_never_forgotten_witness :
  grows (holding rswap)
    (toy_watch 1%positive (holding rswap) [view [utxo 50000]]).
Proof.
  apply (proj1 (swaps_are_never_forgotten toy_sha256 toy_encode toy_hash_160
                  toy_p2wsh toy_sign toy_txid toy_funding_txid "dummy" 30 (-2)
                  (holding rswap))).
Defined.

Lemma dictionaries_agree_with_store_witness :
  indexed toy_sha256 toy_encode
    (toy_watch 1%positive (holding rswap) [view [utxo 50000]]).
Proof.
  apply (proj1 (dictionaries_agree_with_store toy_sha256 toy_encode
                  toy_hash_160 toy_p2wsh toy_sign toy_txid toy_funding_txid
                  "dummy" 30 (-2) (holding rswap) (holding_indexed rswap))).
Defined.

(** The lockup address of an indexed swap, and another address. *)
Lemma lookups_return_matching_records_witness :
  (exists s,
      deref (_add_or_reindex_swap toy_sha256 toy_encode (holding rswap) 1)
        (_swaps_by_lockup_address
           (_add_or_reindex_swap toy_sha256 toy_encode (holding rswap) 1))
        "addr" = Some s /\
      lockup_address s = "addr").
Proof.
  apply (proj1 (proj2 (proj2
           (lookups_return_matching_records toy_sha256 toy_encode
              {| mgr := _add_or_reindex_swap toy_sha256 toy_encode
                          (holding rswap) 1;
                 prepayments := ∅; payments := [] |}
              (reindex_indexed toy_sha256 toy_encode (holding rswap)
                 1%positive (holding_indexed rswap))))) "addr").
  vm_compute. reflexivity.
Defined.

Lemma seen_funding_output_is_indexed_witness :
  exists s,
    get_swap_by_claim_txin
      (toy_watch 1%positive (holding rswap) [view [utxo 50000]]) (utxo 50000)
    = Some s /\
    same_swap rswap s /\ is_Some (funding_txid s).
Proof.
  apply (seen_funding_output_is_indexed toy_sha256 toy_encode toy_sign
           toy_txid 30 (-2) (view [utxo 50000]) 1%positive (holding rswap)
           rswap (utxo 50000) []).
  - reflexivity.
  - apply holding_lookup.
  - left. reflexivity.
  - apply list_elem_of_here.
  - intros _. vm_compute. discriminate.
Defined.

(** The funding transaction of the toy functions, with one output and
    with change. *)
Lemma funding_tx_is_recognised_if_single_output_witness :
  (exists s,
      get_swap_by_funding_tx toy_funding_txid
        (toy_watch 1%positive (holding rswap) [view [funded 50000]])
        {| f_outputs := [("addr", 50000)]; f_rbf := true; f_signed := true |}
      = Returns (Some s) /\
      same_swap rswap s) /\
  get_swap_by_funding_tx toy_funding_txid
    (toy_watch 1%positive (holding rswap) [view [funded 50000]])
    {| f_outputs := [("addr", 50000); ("change", 7)]; f_rbf := true;
       f_signed := true |}
  = ReturnsFalse.
Proof.
  split.
  - apply (proj1 (funding_tx_is_recognised_if_single_output toy_sha256
                    toy_encode toy_sign toy_txid toy_funding_txid 30 (-2)
                    (view [funded 50000]) 1%positive (holding rswap) rswap
                    (funded 50000) []
                    {| f_outputs := [("addr", 50000)]; f_rbf := true;
                       f_signed := true |}
                    eq_refl (holding_lookup rswap) (or_introl eq_refl)
                    (list_elem_of_here _ _)
                    (fun _ => ltac:(vm_compute; discriminate)) eq_refl)).
    reflexivity.
  - apply (proj2 (funding_tx_is_recognised_if_single_output toy_sha256
                    toy_encode toy_sign toy_txid toy_funding_txid 30 (-2)
                    (view [funded 50000]) 1%positive (holding rswap) rswap
                    (funded 50000) []
                    {| f_outputs := [("addr", 50000); ("change", 7)];
                       f_rbf := true; f_signed := true |}
                    eq_refl (holding_lookup rswap) (or_introl eq_refl)
                    (list_elem_of_here _ _)
                    (fun _ => ltac:(vm_compute; discriminate)) eq_refl)).
    simpl. discriminate.
Defined.

(** A forward swap watched one block before its timeout. *)
Lemma no_refund_before_timeout_witness :
  exists evs,
    events (toy_watch 1%positive (holding fswap) [view_at 99999 [utxo 50000]])
    = events (holding fswap) ++ evs /\
    Forall (fun ev => claim_of ev = None) evs.
Proof.
  apply (no_refund_before_timeout toy_sha256 toy_encode toy_sign toy_txid
           30 (-2) 1%positive (holding fswap) fswap
           [view_at 99999 [utxo 50000]]).
  - apply holding_lookup.
  - reflexivity.
  - repeat constructor.
Defined.

Lemma watcher_builds_well_formed_claims_witness :
  exists evs,
    events (toy_watch 1%positive (holding rswap) [view [utxo 50000]])
    = events (holding rswap) ++ evs /\
    Forall (fun ev => forall tx, claim_of ev = Some tx ->
              exists env, env ∈ [view [utxo 50000]] /\
                          claim_shape rswap (Swaps.claim_fee env) tx /\
                          (is_reverse rswap = false ->
                           locktime rswap <= local_height env)) evs.
Proof.
  apply (watcher_builds_well_formed_claims toy_sha256 toy_encode toy_sign
           toy_txid 30 (-2) 1%positive (holding rswap) rswap
           [view [utxo 50000]]).
  apply holding_lookup.
Defined.

Lemma built_claims_are_attributed_witness :
  exists evs,
    events (toy_watch 1%positive (holding rswap) [view [utxo 50000]])
    = events (holding rswap) ++ evs /\
    Forall (fun ev => forall tx, claim_of ev = Some tx ->
              exists s,
                get_swap_by_claim_tx
                  (toy_watch 1%positive (holding rswap) [view [utxo 50000]]) tx
                = Some (Some s) /\
                same_swap rswap s) evs.
Proof.
  apply (built_claims_are_attributed toy_sha256 toy_encode toy_sign
           toy_txid 30 (-2) 1%positive (holding rswap) rswap
           [view [utxo 50000]]).
  apply holding_lookup.
Defined.

Lemma toy_forward_accepts :
  toy_forward (quote 50000 99900) 49000 50000 None empty_manager
  = (fst (toy_forward (quote 50000 99900) 49000 50000 None empty_manager),
     Ok "funding").
Proof.
  rewrite (surjective_pairing
             (toy_forward (quote 50000 99900) 49000 50000 None empty_manager))
    at 1.
  f_equal.
Qed.

(** A quote within budget, 100 blocks before its timeout. *)
Lemma accepted_forward_swap_is_checked_and_filed_witness :
  resp_onchain_amount (quote 50000 99900) <= 50000 /\
  resp_locktime (quote 50000 99900) - height (quote 50000 99900) < 144.
Proof.
  destruct (accepted_forward_swap_is_checked_and_filed toy_sha256 toy_encode
              toy_hash_160 toy_p2wsh toy_funding_txid "dummy"
              (quote 50000 99900) 49000 50000 None empty_manager _ _
              toy_forward_accepts)
    as [(toks & lt & _ & _ & _ & _ & _ & _ & _ & Hamt & Hlt) _].
  split; assumption.
Defined.

(** The same swap at its timeout, with its funding output unspent. *)
Lemma forward_swap_is_refunded_after_timeout_witness :
  exists l rtx,
    callbacks (fst (toy_forward (quote 50000 99900) 49000 50000 None
                      empty_manager)) !! "addr" = Some l /\
    events (fst (toy_claim (view_at 100000 [utxo 50000]) l
                   (fst (toy_forward (quote 50000 99900) 49000 50000 None
                           empty_manager))))
    = events (fst (toy_forward (quote 50000 99900) 49000 50000 None
                     empty_manager))
      ++ [EvClaimTxSigned rtx; EvAddTransaction rtx] /\
    tx_inputs rtx = [utxo 50000] /\
    tx_outputs rtx = [("mine", 50000 - 136)] /\
    tx_locktime rtx = 100000.
Proof.
  apply (forward_swap_is_refunded_after_timeout toy_sha256 toy_encode
           toy_hash_160 toy_p2wsh toy_sign toy_txid toy_funding_txid "dummy"
           30 (-2) (quote 50000 99900) 49000 50000 None empty_manager _ _
           (view_at 100000 [utxo 50000]) (utxo 50000) toy_forward_accepts).
  - reflexivity.
  - vm_compute. discriminate.
  - reflexivity.
  - reflexivity.
  - vm_compute. discriminate.
Defined.

Lemma toy_reverse_accepts fee :
  toy_reverse (offer 50000 99900 fee) 51000 50000 idle
  = (fst (toy_reverse (offer 50000 99900 fee) 51000 50000 idle),
     Ok 1%positive).
Proof.
  rewrite (surjective_pairing
             (toy_reverse (offer 50000 99900 fee) 51000 50000 idle)) at 1.
  f_equal. destruct fee; vm_compute; reflexivity.
Qed.

(** An offer of the expected 50000 sat, 100 blocks before its timeout,
    with an invoice for the miner fee. *)
Lemma accepted_reverse_swap_is_checked_and_filed_witness :
  50000 <= rv_onchain_amount (offer 50000 99900 true) /\
  invoiced (offer 50000 99900 true) = Some 51000.
Proof.
  destruct (accepted_reverse_swap_is_checked_and_filed toy_sha256 toy_encode
              toy_hash_160 toy_p2wsh (offer 50000 99900 true) 51000 50000
              idle _ _ (toy_reverse_accepts true))
    as (_ & Hamt & _ & _ & Hsum & _).
  split; assumption.
Defined.

(** An offer one satoshi short. *)
Lemma reverse_swap_rejects_bad_offer_witness :
  exists e,
    snd (toy_reverse (offer 49999 99900 false) 51000 50000 idle) = Raise e.
Proof.
  apply (proj1 (reverse_swap_rejects_bad_offer toy_sha256 toy_encode
                  toy_hash_160 toy_p2wsh (offer 49999 99900 false) 51000
                  50000 idle)).
  left. vm_compute. reflexivity.
Defined.

Lemma reverse_swap_is_found_by_both_hashes_witness :
  exists prepay,
    get_swap toy_encode
      (fst (toy_reverse (offer 50000 99900 true) 51000 50000 idle))
      (toy_sha256 (replicate 32 Byte.x01))
    = Some (reverse_record (offer 50000 99900 true) 51000 prepay) /\
    (forall h,
        prepay = Some h ->
        toy_sha256 (replicate 32 Byte.x01) <> [] ->
        swaps (mgr idle) !! toy_encode h = None ->
        get_swap toy_encode
          (fst (toy_reverse (offer 50000 99900 true) 51000 50000 idle)) h
        = Some (reverse_record (offer 50000 99900 true) 51000 prepay)).
Proof.
  apply (reverse_swap_is_found_by_both_hashes toy_sha256 toy_encode
           toy_hash_160 toy_p2wsh (offer 50000 99900 true) 51000 50000
           idle _ _ (toy_reverse_accepts true)).
  reflexivity.
Defined.

Lemma reverse_swap_is_claimed_when_funded_witness :
  exists ctx sig,
    events (fst (toy_claim (view [utxo 50000]) 1%positive
                   (mgr (fst (toy_reverse (offer 50000 99900 false) 51000
                                50000 idle)))))
    = events (mgr (fst (toy_reverse (offer 50000 99900 false) 51000 50000
                          idle)))
      ++ [EvClaimTxSigned ctx; EvAddTransaction ctx] /\
    tx_inputs ctx = [utxo 50000] /\
    tx_outputs ctx = [("mine", 50000 - 136)] /\
    50000 - 136 <= 50000 - 136 /\
    tx_locktime ctx = 0 /\
    tx_witness ctx
    = Some (sig, Some (replicate 32 Byte.x01), script_size_32) /\
    reverse_swap_success
      (fst (toy_claim (view [utxo 50000]) 1%positive
              (mgr (fst (toy_reverse (offer 50000 99900 false) 51000 50000
                           idle))))) 1%positive = true.
Proof.
  apply (reverse_swap_is_claimed_when_funded toy_sha256 toy_encode
           toy_hash_160 toy_p2wsh toy_sign toy_txid 30 (-2)
           (offer 50000 99900 false) 51000 50000 idle _ 1%positive
           (view [utxo 50000]) (utxo 50000) (toy_reverse_accepts false)).
  - reflexivity.
  - reflexivity.
  - reflexivity.
  - vm_compute. discriminate.
  - vm_compute. discriminate.
Defined.

End SwapMore.

(** ** The swap dialog and the swap manager together *)

Module HelperFacts.
Import Script Swaps SwapsExt SwapHelper SwapFacts.

Section Facts.
Variable sha256 : bytes -> bytes.
Variable hex : bytes -> string.
Variable hash_160 : bytes -> bytes.
Variable script_to_p2wsh : bytes -> string.
Variable sign_txin : PartialTransaction -> bytes -> bytes.
Variable txid_of : PartialTransaction -> string.
Variable REDEEM_AFTER_DOUBLE_SPENT_DELAY : Z.
Variable TX_HEIGHT_LOCAL : Z.

Local Abbreviation claim :=
  (_claim_swap sha256 hex sign_txin txid_of
     REDEEM_AFTER_DOUBLE_SPENT_DELAY TX_HEIGHT_LOCAL).
Local Abbreviation execute :=
  (execute_reverse_swap sha256 hex hash_160 script_to_p2wsh).

(** What the dialog holds after the slider was moved to the left. *)
Lemma slider_reverse c position s :
  position < 0 ->
  swap_slider_moved c position = Ok s ->
  isReverse s = true /\ _send_amount s = - position /\
  FeeCalc.get_recv_amount c (Some (- position)) true = Ok (_receive_amount s) /\
  valid s = check_valid (Some (- position)) (_receive_amount s).
Proof.
  intros Hneg. unfold swap_slider_moved, mbind, result_bind.
  destruct (position <? 0) eqn:Hp; [|lia].
  replace (Z.abs position) with (- position) by lia.
  destruct (FeeCalc.get_recv_amount c (Some (- position)) true) as [r|e];
    [|discriminate].
  intros [= <-]. simpl. repeat split.
Qed.

(** X21. What the dialog shows for a reverse swap is what the
    user gets: with the slider on the left at [position], a swap that
    is executed and accepted has invoices adding up to exactly the
    amount shown as sent; and when the watcher, with an unchanged fee
    estimate, sees the lockup address funded by an unspent output of at
    least the offered amount whose value covers fee and dust, the
    claim it builds pays the wallet at least the amount shown as
    received. *)
Theorem shown_reverse_amounts_are_honoured :
  forall (c : FeeCalc.config) (env : reverse_env) (position : Z) (s : shown)
         (st st' : rstate) (l : loc) (view : chain_view) (txin : TxInput),
    position < 0 ->
    swap_slider_moved c position = Ok s ->
    execute c env s st = Some (st', Ok l) ->
    up_to_date view = true ->
    claim_fee view = FeeCalc.claim_fee c ->
    addr_outputs view (rv_lockup_address env) = [txin] ->
    spent_height txin = None ->
    rv_onchain_amount env <= value_sats txin ->
    dust_threshold view <= value_sats txin - claim_fee view ->
    exists received ctx paid,
      _receive_amount s = Some received /\
      invoiced env = Some (_send_amount s) /\
      events (fst (claim view l (mgr st')))
      = events (mgr st') ++ [EvClaimTxSigned ctx; EvAddTransaction ctx] /\
      tx_outputs ctx = [(rv_receiving_address env, paid)] /\
      received <= paid.
Proof.
  intros c env position s st st' l view txin Hneg Hs Hex Hup Hfee Hout Hsp
         Hval Hdust.
  destruct (slider_reverse c position s Hneg Hs) as (_ & Hsend & _ & _).
  unfold execute_reverse_swap, do_reverse_swap in Hex.
  destruct (_receive_amount s) as [received|]; [|discriminate].
  injection Hex as Hrun.
  destruct (SwapMore.reverse_success sha256 hex hash_160 script_to_p2wsh
              env _ _ st st' l Hrun) as (prepay & Hc & Hl & Hf & _).
  destruct (SwapMore.reverse_checks_sound sha256 hash_160 script_to_p2wsh
              env _ _ prepay Hc) as (_ & Hamt & _ & _ & Hsum & _).
  destruct (SwapMore.filed_lookups sha256 hex _ _ _ Hf) as (L1 & _).
  rewrite <- Hl in L1.
  assert (Hlow : (is_reverse (reverse_record env (_send_amount s) prepay)
                  && (value_sats txin
                      <? onchain_amount
                           (reverse_record env (_send_amount s) prepay)))
                 = false).
  { simpl. apply Z.ltb_ge. exact Hval. }
  destruct (SwapMore.step_builds sha256 hex sign_txin txid_of
              REDEEM_AFTER_DOUBLE_SPENT_DELAY TX_HEIGHT_LOCAL view l (mgr st')
              txin _ L1 Hlow Hsp (or_introl eq_refl) Hdust)
    as (ctx & Hb & Hcont & He & _).
  rewrite (SwapMore.claim_single sha256 hex sign_txin txid_of
             REDEEM_AFTER_DOUBLE_SPENT_DELAY TX_HEIGHT_LOCAL view l (mgr st')
             _ txin Hup L1 Hout Hcont).
  apply (build_ok sign_txin) in Hb as (_ & _ & Ho & _).
  exists received, ctx, (value_sats txin - claim_fee view).
  split; [reflexivity|]. split; [exact Hsum|]. split; [exact He|].
  split; [exact Ho | lia].
Qed.

End Facts.

Import FeeCalc Examples MoreExamples.

Local Open Scope string_scope.
Local Open Scope list_scope.

Lemma slider_at_minus_51000 : swap_slider_moved sample (-51000) = Ok moved.
Proof. vm_compute. reflexivity. Qed.

Lemma execute_at_minus_51000 :
  execute_reverse_swap toy_sha256 toy_encode toy_hash_160 toy_p2wsh sample
    (offer 50000 99900 false) moved idle
  = Some (accepted, Ok 1%positive).
Proof. unfold execute_reverse_swap, do_reverse_swap. f_equal. Qed.

(** 51000 sat sent at one half percent and a lockup fee of 2000: 48609
    sat shown as received, 49864 paid by the claim of a 50000 sat
    output. *)
Lemma shown_reverse_amounts_are_honoured_witness :
  exists received ctx paid,
    _receive_amount moved = Some received /\
    invoiced (offer 50000 99900 false) = Some (_send_amount moved) /\
    events
      (fst (_claim_swap toy_sha256 toy_encode toy_sign toy_txid 30 (-2)
              (view [utxo 50000]) 1%positive (mgr accepted)))
    = events (mgr accepted) ++ [EvClaimTxSigned ctx; EvAddTransaction ctx] /\
    tx_outputs ctx = [("mine", paid)] /\
    received <= paid.
Proof.
  apply (shown_reverse_amounts_are_honoured toy_sha256 toy_encode toy_hash_160
           toy_p2wsh toy_sign toy_txid 30 (-2) sample
           (offer 50000 99900 false) (-51000) moved idle accepted 1%positive
           (view [utxo 50000]) (utxo 50000)).
  - lia.
  - exact slider_at_minus_51000.
  - exact execute_at_minus_51000.
  - reflexivity.
  - reflexivity.
  - reflexivity.
  - reflexivity.
  - vm_compute. discriminate.
  - vm_compute. discriminate.
Defined.

End HelperFacts.

(** ** More properties of the merkle verifier *)

Module SPVMore.
Import SPV SPVExt SPVFacts.

(** *** Requesting proofs *)

Lemma request_step_cases env st tx h :
  (request_step env st (tx, h) = st \/
   (exists hd, chain_header env h = None /\ hd = h /\
      request_step env st (tx, h)
      = {| blockchain := blockchain st; merkle_roots := merkle_roots st;
           requested_merkle := requested_merkle st;
           effects := effects st ++ [FetchMissingHeadersAround h] |})) \/
  (eligible env h /\ ~ known st tx /\
   request_step env st (tx, h)
   = {| blockchain := blockchain st; merkle_roots := merkle_roots st;
        requested_merkle := {[tx]} ∪ requested_merkle st;
        effects := effects st ++ [GetMerkleForTransaction tx h] |}).
Proof.
  unfold request_step.
  destruct ((h <=? 0) || (local_height env <? h)) eqn:Hrange;
    [left; left; reflexivity|].
  apply orb_false_elim in Hrange as [H1 H2].
  destruct (chain_header env h) as [hd|] eqn:Hhd.
  - destruct (bool_decide (tx ∉ requested_merkle st)) eqn:Hreq;
      [|left; left; reflexivity].
    destruct (bool_decide (merkle_roots st !! tx = None)) eqn:Hroots;
      [|left; left; reflexivity].
    apply bool_decide_eq_true in Hreq, Hroots. simpl.
    right. split; [|split; [|reflexivity]].
    + split; [lia | rewrite Hhd; eauto].
    + intros [Hk|Hk]; [contradiction|]. rewrite Hroots in Hk.
      destruct Hk; discriminate.
  - destruct (is_before_last_checkpoint env h);
      [left; right; exists h; auto | left; left; reflexivity].
Qed.

(** The loop of [run] over [txs], started in [st]. *)
Lemma requests_spec env txs : forall st,
  exists evs,
    effects (foldl (request_step env) st txs) = effects st ++ evs /\
    blockchain (foldl (request_step env) st txs) = blockchain st /\
    merkle_roots (foldl (request_step env) st txs) = merkle_roots st /\
    requested_merkle (foldl (request_step env) st txs)
    = list_to_set (requests evs) ∪ requested_merkle st /\
    Forall (fun ev => forall tx h, request_of ev = Some (tx, h) ->
              (tx, h) ∈ txs /\ eligible env h /\ ~ known st tx) evs /\
    NoDup (requests evs).
Proof.
  induction txs as [|[tx h] txs IH]; intros st; cbn [foldl].
  { exists []. rewrite app_nil_r. simpl.
    repeat split; try constructor. set_solver. }
  destruct (request_step_cases env st tx h)
    as [[Hsame|(h' & _ & _ & Hfetch)]|(Hel & Hnew & Hreq)].
  - rewrite Hsame. destruct (IH st) as (evs & He & Hb & Hr & Hq & Hall & Hnd).
    exists evs. repeat split; try assumption.
    eapply Forall_impl; [exact Hall|]. intros ev Hev tx' h0 Hrq.
    destruct (Hev tx' h0 Hrq) as (? & ? & ?). set_solver.
  - rewrite Hfetch.
    destruct (IH {| blockchain := blockchain st; merkle_roots := merkle_roots st;
                    requested_merkle := requested_merkle st;
                    effects := effects st ++ [FetchMissingHeadersAround h] |})
      as (evs & He & Hb & Hr & Hq & Hall & Hnd). simpl in *.
    exists (FetchMissingHeadersAround h :: evs).
    rewrite He, <- app_assoc. simpl.
    repeat split; try assumption.
    constructor; [intros ? ? [=]|].
    eapply Forall_impl; [exact Hall|]. intros ev Hev tx' h0 Hrq.
    destruct (Hev tx' h0 Hrq) as (? & ? & ?). set_solver.
  - rewrite Hreq.
    destruct (IH {| blockchain := blockchain st; merkle_roots := merkle_roots st;
                    requested_merkle := {[tx]} ∪ requested_merkle st;
                    effects := effects st ++ [GetMerkleForTransaction tx h] |})
      as (evs & He & Hb & Hr & Hq & Hall & Hnd). simpl in *.
    exists (GetMerkleForTransaction tx h :: evs).
    rewrite He, <- app_assoc. simpl.
    assert (Hfresh : tx ∉ requests evs).
    { intros Hin. unfold requests in Hin.
      apply list_elem_of_omap in Hin as (ev & Hev & Hrq).
      rewrite Forall_forall in Hall.
      destruct (request_of ev) as [[tx' h']|] eqn:E; [|discriminate].
      simpl in Hrq. injection Hrq as ->.
      destruct (Hall ev Hev tx h' E) as (_ & _ & Hk).
      apply Hk. left. simpl. set_solver. }
    repeat split; try assumption.
    + rewrite Hq. set_solver.
    + constructor.
      * intros tx' h0 [= <- <-]. split; [set_solver | auto].
      * eapply Forall_impl; [exact Hall|]. intros ev Hev tx' h0 Hrq.
        destruct (Hev tx' h0 Hrq) as (? & ? & Hk).
        split; [set_solver|]. split; [assumption|].
        intros [Hk'|Hk']; apply Hk; [left | right]; simpl;
          [set_solver | exact Hk'].
    + constructor; assumption.
Qed.

Lemma undo_effects env st :
  effects (undo_verifications env st) = effects st.
Proof.
  unfold undo_verifications. generalize (undone env) as txs. intros txs.
  revert st. induction txs as [|tx txs IH]; intros st; simpl;
    [reflexivity|]. rewrite IH. reflexivity.
Qed.

(** A call of [run] asks for no transaction that is pending or
    verified. *)
Lemma run_asks_unknown env st :
  exists evs,
    effects (run env st) = effects st ++ evs /\
    forall tx, known st tx -> tx ∉ requests evs.
Proof.
  assert (Hnone : exists evs : list effect,
             effects st = effects st ++ evs /\
             forall tx, known st tx -> tx ∉ requests evs).
  { exists []. rewrite app_nil_r. split; [reflexivity|].
    intros tx _ Hin. apply elem_of_nil in Hin. exact Hin. }
  unfold run.
  destruct (negb (is_connected env)); [exact Hnone|].
  destruct (network_blockchain env) as [chain|]; [|exact Hnone].
  destruct (requests_spec env (unverified env) st)
    as (evs & He & _ & _ & _ & Hall & _).
  exists evs. split.
  - destruct (negb (bool_decide (chain = blockchain
                (foldl (request_step env) st (unverified env)))));
      [rewrite undo_effects; simpl; exact He | exact He].
  - intros tx Hk Hin. unfold requests in Hin.
    apply list_elem_of_omap in Hin as (ev & Hev & Hrq).
    rewrite Forall_forall in Hall.
    destruct (request_of ev) as [[tx' h']|] eqn:E; [|discriminate].
    simpl in Hrq. injection Hrq as ->.
    destruct (Hall ev Hev tx h' E) as (_ & _ & Hn). exact (Hn Hk).
Qed.

(** X22. One call of [run] only adds to the calls made, and
    asks a proof only for an unverified transaction of the wallet at
    its height, when that height is positive and within the local
    chain and its header is at hand, and when the transaction was
    neither pending nor verified before; and it asks for no
    transaction twice. *)
Theorem run_requests_only_what_is_due :
  forall (env : run_env) (st : state),
    exists evs,
      effects (run env st) = effects st ++ evs /\
      Forall (fun ev => forall tx h, request_of ev = Some (tx, h) ->
                (tx, h) ∈ unverified env /\ eligible env h /\ ~ known st tx)
             evs /\
      NoDup (requests evs).
Proof.
  intros env st.
  assert (Hnone : exists evs : list effect,
             effects st = effects st ++ evs /\
             Forall (fun ev => forall tx h, request_of ev = Some (tx, h) ->
                       (tx, h) ∈ unverified env /\ eligible env h /\
                       ~ known st tx) evs /\
             NoDup (requests evs)).
  { exists []. rewrite app_nil_r. repeat split; constructor. }
  unfold run.
  destruct (negb (is_connected env)); [exact Hnone|].
  destruct (network_blockchain env) as [chain|]; [|exact Hnone].
  destruct (requests_spec env (unverified env) st)
    as (evs & He & _ & _ & _ & Hall & Hnd).
  exists evs. split; [|split; assumption].
  destruct (negb (bool_decide (chain = blockchain
              (foldl (request_step env) st (unverified env)))));
    [rewrite undo_effects; simpl; exact He | exact He].
Qed.

Lemma request_step_known env st tx tx' :
  known st tx' -> known (request_step env st tx) tx'.
Proof.
  intros Hk. destruct tx as [t h].
  destruct (request_step_cases env st t h)
    as [[-> |(h' & _ & _ & ->)]|(_ & _ & ->)]; [exact Hk | exact Hk |].
  destruct Hk as [Hk|Hk]; [left | right]; simpl; [set_solver | exact Hk].
Qed.

Lemma requests_known env txs : forall st tx',
  known st tx' -> known (foldl (request_step env) st txs) tx'.
Proof.
  induction txs as [|tx txs IH]; intros st tx' Hk; cbn [foldl]; [exact Hk|].
  apply IH, request_step_known, Hk.
Qed.

Lemma requests_cover env txs : forall st tx h,
  (tx, h) ∈ txs -> eligible env h ->
  known (foldl (request_step env) st txs) tx.
Proof.
  induction txs as [|[t h0] txs IH]; intros st tx h Hin Hel; cbn [foldl].
  { apply elem_of_nil in Hin. contradiction. }
  apply elem_of_cons in Hin as [Heq|Hin]; [|eapply IH; eauto].
  injection Heq as <- <-.
  apply requests_known.
  destruct (request_step_cases env st tx h)
    as [[Hsame|(h' & Hnone & _ & _)]|(_ & _ & ->)].
  - rewrite Hsame. unfold request_step in Hsame.
    destruct Hel as [Hrange [hd Hhd]].
    destruct ((h <=? 0) || (local_height env <? h)) eqn:E.
    { apply orb_prop in E as [E|E]; lia. }
    rewrite Hhd in Hsame.
    destruct (bool_decide (tx ∉ requested_merkle st)) eqn:Hreq.
    + destruct (bool_decide (merkle_roots st !! tx = None)) eqn:Hroots.
      * simpl in Hsame. apply (f_equal requested_merkle) in Hsame.
        simpl in Hsame. left. rewrite <- Hsame.
        apply elem_of_union_l, elem_of_singleton. reflexivity.
      * apply bool_decide_eq_false in Hroots. right.
        destruct (merkle_roots st !! tx); [eauto | contradiction].
    + apply bool_decide_eq_false in Hreq. left.
      destruct (decide (tx ∈ requested_merkle st)); [assumption|contradiction].
  - destruct Hel as [_ [hd Hhd]]. congruence.
  - left. simpl. set_solver.
Qed.

(** X23. After a call of [run] on a connected network whose
    chain is the one the verifier last saw, every unverified
    transaction of the wallet with a positive height within the local
    chain whose header is at hand is pending or verified. *)
Theorem run_covers_every_due_transaction :
  forall (env : run_env) (st : state) (tx : string) (h : Z),
    is_connected env = true ->
    network_blockchain env = Some (blockchain st) ->
    (tx, h) ∈ unverified env ->
    eligible env h ->
    known (run env st) tx.
Proof.
  intros env st tx h Hconn Hchain Hin Hel. unfold run.
  rewrite Hconn, Hchain. simpl.
  destruct (requests_spec env (unverified env) st) as (_ & _ & Hb & _).
  rewrite Hb, bool_decide_eq_true_2 by reflexivity. simpl.
  eapply requests_cover; eauto.
Qed.

(** *** Undoing verifications *)

Lemma remove_forgets st tx :
  ~ known (remove_spv_proof_for_tx st tx) tx.
Proof.
  intros [Hk|Hk]; simpl in Hk; [set_solver|].
  rewrite lookup_delete_eq in Hk. destruct Hk; discriminate.
Qed.

Lemma remove_keeps_unknown st tx tx' :
  ~ known st tx' -> ~ known (remove_spv_proof_for_tx st tx) tx'.
Proof.
  intros Hn [Hk|Hk]; apply Hn; simpl in Hk; [left; set_solver|right].
  destruct (decide (tx = tx')) as [->|Hd].
  - rewrite lookup_delete_eq in Hk. destruct Hk; discriminate.
  - rewrite lookup_delete_ne in Hk by exact Hd. exact Hk.
Qed.

Lemma undo_forgets txs : forall st tx,
  tx ∈ txs \/ ~ known st tx ->
  ~ known (foldl remove_spv_proof_for_tx st txs) tx.
Proof.
  induction txs as [|t txs IH]; intros st tx Hin; simpl.
  { destruct Hin as [Hin|Hn]; [apply elem_of_nil in Hin; contradiction|].
    exact Hn. }
  apply IH. destruct Hin as [Hin|Hn].
  - apply elem_of_cons in Hin as [->|Hin]; [right; apply remove_forgets|].
    left. exact Hin.
  - right. apply remove_keeps_unknown. exact Hn.
Qed.

Lemma undo_blockchain txs : forall st,
  blockchain (foldl remove_spv_proof_for_tx st txs) = blockchain st.
Proof.
  induction txs as [|t txs IH]; intros st; simpl; [reflexivity|].
  rewrite IH. reflexivity.
Qed.

(** X24. When [run] finds the network on another chain
    than the one the verifier last saw, the verifier adopts that chain,
    and every transaction the wallet reports as undone is afterwards
    neither pending nor verified, even if this very call had asked for
    its proof. *)
Theorem chain_switch_forgets_undone_proofs :
  forall (env : run_env) (st : state) (chain : Z) (tx : string),
    is_connected env = true ->
    network_blockchain env = Some chain ->
    chain <> blockchain st ->
    blockchain (run env st) = chain /\
    (tx ∈ undone env -> ~ known (run env st) tx).
Proof.
  intros env st chain tx Hconn Hchain Hne. unfold run.
  rewrite Hconn, Hchain. simpl.
  destruct (requests_spec env (unverified env) st) as (_ & _ & Hb & _).
  rewrite Hb, bool_decide_eq_false_2 by exact Hne. simpl.
  unfold undo_verifications. split.
  - rewrite undo_blockchain. reflexivity.
  - intros Hin. apply undo_forgets. left. exact Hin.
Qed.

Section Facts.
Variable Hash : bytes -> bytes.
Variable hash_decode : string -> bytes.
Variable hash_encode : bytes -> string.
Variable bh2u : bytes -> string.
Variable deserializes : string -> bool.

Local Abbreviation step := (merkle_step Hash hash_decode).
Local Abbreviation loop := (merkle_loop Hash hash_decode bh2u deserializes).
Local Abbreviation root :=
  (hash_merkle_root Hash hash_decode hash_encode bh2u deserializes).
Local Abbreviation fold := (fold_siblings Hash hash_decode).
Local Abbreviation nodes := (inner_nodes Hash hash_decode).
Local Abbreviation verify :=
  (verify_merkle Hash hash_decode hash_encode bh2u deserializes).

(** *** The position *)

Lemma step_low_bits n pos i item h :
  (i < n)%nat ->
  step (pos mod 2 ^ Z.of_nat n) i item h = step pos i item h.
Proof.
  intros Hi. unfold merkle_step. rewrite !land_shiftr_bit.
  rewrite Z.mod_pow2_bits_low by lia. reflexivity.
Qed.

Lemma loop_low_bits n pos items : forall i h,
  (i + length items <= n)%nat ->
  loop items i (pos mod 2 ^ Z.of_nat n) h = loop items i pos h.
Proof.
  induction items as [|item rest IH]; intros i h Hn; simpl in *;
    [reflexivity|].
  rewrite step_low_bits by lia.
  destruct (_raise_if_valid_tx deserializes (bh2u (step pos i item h)));
    [|reflexivity].
  rewrite IH by lia. reflexivity.
Qed.

(** X25. Of the position sent by the server only the bits
    below the length of the path are read: positions that agree modulo
    2 to the power of that length give the same calls of the inner-node
    check and the same root or exception. *)
Theorem position_is_read_modulo_path_length :
  forall (merkle_s : list string) (target_hash : string) (pos pos' : Z),
    pos mod 2 ^ Z.of_nat (length merkle_s)
    = pos' mod 2 ^ Z.of_nat (length merkle_s) ->
    hash_merkle_root Hash hash_decode hash_encode bh2u deserializes
      merkle_s target_hash pos
    = hash_merkle_root Hash hash_decode hash_encode bh2u deserializes
        merkle_s target_hash pos'.
Proof.
  intros merkle_s target_hash pos pos' Hmod. unfold hash_merkle_root.
  rewrite <- (loop_low_bits (length merkle_s) pos) by (simpl; lia).
  rewrite <- (loop_low_bits (length merkle_s) pos') by (simpl; lia).
  rewrite Hmod. reflexivity.
Qed.

(** *** Accepting a proof *)

Lemma loop_ok_nodes items : forall i pos h r,
  snd (loop items i pos h) = Ok r ->
  Forall (fun n => deserializes (bh2u n) = false) (nodes items i pos h).
Proof.
  induction items as [|item rest IH]; intros i pos h r; simpl.
  - constructor.
  - rewrite merkle_step_bit. unfold _raise_if_valid_tx.
    set (h' := if Z.testbit pos (Z.of_nat i)
               then Hash (hash_decode item ++ h)
               else Hash (h ++ hash_decode item)) in *.
    destruct (deserializes (bh2u h')) eqn:Hd; [discriminate|].
    specialize (IH (S i) pos h' r).
    destruct (loop rest (S i) pos h'); simpl in *.
    intros Hr. constructor; [exact Hd | apply IH; exact Hr].
Qed.

Lemma root_ok_nodes merkle_s target pos r :
  snd (root merkle_s target pos) = Ok r ->
  Forall (fun n => deserializes (bh2u n) = false)
         (nodes merkle_s 0%nat pos (hash_decode target)).
Proof.
  unfold hash_merkle_root.
  destruct (loop merkle_s 0%nat pos (hash_decode target))
    as [checked [h|e]] eqn:E; simpl; [|discriminate].
  intros _. apply (loop_ok_nodes _ _ _ _ h). rewrite E. reflexivity.
Qed.

(** What [verify_merkle] does on its exits. *)
Lemma verify_cases env st resp :
  (snd (verify env st resp) <> Verified /\ fst (verify env st resp) = st) \/
  (exists hd r,
      snd (verify env st resp) = Verified /\
      verifier_alive env = true /\ error resp = false /\
      snd (root (merkle resp) (tx_hash resp) (pos resp)) = Ok r /\
      read_header env (block_height resp) = Some hd /\
      merkle_root hd = r /\
      blockchain (fst (verify env st resp)) = blockchain st /\
      merkle_roots (fst (verify env st resp))
      = <[tx_hash resp := r]> (merkle_roots st) /\
      requested_merkle (fst (verify env st resp))
      = requested_merkle st ∖ {[tx_hash resp]} /\
      (effects (fst (verify env st resp))
       = effects st ++ [AddVerifiedTx (tx_hash resp) (block_height resp)
                          (timestamp hd) (pos resp)] \/
       effects (fst (verify env st resp))
       = effects st ++ [AddVerifiedTx (tx_hash resp) (block_height resp)
                          (timestamp hd) (pos resp); SaveVerifiedTx])).
Proof.
  unfold verify_merkle.
  destruct (verifier_alive env); simpl; [|left; split; [discriminate|reflexivity]].
  destruct (error resp); [left; split; [discriminate|reflexivity]|].
  destruct (snd (root (merkle resp) (tx_hash resp) (pos resp))) as [r|e].
  2:{ left. destruct e; split; first [discriminate | reflexivity]. }
  destruct (read_header env (block_height resp)) as [hd|];
    [|left; split; [discriminate|reflexivity]].
  destruct (bool_decide (merkle_root hd = r)) eqn:Hroot; simpl;
    [|left; split; [discriminate|reflexivity]].
  apply bool_decide_eq_true in Hroot.
  right. exists hd, r.
  match goal with |- context [if ?b then _ else _] => destruct b end; simpl;
    repeat (split; [first [reflexivity | exact Hroot]|]).
  - right. rewrite <- app_assoc. reflexivity.
  - left. reflexivity.
Qed.

(** X26. [verify_merkle] records a transaction as verified
    only if the response carried no error, a header of the announced
    height was at hand, the root of that header is the encoded fold of
    the path over the transaction id, and no inner node of the fold
    reads as a transaction.  The transaction is then filed under that
    root, is no longer pending, and the wallet is told its height, the
    header's timestamp and the position.  On every other exit the
    state is as before and nothing is told to anyone. *)
Theorem verified_means_root_matches :
  forall (env : verify_env) (st : state) (resp : response),
    (snd (verify env st resp) = Verified ->
     error resp = false /\
     exists hd,
       read_header env (block_height resp) = Some hd /\
       merkle_root hd
       = hash_encode (fold_siblings Hash hash_decode (merkle resp) 0%nat
                        (pos resp) (hash_decode (tx_hash resp))) /\
       Forall (fun n => deserializes (bh2u n) = false)
         (inner_nodes Hash hash_decode (merkle resp) 0%nat (pos resp)
            (hash_decode (tx_hash resp))) /\
       merkle_roots (fst (verify env st resp)) !! tx_hash resp
       = Some (merkle_root hd) /\
       (tx_hash resp ∉ requested_merkle (fst (verify env st resp))) /\
       (AddVerifiedTx (tx_hash resp) (block_height resp) (timestamp hd)
          (pos resp)) ∈ effects (fst (verify env st resp))) /\
    (snd (verify env st resp) <> Verified ->
     fst (verify env st resp) = st).
Proof.
  intros env st resp.
  destruct (verify_cases env st resp)
    as [[Hne Hsame]|(hd & r & Hv & _ & Herr & Hr & Hhd & Hroot & _ & Hroots
                     & Hreq & Heff)].
  - split; [intros Hv; contradiction | intros _; exact Hsame].
  - split; [|intros Hne; contradiction].
    intros _. split; [exact Herr|]. exists hd.
    split; [exact Hhd|]. split.
    { rewrite Hroot.
      apply (root_ok_fold Hash hash_decode hash_encode bh2u deserializes).
      exact Hr. }
    split; [eapply root_ok_nodes; exact Hr|].
    split; [rewrite Hroots, Hroot; apply lookup_insert_eq|].
    split; [rewrite Hreq; set_solver|].
    destruct Heff as [-> | ->]; set_solver.
Qed.

(** *** A failed proof *)

(** X27. A proof that failed is not asked for again: when
    [verify_merkle] leaves on any exit but the successful one, a
    transaction that was pending stays pending, and no later call of
    [run] asks any server for its proof. *)
Theorem failed_proof_is_not_requested_again :
  forall (venv : verify_env) (st : state) (resp : response) (env : run_env),
    snd (verify venv st resp) <> Verified ->
    tx_hash resp ∈ requested_merkle st ->
    tx_hash resp ∈ requested_merkle (fst (verify venv st resp)) /\
    exists evs,
      effects (run env (fst (verify venv st resp))) = effects st ++ evs /\
      tx_hash resp ∉ requests evs.
Proof.
  intros venv st resp env Hne Hreq.
  destruct (verify_cases venv st resp) as [[_ ->]|(hd & r & Hv & _)];
    [|contradiction].
  split; [exact Hreq|].
  destruct (run_asks_unknown env st) as (evs & He & Hask).
  exists evs. split; [exact He|].
  apply Hask. left. exact Hreq.
Qed.

End Facts.

(** *** The theorems at concrete proofs *)

Import Examples MoreExamples.

Local Open Scope string_scope.
Local Open Scope list_scope.

Local Abbreviation toy_verify :=
  (verify_merkle toy_Hash toy_decode toy_encode toy_encode).

(** Positions 1 and 5 on a path of length two. *)
Lemma position_is_read_modulo_path_length_witness :
  hash_merkle_root toy_Hash toy_decode toy_encode toy_encode never_tx
    ["h0"; "h23"] "t" 1
  = hash_merkle_root toy_Hash toy_decode toy_encode toy_encode never_tx
      ["h0"; "h23"] "t" 5.
Proof.
  apply (position_is_read_modulo_path_length toy_Hash toy_decode toy_encode
           toy_encode never_tx ["h0"; "h23"] "t" 1 5).
  reflexivity.
Defined.

(** The proof of [forged] read by a verifier for which nothing reads
    as a transaction. *)
Lemma verified_means_root_matches_witness :
  error forged = false /\
  exists hd,
    read_header matching_headers (block_height forged) = Some hd /\
    merkle_root hd
    = toy_encode (fold_siblings toy_Hash toy_decode (merkle forged) 0%nat
                    (pos forged) (toy_decode (tx_hash forged))) /\
    Forall (fun n => never_tx (toy_encode n) = false)
      (inner_nodes toy_Hash toy_decode (merkle forged) 0%nat (pos forged)
         (toy_decode (tx_hash forged))) /\
    merkle_roots (fst (toy_verify never_tx matching_headers busy forged))
      !! tx_hash forged = Some (merkle_root hd) /\
    (tx_hash forged
       ∉ requested_merkle
           (fst (toy_verify never_tx matching_headers busy forged))) /\
    (AddVerifiedTx (tx_hash forged) (block_height forged) (timestamp hd)
       (pos forged))
      ∈ effects (fst (toy_verify never_tx matching_headers busy forged)).
Proof.
  apply (proj1 (verified_means_root_matches toy_Hash toy_decode toy_encode
                  toy_encode never_tx matching_headers busy forged)).
  vm_compute. reflexivity.
Defined.

(** One run of a fresh verifier with one unverified transaction. *)
Lemma run_requests_only_what_is_due_witness :
  exists evs,
    effects (run one_unverified (init 0)) = effects (init 0) ++ evs /\
    Forall (fun ev => forall tx h, request_of ev = Some (tx, h) ->
              (tx, h) ∈ unverified one_unverified /\
              eligible one_unverified h /\ ~ known (init 0) tx) evs /\
    NoDup (requests evs).
Proof.
  apply (run_requests_only_what_is_due one_unverified (init 0)).
Defined.

Lemma run_covers_every_due_transaction_witness :
  known (run one_unverified (init 0)) "a".
Proof.
  apply (run_covers_every_due_transaction one_unverified (init 0) "a" 7).
  - reflexivity.
  - reflexivity.
  - apply list_elem_of_here.
  - split; [simpl; lia | eexists; reflexivity].
Defined.

(** The forged proof is rejected; its transaction is not asked for again. *)
Lemma failed_proof_is_not_requested_again_witness :
  tx_hash forged
    ∈ requested_merkle
        (fst (toy_verify looks_like_tx matching_headers busy forged)) /\
  exists evs,
    effects (run one_unverified
               (fst (toy_verify looks_like_tx matching_headers busy forged)))
    = effects busy ++ evs /\
    tx_hash forged ∉ requests evs.
Proof.
  apply (failed_proof_is_not_requested_again toy_Hash toy_decode toy_encode
           toy_encode looks_like_tx matching_headers busy forged
           one_unverified).
  - vm_compute. discriminate.
  - vm_compute. reflexivity.
Defined.

Lemma chain_switch_forgets_undone_proofs_witness :
  blockchain (run reorganised busy) = 1 /\
  ("a" ∈ undone reorganised -> ~ known (run reorganised busy) "a").
Proof.
  apply (chain_switch_forgets_undone_proofs reorganised busy 1 "a").
  - reflexivity.
  - reflexivity.
  - vm_compute. discriminate.
Defined.

End SPVMore.

(** ** Properties of loading the stored swaps *)

Module StartupFacts.
Import Swaps SwapsExt Startup SwapFacts.

Section Facts.
Variable sha256 : bytes -> bytes.
Variable hex : bytes -> string.
Variable unhex : string -> bytes.

Local Abbreviation reindex := (_add_or_reindex_swap sha256 hex).
Local Abbreviation key_of := (fun s => hex (payment_hash sha256 s)).

(** The first loop of [__init__] over items whose objects are stored
    under their own payment hash and have no funding outpoint. *)
Lemma index_stored_spec items : forall m,
  (forall k l, (k, l) ∈ items ->
     exists s, heap m !! l = Some s /\ is_Some (swaps m !! key_of s) /\
               _funding_prevout s = None) ->
  exists m',
    index_stored sha256 hex m items = Some m' /\
    heap m' = heap m /\ swaps m' = swaps m /\
    _swaps_by_funding_outpoint m' = _swaps_by_funding_outpoint m /\
    callbacks m' = callbacks m /\ events m' = events m /\
    (forall a l, _swaps_by_lockup_address m' !! a = Some l ->
       _swaps_by_lockup_address m !! a = Some l \/
       exists k s, (k, l) ∈ items /\ heap m !! l = Some s /\
                   lockup_address s = a) /\
    (forall a, is_Some (_swaps_by_lockup_address m !! a) ->
               is_Some (_swaps_by_lockup_address m' !! a)) /\
    (forall k l s, (k, l) ∈ items -> heap m !! l = Some s ->
       is_Some (_swaps_by_lockup_address m' !! lockup_address s)).
Proof.
  induction items as [|[k0 l0] rest IH]; intros m Hok; cbn [index_stored].
  { exists m. repeat split; auto.
    intros k l s Hin. apply elem_of_nil in Hin. contradiction. }
  destruct (Hok k0 l0) as (s0 & Hs0 & [l1 Hkey] & Hfp);
    [apply list_elem_of_here|].
  rewrite Hs0, Hkey.
  set (m1 := reindex m l0).
  assert (Hh1 : heap m1 = heap m) by apply reindex_heap.
  assert (Hsw1 : swaps m1 = swaps m).
  { unfold m1. rewrite (reindex_swaps _ _ _ _ _ Hs0).
    cbv beta. rewrite Hkey. reflexivity. }
  assert (Hf1 : _swaps_by_funding_outpoint m1 = _swaps_by_funding_outpoint m).
  { unfold m1. rewrite (reindex_by_funding _ _ _ _ _ Hs0), Hfp. reflexivity. }
  assert (Hl1 : _swaps_by_lockup_address m1
                = <[lockup_address s0 := l0]> (_swaps_by_lockup_address m))
    by apply (reindex_by_lockup _ _ _ _ _ Hs0).
  destruct (IH m1) as (m' & Hrun & Hh & Hsw & Hf & Hc & He & Hfrom & Hkeep & Hall).
  { intros k l Hin. rewrite Hh1, Hsw1. apply (Hok k l).
    apply list_elem_of_further. exact Hin. }
  exists m'. split; [exact Hrun|].
  rewrite Hh, Hsw, Hf, Hc, He, Hh1, Hsw1, Hf1.
  unfold m1 at 1 2. rewrite reindex_callbacks, reindex_events.
  do 5 (split; [reflexivity|]).
  split; [|split].
  - intros a l Ha. destruct (Hfrom a l Ha) as [Hin1|(k & s & Hin & Hs & Hla)].
    + rewrite Hl1 in Hin1. destruct (decide (lockup_address s0 = a)) as [<-|Hne].
      * rewrite lookup_insert_eq in Hin1. injection Hin1 as <-.
        right. exists k0, s0. split; [apply list_elem_of_here | auto].
      * rewrite lookup_insert_ne in Hin1 by exact Hne. left. exact Hin1.
    + right. exists k, s. rewrite Hh1 in Hs.
      split; [apply list_elem_of_further; exact Hin | auto].
  - intros a [l Ha]. apply Hkeep. rewrite Hl1.
    destruct (decide (lockup_address s0 = a)) as [<-|Hne].
    + rewrite lookup_insert_eq. eauto.
    + rewrite lookup_insert_ne by exact Hne. eauto.
  - intros k l s Hin Hs. apply elem_of_cons in Hin as [Heq|Hin].
    + injection Heq as -> ->. assert (s = s0) by congruence. subst s.
      apply Hkeep. rewrite Hl1, lookup_insert_eq. eauto.
    + apply (Hall k l s Hin). rewrite Hh1. exact Hs.
Qed.

Lemma loaded_ok objects items :
  well_stored sha256 hex objects items ->
  forall k l, (k, l) ∈ items ->
    exists s, heap (loaded objects items) !! l = Some s /\
              is_Some (swaps (loaded objects items) !! key_of s) /\
              _funding_prevout s = None.
Proof.
  intros [Hnd Hobj] k l Hin.
  destruct (Hobj k l Hin) as (s & Hs & -> & Hfp).
  exists s. split; [exact Hs|]. split; [|exact Hfp].
  exists l. simpl. apply elem_of_list_to_map; assumption.
Qed.

(** X28. From a stored dictionary whose objects sit under
    their own payment hashes, [__init__] raises nothing and builds
    consistent dictionaries: the stored dictionary and the objects are
    untouched, every stored swap is filed under its lockup address, and
    every lockup address on file is that of a stored swap; but no
    funding outpoint is on file, so [get_swap_by_claim_txin] finds
    nothing until the watcher has run. *)
Theorem stored_swaps_are_indexed_on_load :
  forall (objects : gmap loc SwapData) (items : list (string * loc)),
    well_stored sha256 hex objects items ->
    exists st,
      init_manager sha256 hex unhex objects items = Some st /\
      indexed sha256 hex (mgr st) /\
      heap (mgr st) = objects /\
      swaps (mgr st) = list_to_map items /\
      (forall k l s, (k, l) ∈ items -> objects !! l = Some s ->
         is_lockup_address_for_a_swap (mgr st) (lockup_address s) = true) /\
      (forall txin, get_swap_by_claim_txin (mgr st) txin = None).
Proof.
  intros objects items Hws.
  destruct (index_stored_spec items (loaded objects items)
              (loaded_ok objects items Hws))
    as (m' & Hrun & Hh & Hsw & Hf & Hc & _ & Hfrom & _ & Hall).
  simpl in Hh, Hsw, Hf, Hc.
  unfold init_manager. rewrite Hrun. simpl.
  eexists. split; [reflexivity|]. simpl.
  destruct Hws as [Hnd Hobj].
  assert (Hidx : indexed sha256 hex m').
  { split.
    - intros k l Hk. rewrite Hsw in Hk.
      apply elem_of_list_to_map in Hk; [|exact Hnd].
      destruct (Hobj k l Hk) as (s & Hs & -> & _).
      exists s. rewrite Hh. auto.
    - intros op l Hop. rewrite Hf, lookup_empty in Hop. discriminate.
    - intros a l Ha. destruct (Hfrom a l Ha) as [Hin|(k & s & _ & Hs & <-)].
      + simpl in Hin. rewrite lookup_empty in Hin. discriminate.
      + exists s. rewrite Hh. auto.
    - intros a l Ha. rewrite Hc, lookup_empty in Ha. discriminate. }
  split; [exact Hidx|]. split; [exact Hh|]. split; [exact Hsw|]. split.
  - intros k l s Hin Hs.
    destruct (Hall k l s Hin Hs) as [l' Hl'].
    unfold is_lockup_address_for_a_swap, deref. rewrite Hl'. simpl.
    destruct (indexed_lockup _ _ _ Hidx _ _ Hl') as (s' & -> & _).
    reflexivity.
  - intros txin. unfold get_swap_by_claim_txin, deref.
    rewrite Hf, lookup_empty. reflexivity.
Qed.

(** *** Registering the callbacks *)

Local Abbreviation register :=
  (fun (m : manager) (item : string * loc) =>
     match heap m !! snd item with
     | Some swap =>
       if is_redeemed swap then m else add_lnwatcher_callback m (snd item)
     | None => m
     end).

Lemma register_spec (m : manager) (item : string * loc) :
  heap (register m item) = heap m /\
  swaps (register m item) = swaps m /\
  _swaps_by_funding_outpoint (register m item)
  = _swaps_by_funding_outpoint m /\
  _swaps_by_lockup_address (register m item) = _swaps_by_lockup_address m /\
  events (register m item) = events m /\
  (callbacks (register m item) = callbacks m \/
   exists s, heap m !! snd item = Some s /\ is_redeemed s = false /\
             callbacks (register m item)
             = <[lockup_address s := snd item]> (callbacks m)) /\
  (forall s, heap m !! snd item = Some s -> is_redeemed s = false ->
             callbacks (register m item) !! lockup_address s
             = Some (snd item)).
Proof.
  cbv beta. unfold add_lnwatcher_callback.
  destruct (heap m !! snd item) as [s|] eqn:Hs.
  - destruct (is_redeemed s) eqn:Hr.
    + repeat split; auto. intros s' [= <-] Hr'. congruence.
    + simpl. repeat split; auto.
      * right. exists s. auto.
      * intros s' [= <-] _. apply lookup_insert_eq.
  - repeat split; auto. intros s' Hs'. discriminate.
Qed.

Lemma register_all items : forall m,
  let m' := foldl register m items in
  heap m' = heap m /\ swaps m' = swaps m /\
  _swaps_by_funding_outpoint m' = _swaps_by_funding_outpoint m /\
  _swaps_by_lockup_address m' = _swaps_by_lockup_address m /\
  events m' = events m /\
  (forall a l, callbacks m' !! a = Some l ->
     callbacks m !! a = Some l \/
     exists k s, (k, l) ∈ items /\ heap m !! l = Some s /\
                 is_redeemed s = false /\ lockup_address s = a) /\
  (forall a, is_Some (callbacks m !! a) -> is_Some (callbacks m' !! a)) /\
  (forall k l s, (k, l) ∈ items -> heap m !! l = Some s ->
     is_redeemed s = false ->
     is_Some (callbacks m' !! lockup_address s)).
Proof.
  induction items as [|[k0 l0] rest IH]; intros m; cbn [foldl].
  { cbv zeta. repeat split; auto.
    intros k l s Hin. apply elem_of_nil in Hin. contradiction. }
  destruct (register_spec m (k0, l0))
    as (Hh1 & Hs1 & Hf1 & Hl1 & He1 & Hc1 & Hnew).
  specialize (IH (register m (k0, l0))). cbv zeta in IH.
  destruct IH as (Hh & Hs & Hf & Hl & He & Hfrom & Hkeep & Hall).
  cbv zeta. rewrite Hh, Hs, Hf, Hl, He, Hh1, Hs1, Hf1, Hl1, He1.
  do 5 (split; [reflexivity|]).
  assert (Hkeep1 : forall a, is_Some (callbacks m !! a) ->
                             is_Some (callbacks (register m (k0, l0)) !! a)).
  { intros a [l Ha]. destruct Hc1 as [-> | (s & _ & _ & ->)]; [eauto|].
    destruct (decide (lockup_address s = a)) as [<-|Hne].
    - rewrite lookup_insert_eq. eauto.
    - rewrite lookup_insert_ne by exact Hne. eauto. }
  split; [|split].
  - intros a l Ha. destruct (Hfrom a l Ha) as [Hin1|(k & s & Hin & Hs' & Hr & Hla)].
    + destruct Hc1 as [Hc1 | (s & Hs0 & Hr & Hc1)]; rewrite Hc1 in Hin1;
        [left; exact Hin1|].
      destruct (decide (lockup_address s = a)) as [<-|Hne].
      * rewrite lookup_insert_eq in Hin1. injection Hin1 as <-.
        right. exists k0, s. split; [apply list_elem_of_here | auto].
      * rewrite lookup_insert_ne in Hin1 by exact Hne. left. exact Hin1.
    + right. exists k, s. rewrite Hh1 in Hs'.
      split; [apply list_elem_of_further; exact Hin | auto].
  - intros a Ha. apply Hkeep, Hkeep1, Ha.
  - intros k l s Hin Hs' Hr. apply elem_of_cons in Hin as [Heq|Hin].
    + injection Heq as -> ->. apply Hkeep.
      rewrite (Hnew s Hs' Hr). eauto.
    + apply (Hall k l s Hin); [rewrite Hh1; exact Hs' | exact Hr].
Qed.

(** X29. [start_network] refuses to run twice; when it runs
    it changes nothing but the callbacks: afterwards every stored swap
    that is not redeemed has a callback for its lockup address, and
    every callback added is for the lockup address of such a swap. *)
Theorem unredeemed_swaps_get_callbacks :
  forall (m : manager) (items : list (string * loc)),
    start_network true m items = Raise AssertionError /\
    exists m',
      start_network false m items = Ok m' /\
      same_records (set_callbacks m (callbacks m')) m' /\
      events m' = events m /\
      (forall k l s, (k, l) ∈ items -> heap m !! l = Some s ->
         is_redeemed s = false ->
         is_Some (callbacks m' !! lockup_address s)) /\
      (forall a l, callbacks m' !! a = Some l ->
         callbacks m !! a = Some l \/
         exists k s, (k, l) ∈ items /\ heap m !! l = Some s /\
                     is_redeemed s = false /\ lockup_address s = a).
Proof.
  intros m items. split; [reflexivity|].
  unfold start_network. eexists. split; [reflexivity|].
  destruct (register_all items m) as (Hh & Hs & Hf & Hl & He & Hfrom & _ & Hall).
  split; [|split; [exact He|split; [exact Hall | exact Hfrom]]].
  unfold same_records. simpl. rewrite Hh, Hs, Hf, Hl. repeat split.
Qed.

End Facts.

(** *** The theorems at a stored swap *)

Import Examples MoreExamples.

Local Open Scope string_scope.
Local Open Scope list_scope.

Lemma stored_items_well_stored :
  well_stored toy_sha256 toy_encode stored_objects stored_items.
Proof.
  split.
  - repeat constructor. intros Hin. apply elem_of_nil in Hin. exact Hin.
  - intros k l Hin. apply list_elem_of_singleton in Hin. injection Hin as -> ->.
    exists rswap. split; [apply lookup_singleton_eq|]. split; reflexivity.
Qed.

Lemma stored_swaps_are_indexed_on_load_witness :
  exists st,
    init_manager toy_sha256 toy_encode toy_decode stored_objects stored_items
    = Some st /\
    indexed toy_sha256 toy_encode (mgr st) /\
    heap (mgr st) = stored_objects /\
    swaps (mgr st) = list_to_map stored_items /\
    (forall k l s, (k, l) ∈ stored_items -> stored_objects !! l = Some s ->
       is_lockup_address_for_a_swap (mgr st) (lockup_address s) = true) /\
    (forall txin, get_swap_by_claim_txin (mgr st) txin = None).
Proof.
  apply (stored_swaps_are_indexed_on_load toy_sha256 toy_encode toy_decode
           stored_objects stored_items stored_items_well_stored).
Defined.

Lemma unredeemed_swaps_get_callbacks_witness :
  start_network true (holding rswap) stored_items = Raise AssertionError /\
  exists m',
    start_network false (holding rswap) stored_items = Ok m' /\
    same_records (set_callbacks (holding rswap) (callbacks m')) m' /\
    events m' = events (holding rswap) /\
    (forall k l s, (k, l) ∈ stored_items ->
       heap (holding rswap) !! l = Some s ->
       is_redeemed s = false ->
       is_Some (callbacks m' !! lockup_address s)) /\
    (forall a l, callbacks m' !! a = Some l ->
       callbacks (holding rswap) !! a = Some l \/
       exists k s, (k, l) ∈ stored_items /\
                   heap (holding rswap) !! l = Some s /\
                   is_redeemed s = false /\ lockup_address s = a).
Proof.
  apply (unredeemed_swaps_get_callbacks (holding rswap) stored_items).
Defined.

End StartupFacts.
